(** * The translation-job lifecycle of the LKS translation backend

    A shallow embedding of the three controller variants of the backend
    ([backend/src/controllers/translationController.ts], which holds the
    subprocess variant followed by the JWT/mock variant, and the remote-API
    variant), of the process-level handlers of [backend/src/server.ts], and of
    the job store they share, followed by the properties of the job lifecycle.

    Layout: strings and numbers of the JavaScript runtime; the job store and
    the SQL statements the controllers issue; a small monad for [async]
    functions; the executors; the controllers; the event loop; theorems. *)

From stdpp Require Import base strings list gmap pretty.
From Stdlib Require Import Ascii ZArith Lia.

Local Open Scope Z_scope.

(** ** JavaScript strings and numbers *)

Module Js.

(** [s.includes(needle)] *)
Fixpoint includes (needle s : string) : bool :=
  String.prefix needle s ||
  match s with
  | EmptyString => false
  | String _ rest => includes needle rest
  end.

Fixpoint drop (n : nat) (s : string) : string :=
  match n, s with
  | O, _ => s
  | S n', String _ rest => drop n' rest
  | S _, EmptyString => EmptyString
  end.

(** [s.replace(pat, rep)] with a string pattern: only the first occurrence
    is replaced. *)
Fixpoint replace (pat rep s : string) : string :=
  if String.prefix pat s then rep +:+ drop (String.length pat) s
  else match s with
       | EmptyString => EmptyString
       | String c rest => String c (replace pat rep rest)
       end.

(** *** White space

    A string stands for a JavaScript string by the bytes of its UTF-8
    encoding; a character of several bytes is recognised by its bytes. *)

(** [starts codes s]: the rest of [s] after the bytes [codes]. *)
Fixpoint starts (codes : list nat) (s : string) : option string :=
  match codes with
  | [] => Some s
  | n :: more =>
      match s with
      | String c rest => if (nat_of_ascii c =? n)%nat then starts more rest else None
      | EmptyString => None
      end
  end.

(** The number of bytes of the character of [chars] that [s] starts with,
    0 when it starts with none. *)
Definition width_of (chars : list (list nat)) (s : string) : nat :=
  default 0%nat (head (omap (λ codes, (λ _, length codes) <$> starts codes s) chars)).

(** LF, CR, U+2028 and U+2029. *)
Definition LineTerminator : list (list nat) :=
  [ [10]; [13]; [226; 128; 168]; [226; 128; 169] ]%nat.

(** White space and line terminators, which [trim] and [parseInt] strip:
    TAB, VT, FF, SP, U+00A0, U+1680, U+2000 to U+200A, U+202F, U+205F,
    U+3000 and U+FEFF, and the line terminators. *)
Definition StrWhiteSpaceChar : list (list nat) :=
  ([ [9]; [11]; [12]; [32]; [194; 160]; [225; 154; 128] ]
   ++ ((λ n, [226; 128; n]) <$> seq 128 11)
   ++ [ [226; 128; 175]; [226; 129; 159]; [227; 128; 128]; [239; 187; 191] ]
   ++ LineTerminator)%nat.

(** [s] without its leading white space; [skip] bytes of a white-space
    character are still to drop. *)
Fixpoint trimStart_from (skip : nat) (s : string) : string :=
  match skip, s with
  | S skip', String _ rest => trimStart_from skip' rest
  | S _, EmptyString => EmptyString
  | O, EmptyString => EmptyString
  | O, String c rest =>
      match width_of StrWhiteSpaceChar (String c rest) with
      | O => String c rest
      | S width => trimStart_from width rest
      end
  end.

Definition trimStart (s : string) : string := trimStart_from 0 s.

(** [s] is made of white space only. *)
Definition blank (s : string) : bool :=
  match trimStart s with
  | EmptyString => true
  | String _ _ => false
  end.

Fixpoint trimEnd (s : string) : string :=
  match s with
  | EmptyString => EmptyString
  | String c rest => if blank s then EmptyString else String c (trimEnd rest)
  end.

(** [s.trim()] *)
Definition trim (s : string) : string := trimEnd (trimStart s).

(** The rest of the line: a dot of a regular expression does not match a
    line terminator. *)
Fixpoint line (s : string) : string :=
  match s with
  | EmptyString => EmptyString
  | String c rest =>
      match width_of LineTerminator s with
      | O => String c (line rest)
      | S _ => EmptyString
      end
  end.

(** [s.match] for a pattern made of a literal [lit] followed by a group that
    captures the rest of the line: the capture of the leftmost match. *)
Fixpoint match_rest_of_line (lit s : string) : option string :=
  if String.prefix lit s then Some (line (drop (String.length lit) s))
  else match s with
       | EmptyString => None
       | String _ rest => match_rest_of_line lit rest
       end.

(** *** Numbers

    The numbers of the controllers are integers, infinite or [NaN]; a
    finite one is kept as the integer it is, and both zeros are [Finite 0]. *)
Inductive Number := NaN | Infinity (negative : bool) | Finite (n : Z).

Global Instance Number_eq_dec : EqDecision Number := ltac:(solve_decision).

(** The double nearest to an integer, ties to the even significand of 53
    bits; from 2^1024 - 2^970 on it is infinite. *)
Definition to_double (z : Z) : Number :=
  let a := Z.abs z in
  let bits := Z.log2 a + 1 in
  if bits <=? 53 then Finite z
  else
    let shift := bits - 53 in
    let q := Z.shiftr a shift in
    let r := a - Z.shiftl q shift in
    let half := Z.shiftl 1 (shift - 1) in
    let q := if (half <? r) || ((r =? half) && Z.odd q) then q + 1 else q in
    let v := Z.shiftl q shift in
    if 2 ^ 1024 <=? v then Infinity (z <? 0) else Finite (Z.sgn z * v).

(** *** [parseInt] without a radix

    Leading white space, an optional sign, an optional [0x]/[0X] prefix
    (which selects radix 16), then the longest run of digits; [NaN] when
    there is no digit.  The result is the double nearest to the integer the
    digits denote. *)

Definition digit_value (c : ascii) : option Z :=
  let n := Z.of_nat (nat_of_ascii c) in
  if (48 <=? n) && (n <=? 57) then Some (n - 48)
  else if (97 <=? n) && (n <=? 122) then Some (n - 97 + 10)
  else if (65 <=? n) && (n <=? 90) then Some (n - 65 + 10)
  else None.

Fixpoint digits (radix : Z) (acc : option Z) (s : string) : option Z :=
  match s with
  | EmptyString => acc
  | String c rest =>
      match digit_value c with
      | Some d =>
          if d <? radix
          then digits radix (Some (default 0 acc * radix + d)) rest
          else acc
      | None => acc
      end
  end.

Definition parseInt (s : string) : Number :=
  let s := trimStart s in
  let '(sign, s) :=
    match s with
    | String "-"%char rest => (-1, rest)
    | String "+"%char rest => (1, rest)
    | _ => (1, s)
    end in
  let '(radix, s) :=
    if String.prefix "0x" s || String.prefix "0X" s then (16, drop 2 s) else (10, s) in
  match digits radix None s with
  | Some n => to_double (sign * n)
  | None => NaN
  end.

(** [parseInt(x as string) || dflt] where [x] may be [undefined]: [NaN]
    and [0] are falsy. *)
Definition parseInt_or (x : option string) (dflt : Z) : Number :=
  match x with
  | None => Finite dflt
  | Some s =>
      match parseInt s with
      | NaN | Finite 0 => Finite dflt
      | n => n
      end
  end.

(** Truthiness of a string value that may be [null]/[undefined]. *)
Definition truthy (x : option string) : bool :=
  match x with
  | Some (String _ _) => true
  | _ => false
  end.

(** A number in a template literal. *)
Definition show (z : Z) : string := pretty z.

End Js.

(** ** The job store *)

Inductive Status := pending | processing | completed | failed.

Global Instance Status_eq_dec : EqDecision Status := ltac:(solve_decision).

(** The text stored in the [status] column. *)
Definition status_text (s : Status) : string :=
  match s with
  | pending => "pending"
  | processing => "processing"
  | completed => "completed"
  | failed => "failed"
  end.

(** A row of [translation_jobs].  Nullable columns are options; timestamps
    are readings of the database clock. *)
Record Job := mkJob {
  id : string;
  user_id : string;
  source_language : string;
  target_language : string;
  document_type : string;
  original_filename : string;
  original_file_path : string;
  file_size : Z;
  status : Status;
  translated_filename : option string;
  translated_file_path : option string;
  error_message : option string;
  created_at : nat;
  completed_at : option nat;
}.

(** A row of [users], with the columns the controllers read or write. *)
Record User := mkUser {
  u_id : string;
  u_name : string;
  u_email : string;
  u_role : string;
}.

Definition Bytes := string.

(** A JavaScript [Error]; the controllers only read its [message]. *)
Record Error := mkError { message : string }.

(** A bound parameter of a prepared statement. *)
Inductive Param := PStr (s : string) | PNum (n : Js.Number).

(** The statements the controllers send through [query], indexed by the type
    of the rows they return.  Each constructor carries the values bound to
    its placeholders, in the order of the source. *)
Inductive Sql : Type → Type :=
| SelectUserIdByEmail (email : string) : Sql string
| InsertUser (name email password_hash role organization : string) : Sql string
| InsertJob (user source_lang target_lang doc_type orig_name orig_path : string)
    (size : Z) (st : Status) : Sql string
| UpdateJobStatus (st : Status) (job : string) : Sql unit
| UpdateJobCompleted (st : Status) (filename path job : string) : Sql unit
| UpdateJobFailed (st : Status) (msg job : string) : Sql unit
| SelectJobById (job : string) : Sql Job
| SelectJobByIdAndUser (job user : string) : Sql Job
| SelectJobsPage (owner_ph : option nat) (limit_ph offset_ph : nat)
    (params : list Param) : Sql Job.

(** What [fetch] resolves to, with its body already read: [text()] is
    [res_text], [json()] is [res_json] ([None] when the body is not JSON),
    [arrayBuffer()] is [res_bytes]. *)
Record ApiReply := mkApiReply { translatedFileUrl : option string }.

Record HttpResponse := mkHttpResponse {
  res_ok : bool;
  res_status : Z;
  res_text : string;
  res_json : option ApiReply;
  res_bytes : Bytes;
}.

(** The multipart form posted to the external API. *)
Record ApiRequest := mkApiRequest {
  form_api_key : string;
  form_file_name : string;
  form_file : Bytes;
  form_sourceLanguage : string;
  form_targetLanguage : string;
  form_documentType : string;
}.

(** What the ['close'] event of a child process reports, together with the
    files the child wrote while it ran. *)
Record ProcResult := mkProcResult {
  exit_code : option Z;
  stdout : string;
  stderr : string;
  written : list (string * Bytes);
}.

(** The arguments of a [processTranslationAsync] call. *)
Record DispatchArgs := mkDispatchArgs {
  d_jobId : string;
  d_sourcePath : string;
  d_originalFilename : string;
  d_sourceLanguage : string;
  d_targetLanguage : string;
  d_documentType : string;
}.

(** ** Asynchronous functions

    The operations a controller waits for or performs on the outside world,
    indexed by the type of their result.  [Invoke] is instrumentation: it
    records that the executor was called for a job.  [Detach] is a call of
    [processTranslationAsync] whose promise is dropped. *)
Inductive Op : Type → Type :=
| Query {R} (q : Sql R) : Op (list R)
| ExistsSync (path : string) : Op bool
| ReadFileSync (path : string) : Op Bytes
| WriteFileSync (path : string) (content : Bytes) : Op unit
| UnlinkSync (path : string) : Op unit
| SetTimeout (ms : nat) : Op unit
| DateNow : Op nat
| Fetch (url : string) (form : option ApiRequest) : Op HttpResponse
| Spawn (command script : string) : Op ProcResult
| Download (path filename : string) : Op Bytes
| Invoke (job : string) : Op unit
| Detach (args : DispatchArgs) : Op unit.

(** An [async] function body: it has returned, it has thrown (its promise
    is rejected), it has thrown inside a callback that nothing guards (the
    exception reaches the process), or it waits for an operation and goes on
    with its result or its error. *)
Inductive Async (A : Type) : Type :=
| Ret (a : A)
| Throw (e : Error)
| Uncaught (e : Error)
| Await {X : Type} (op : Op X) (k : Error + X → Async A).

Arguments Ret {A} a.
Arguments Throw {A} e.
Arguments Uncaught {A} e.
Arguments Await {A X} op k.

Fixpoint async_bind {A B} (f : A → Async B) (m : Async A) : Async B :=
  match m with
  | Ret a => f a
  | Throw e => Throw e
  | Uncaught e => Uncaught e
  | Await op k => Await op (λ r, async_bind f (k r))
  end.

Global Instance Async_ret : MRet Async := @Ret.
Global Instance Async_bind : MBind Async := @async_bind.

(** [try { m } catch (error) { h error }] *)
Fixpoint try_catch {A} (m : Async A) (h : Error → Async A) : Async A :=
  match m with
  | Ret a => Ret a
  | Throw e => h e
  | Uncaught e => Uncaught e
  | Await op k => Await op (λ r, try_catch (k r) h)
  end.

(** The body of a timer or event callback that settles a promise only by
    calling [resolve]: what it throws is nobody's rejection. *)
Fixpoint unguarded_callback {A} (m : Async A) : Async A :=
  match m with
  | Ret a => Ret a
  | Throw e => Uncaught e
  | Uncaught e => Uncaught e
  | Await op k => Await op (λ r, unguarded_callback (k r))
  end.

(** [await op], or a synchronous call of [op]: an error is thrown. *)
Definition perform {X} (op : Op X) : Async X :=
  Await op (λ r, match r with inl e => Throw e | inr x => Ret x end).

Definition query {R} (q : Sql R) : Async (list R) := perform (Query q).

(** ** The world: database, storage, clock and event loop

    Besides the tables, the files and the clock, a world holds the promises
    that were dropped and are still running, two logs kept for the
    statements below (the jobs the executor was called for, the URLs that
    were requested, latest first) and whether the process has exited. *)

Record Task := mkTask {
  task_job : string;
  task_body : Async unit;
}.

Record World := mkWorld {
  users : list User;
  translation_jobs : list Job;
  files : gmap string Bytes;
  now : nat;
  tasks : list Task;
  executions : list string;
  fetched : list string;
  exited : bool;
}.

(** What the environment decides when an operation runs: it succeeds, it
    fails with an error, and for the operations whose result is not
    determined by the world, what they produce (the identifier generated for
    an inserted row, an HTTP response, the outcome of a child process). *)
Inductive Outcome :=
| OOk
| OFail (e : Error)
| ONewId (new_id : string)
| OHttp (r : HttpResponse)
| OProc (r : ProcResult).

Definition set_users (f : list User → list User) (w : World) : World :=
  mkWorld (f (users w)) (translation_jobs w) (files w) (now w) (tasks w)
    (executions w) (fetched w) (exited w).
Definition set_jobs (f : list Job → list Job) (w : World) : World :=
  mkWorld (users w) (f (translation_jobs w)) (files w) (now w) (tasks w)
    (executions w) (fetched w) (exited w).
Definition set_files (f : gmap string Bytes → gmap string Bytes) (w : World) : World :=
  mkWorld (users w) (translation_jobs w) (f (files w)) (now w) (tasks w)
    (executions w) (fetched w) (exited w).
Definition set_tasks (f : list Task → list Task) (w : World) : World :=
  mkWorld (users w) (translation_jobs w) (files w) (now w) (f (tasks w))
    (executions w) (fetched w) (exited w).
Definition set_executions (f : list string → list string) (w : World) : World :=
  mkWorld (users w) (translation_jobs w) (files w) (now w) (tasks w)
    (f (executions w)) (fetched w) (exited w).
Definition set_fetched (f : list string → list string) (w : World) : World :=
  mkWorld (users w) (translation_jobs w) (files w) (now w) (tasks w)
    (executions w) (f (fetched w)) (exited w).
Definition set_exited (b : bool) (w : World) : World :=
  mkWorld (users w) (translation_jobs w) (files w) (now w) (tasks w)
    (executions w) (fetched w) b.
Definition tick (w : World) : World :=
  mkWorld (users w) (translation_jobs w) (files w) (S (now w)) (tasks w)
    (executions w) (fetched w) (exited w).

(** ** The database behind [query] *)

Module Db.

Definition with_status (st : Status) (r : Job) : Job :=
  mkJob (id r) (user_id r) (source_language r) (target_language r)
    (document_type r) (original_filename r) (original_file_path r)
    (file_size r) st (translated_filename r) (translated_file_path r)
    (error_message r) (created_at r) (completed_at r).

(** [SET status = $1, translated_filename = $2, translated_file_path = $3,
    completed_at = CURRENT_TIMESTAMP] *)
Definition with_completed (st : Status) (filename path : string) (t : nat) (r : Job) : Job :=
  mkJob (id r) (user_id r) (source_language r) (target_language r)
    (document_type r) (original_filename r) (original_file_path r)
    (file_size r) st (Some filename) (Some path)
    (error_message r) (created_at r) (Some t).

(** [SET status = $1, error_message = $2] *)
Definition with_failed (st : Status) (msg : string) (r : Job) : Job :=
  mkJob (id r) (user_id r) (source_language r) (target_language r)
    (document_type r) (original_filename r) (original_file_path r)
    (file_size r) st (translated_filename r) (translated_file_path r)
    (Some msg) (created_at r) (completed_at r).

(** [UPDATE translation_jobs SET ... WHERE id = j] *)
Definition update_where_id (j : string) (f : Job → Job) (rows : list Job) : list Job :=
  (λ r, if decide (id r = j) then f r else r) <$> rows.

(** [SELECT ... FROM translation_jobs WHERE id = j] *)
Definition where_id (j : string) (rows : list Job) : list Job :=
  filter (λ r, id r = j) rows.

(** [ORDER BY created_at DESC]: an insertion sort that keeps the table
    order among rows created at the same instant. *)
Fixpoint insert_desc (r : Job) (rows : list Job) : list Job :=
  match rows with
  | [] => [r]
  | r' :: rest =>
      if (created_at r' <=? created_at r)%nat then r :: rows
      else r' :: insert_desc r rest
  end.

Definition order_by_created_at_desc (rows : list Job) : list Job :=
  foldr insert_desc [] rows.

(** The value bound to placeholder [$ph]. *)
Definition bound (params : list Param) (ph : nat) : option Param :=
  match ph with
  | O => None
  | S n => params !! n
  end.

(** A statement can be bound when the supplied values are exactly the
    parameters [$1 .. $n] it mentions. *)
Definition bindable (mentioned : list nat) (params : list Param) : bool :=
  forallb (λ ph, bool_decide (ph ∈ seq 1 (length params))) mentioned &&
  forallb (λ i, bool_decide (i ∈ mentioned)) (seq 1 (length params)).

Definition bad_bind : Error :=
  mkError "bind message supplies the wrong number of parameters".
Definition bad_type : Error := mkError "invalid input syntax".
Definition negative_limit : Error := mkError "LIMIT must not be negative".
Definition negative_offset : Error := mkError "OFFSET must not be negative".
Definition duplicate_key : Error :=
  mkError "duplicate key value violates unique constraint".
Definition no_id : Error := mkError "no identifier was generated".

(** A number bound to a [bigint] parameter, as [LIMIT] and [OFFSET] are:
    the driver sends the text of the number, which the database reads when
    it is that of an integer from -2^63 to 2^63 - 1. *)
Definition bigint (n : Js.Number) : option Z :=
  match n with
  | Js.Finite z => if (- 2 ^ 63 <=? z) && (z <? 2 ^ 63) then Some z else None
  | _ => None
  end.

(** [SELECT ... FROM translation_jobs [WHERE user_id = $o] ORDER BY
    created_at DESC LIMIT $l OFFSET $f] *)
Definition select_page (owner_ph : option nat) (limit_ph offset_ph : nat)
    (params : list Param) (rows : list Job) : Error + list Job :=
  if negb (bindable (option_list owner_ph ++ [limit_ph; offset_ph]) params)
  then inl bad_bind
  else
    let owned :=
      match owner_ph with
      | None => Some rows
      | Some ph =>
          match bound params ph with
          | Some (PStr u) => Some (filter (λ r, user_id r = u) rows)
          | _ => None
          end
      end in
    match owned, bound params limit_ph, bound params offset_ph with
    | Some rows, Some (PNum l), Some (PNum f) =>
        match bigint l, bigint f with
        | Some l, Some f =>
            if l <? 0 then inl negative_limit
            else if f <? 0 then inl negative_offset
            else inr (take (Z.to_nat l) (drop (Z.to_nat f) (order_by_created_at_desc rows)))
        | _, _ => inl bad_type
        end
    | _, _, _ => inl bad_type
    end.

(** Modelled from the spec: [query] of database/db.js, which is not among
    the sources.  The job store is a table of rows keyed by job id; every
    status update is one statement scoped to one row; the history is listed
    reverse-chronologically by creation time and paged by limit and offset.
    Each statement is interpreted after its SQL text in the controllers.  An
    [INSERT ... RETURNING id] takes the generated identifier from the
    environment and fails on a primary-key (or unique e-mail) collision. *)
Definition exec {R} (q : Sql R) (o : Outcome) (w : World) : (Error + list R) * World :=
  match q in Sql R return (Error + list R) * World with
  | SelectUserIdByEmail email =>
      (inr (u_id <$> filter (λ u, u_email u = email) (users w)), w)
  | InsertUser name email password_hash role organization =>
      match o with
      | ONewId uid =>
          if bool_decide (uid ∈ u_id <$> users w) || bool_decide (email ∈ u_email <$> users w)
          then (inl duplicate_key, w)
          else (inr [uid], set_users (λ us, us ++ [mkUser uid name email role]) w)
      | _ => (inl no_id, w)
      end
  | InsertJob user source_lang target_lang doc_type orig_name orig_path size st =>
      match o with
      | ONewId j =>
          if bool_decide (j ∈ id <$> translation_jobs w)
          then (inl duplicate_key, w)
          else (inr [j],
                set_jobs (λ rows, rows ++
                  [mkJob j user source_lang target_lang doc_type orig_name orig_path
                     size st None None None (now w) None]) w)
      | _ => (inl no_id, w)
      end
  | UpdateJobStatus st j =>
      (inr [], set_jobs (update_where_id j (with_status st)) w)
  | UpdateJobCompleted st filename path j =>
      (inr [], set_jobs (update_where_id j (with_completed st filename path (now w))) w)
  | UpdateJobFailed st msg j =>
      (inr [], set_jobs (update_where_id j (with_failed st msg)) w)
  | SelectJobById j => (inr (where_id j (translation_jobs w)), w)
  | SelectJobByIdAndUser j u =>
      (inr (filter (λ r, user_id r = u) (where_id j (translation_jobs w))), w)
  | SelectJobsPage owner_ph limit_ph offset_ph params =>
      (select_page owner_ph limit_ph offset_ph params (translation_jobs w), w)
  end.

End Db.

(** ** Running operations *)

Definition ENOENT : Error := mkError "ENOENT: no such file or directory".

Section Effects.

(** The body a dropped [processTranslationAsync] call starts with. *)
Context (start : DispatchArgs → Async unit).

(** The effect of one operation, given what the environment decides.  A
    failing operation leaves the world as it was, but for the log of
    requests. *)
Definition effect {X} (op : Op X) (o : Outcome) (w : World) : (Error + X) * World :=
  match op in Op X return (Error + X) * World with
  | Query q =>
      match o with
      | OFail e => (inl e, w)
      | _ => Db.exec q o w
      end
  | ExistsSync path => (inr (bool_decide (is_Some (files w !! path))), w)
  | ReadFileSync path =>
      match o, files w !! path with
      | OFail e, _ => (inl e, w)
      | _, Some content => (inr content, w)
      | _, None => (inl ENOENT, w)
      end
  | WriteFileSync path content =>
      match o with
      | OFail e => (inl e, w)
      | _ => (inr (), set_files (insert path content) w)
      end
  | UnlinkSync path =>
      match o, files w !! path with
      | OFail e, _ => (inl e, w)
      | _, Some _ => (inr (), set_files (delete path) w)
      | _, None => (inl ENOENT, w)
      end
  | SetTimeout _ => (inr (), w)
  | DateNow => (inr (now w), w)
  | Fetch url _ =>
      let w := set_fetched (cons url) w in
      match o with
      | OHttp r => (inr r, w)
      | OFail e => (inl e, w)
      | _ => (inl (mkError "fetch failed"), w)
      end
  | Spawn _ _ =>
      match o with
      | OProc r =>
          (inr r, set_files (λ fs, foldr (λ pc, insert pc.1 pc.2) fs (written r)) w)
      | OFail e => (inl e, w)
      | _ => (inl (mkError "spawn failed"), w)
      end
  | Download path _ =>
      match o, files w !! path with
      | OFail e, _ => (inl e, w)
      | _, Some content => (inr content, w)
      | _, None => (inl ENOENT, w)
      end
  | Invoke j => (inr (), set_executions (cons j) w)
  | Detach args =>
      (inr (), set_tasks (λ ts, ts ++ [mkTask (d_jobId args) (start args)]) w)
  end.

(** Running a body to its end, every operation taking the next outcome of
    [os] ([OOk] once [os] is used up). *)
Fixpoint run {A} (os : list Outcome) (m : Async A) (w : World) : Async A * World :=
  match m with
  | Await op k =>
      let '(r, w') := effect op (hd OOk os) w in
      run (tl os) (k r) w'
  | _ => (m, w)
  end.

(** The outcomes [run] leaves unused. *)
Fixpoint rest {A} (os : list Outcome) (m : Async A) (w : World) : list Outcome :=
  match m with
  | Await op k =>
      let '(r, w') := effect op (hd OOk os) w in
      rest (tl os) (k r) w'
  | _ => os
  end.

(** [process.on('unhandledRejection')] and [process.on('uncaughtException')]
    of server.ts both call [process.exit(1)]. *)
Definition settled_badly {A} (m : Async A) : bool :=
  match m with
  | Throw _ | Uncaught _ => true
  | _ => false
  end.

(** The event loop resumes the [i]-th dropped promise: the operation it
    waits for takes outcome [o], and the body goes on to its next
    operation.  Nothing runs once the process has exited. *)
Definition resume (i : nat) (o : Outcome) (w : World) : World :=
  if exited w then w
  else
    match tasks w !! i with
    | Some (mkTask j (Await op k)) =>
        let '(r, w') := effect op o w in
        let body := k r in
        let w'' := set_tasks (<[i := mkTask j body]>) w' in
        if settled_badly body then set_exited true w'' else w''
    | _ => w
    end.

End Effects.

(** ** The platform

    What the controllers take from Node and from the process environment:
    the [path] functions, the directories, the text of the script handed to
    the Python interpreter, and the two environment variables of the
    remote-API executor. *)
Class Platform := {
  extname : string → string;
  basename : string → string;
  join : string → string → string;
  translatedDir : string;
  pythonTranslatorPath : string;
  tempScriptPath : nat → string;
  pythonCommand : string;
  scriptContent : string → string → string → Bytes;
  EXTERNAL_TRANSLATION_API_URL : option string;
  EXTERNAL_TRANSLATION_API_KEY : option string;
}.

(** The three controllers: the subprocess variant and the JWT variant of
    translationController.ts, and the remote-API variant. *)
Inductive Controller := Subprocess | JwtMock | RemoteApi.

Global Instance Controller_eq_dec : EqDecision Controller := ltac:(solve_decision).

(** ** The executors *)

Section Executors.

Context `{Platform}.

(** The fallback of the subprocess and remote-API variants: a promise that
    a timer callback resolves after copying the source; the callback has no
    [try]. *)
Definition fallback_copy (sourcePath targetPath : string) : Async unit :=
  unguarded_callback (
    perform (SetTimeout 2000);;
    content ← perform (ReadFileSync sourcePath);
    perform (WriteFileSync targetPath content)).

(** JWT variant: the timer callback copies the source inside
    [try { ... resolve() } catch (error) { reject(error) }]. *)
Definition translateDocument_mock
    (sourcePath targetPath sourceLanguage targetLanguage documentType : string)
    : Async unit :=
  perform (SetTimeout 2000);;
  try_catch (
    content ← perform (ReadFileSync sourcePath);
    perform (WriteFileSync targetPath content))
  (λ error, Throw error).

(** The message the subprocess variant rejects with. *)
Definition python_error (code : option Z) (output stderrOutput : string) : Error :=
  match Js.match_rest_of_line "ERROR:" output with
  | Some rest => mkError (Js.trim rest)
  | None =>
      mkError ("Python process exited with code " +:+
               from_option Js.show "null" code +:+
               ". Output: " +:+ Js.trim output +:+
               " Stderr: " +:+ Js.trim stderrOutput)
  end.

Definition names_document (output : string) : bool :=
  Js.includes ".pdf" output || Js.includes ".docx" output || Js.includes ".xlsx" output.

(** Subprocess variant. *)
Definition translateDocument_subprocess
    (sourcePath targetPath sourceLanguage targetLanguage documentType : string)
    : Async unit :=
  found ← perform (ExistsSync pythonTranslatorPath);
  if negb found then fallback_copy sourcePath targetPath
  else
    t ← perform DateNow;
    let tempScriptPath := tempScriptPath t in
    perform (WriteFileSync tempScriptPath
               (scriptContent pythonTranslatorPath sourcePath targetPath));;
    Await (Spawn pythonCommand tempScriptPath) (λ r,
      match r with
      | inl error => Throw error
      | inr closed =>
          try_catch (perform (UnlinkSync tempScriptPath)) (λ unlinkErr, Ret ());;
          let code := exit_code closed in
          let output := stdout closed in
          if bool_decide (code = Some 0) && Js.includes "SUCCESS:" (Js.trim output)
          then Ret ()
          else if bool_decide (code = Some 0) && Js.includes "SUCCESS:" (Js.trim output)
                  && names_document (Js.trim output)
          then Ret ()
          else Throw (python_error code output (stderr closed))
      end).

(** The URL the remote-API variant downloads the result from. *)
Definition download_url (apiUrl translatedFileUrl : string) : string :=
  if Js.includes "localhost" translatedFileUrl && Js.includes "20.20.20.205" apiUrl
  then Js.replace "localhost" "20.20.20.205" translatedFileUrl
  else translatedFileUrl.

Definition not_json : Error := mkError "Unexpected token in JSON".

(** Remote-API variant. *)
Definition translateDocument_remote
    (sourcePath targetPath sourceLanguage targetLanguage documentType : string)
    : Async unit :=
  let apiUrl := EXTERNAL_TRANSLATION_API_URL in
  let apiKey := EXTERNAL_TRANSLATION_API_KEY in
  if negb (Js.truthy apiUrl) || negb (Js.truthy apiKey)
  then fallback_copy sourcePath targetPath
  else
    let apiUrl := default "" apiUrl in
    let apiKey := default "" apiKey in
    try_catch (
      fileBuffer ← perform (ReadFileSync sourcePath);
      let formData :=
        mkApiRequest apiKey (basename sourcePath) fileBuffer
          sourceLanguage targetLanguage documentType in
      response ← perform (Fetch apiUrl (Some formData));
      if negb (res_ok response)
      then Throw (mkError ("External API error: " +:+ Js.show (res_status response)
                           +:+ " - " +:+ res_text response))
      else
        match res_json response with
        | None => Throw not_json
        | Some data =>
            if Js.truthy (translatedFileUrl data)
            then
              let downloadUrl := download_url apiUrl (default "" (translatedFileUrl data)) in
              fileResponse ← perform (Fetch downloadUrl None);
              if negb (res_ok fileResponse)
              then Throw (mkError ("Failed to download translated file from " +:+ downloadUrl))
              else perform (WriteFileSync targetPath (res_bytes fileResponse))
            else Throw (mkError "External API did not return a translated file URL")
        end)
    (λ error, Throw error).

Definition translateDocument (v : Controller) :
    string → string → string → string → string → Async unit :=
  match v with
  | Subprocess => translateDocument_subprocess
  | JwtMock => translateDocument_mock
  | RemoteApi => translateDocument_remote
  end.

(** ** Dispatch *)

Definition system_email : string := "system@api-key.user".

(** The [try] block of [processTranslationAsync]. *)
Definition dispatch_body (v : Controller) (a : DispatchArgs) : Async unit :=
  let jobId := d_jobId a in
  query (UpdateJobStatus processing jobId);;
  let ext := extname (d_originalFilename a) in
  let translatedFilename := "translated_" +:+ jobId +:+ ext in
  let translatedPath := join translatedDir translatedFilename in
  perform (Invoke jobId);;
  translateDocument v (d_sourcePath a) translatedPath
    (d_sourceLanguage a) (d_targetLanguage a) (d_documentType a);;
  query (UpdateJobCompleted completed translatedFilename translatedPath jobId);;
  Ret ().

(** Its [catch (error)] block. *)
Definition record_failure (a : DispatchArgs) (error : Error) : Async unit :=
  query (UpdateJobFailed failed (message error) (d_jobId a));;
  Ret ().

Definition dispatch_guarded (v : Controller) (a : DispatchArgs) : Async unit :=
  try_catch (dispatch_body v a) (record_failure a).

(** [processTranslationAsync].  The subprocess and remote-API variants
    first look the system user up and return when the lookup fails or finds
    nobody; the JWT variant starts with the guarded block. *)
Definition processTranslationAsync (v : Controller) (a : DispatchArgs) : Async unit :=
  match v with
  | JwtMock => dispatch_guarded v a
  | Subprocess | RemoteApi =>
      Await (Query (SelectUserIdByEmail system_email)) (λ r,
        match r with
        | inl error => Ret ()
        | inr rows =>
            if (0 <? length rows)%nat then dispatch_guarded v a else Ret ()
        end)
  end.

End Executors.

(** ** Requests and responses *)

Record JwtPayload := mkJwtPayload {
  userId : string;
  email : string;
  role : string;
}.

Record UploadedFile := mkUploadedFile {
  originalname : string;
  path : string;
  size : Z;
}.

(** An Express request after the middleware: [req.user] (set by the JWT
    middleware only), [req.file], [req.body], [req.params.jobId] and the two
    query parameters of the history route. *)
Record Request := mkRequest {
  req_user : option JwtPayload;
  req_file : option UploadedFile;
  body_sourceLanguage : string;
  body_targetLanguage : string;
  body_documentType : string;
  params_jobId : string;
  query_limit : option string;
  query_offset : option string;
}.

(** A job as the status and history routes render it.  A key that a
    variant does not emit is [None]; [errorMessage] is absent from history
    items and may be [null] elsewhere. *)
Record JobView := mkJobView {
  v_id : string;
  v_sourceLanguage : string;
  v_targetLanguage : string;
  v_documentType : string;
  v_originalFilename : string;
  v_translatedFilename : option string;
  v_status : Status;
  v_errorMessage : option (option string);
  v_createdAt : nat;
  v_completedAt : option nat;
  v_translatedFileUrl : option string;
  v_progress : option Z;
}.

Record Pagination := mkPagination {
  limit : Js.Number;
  offset : Js.Number;
  total : Z;
}.

Inductive Body :=
| Message (success : bool) (text : string)
| Created (text jobId : string) (st : Status) (progress : option Z)
| JobBody (job : JobView)
| HistoryBody (jobs : list JobView) (pagination : Pagination)
| FileBody (filename : string) (content : Bytes).

Record Response := mkResponse {
  code : Z;
  body : Body;
}.

(** ** The controllers *)

Section Controllers.

Context `{Platform}.

(** [job.status === 'completed' ? 100 : (job.status === 'processing' ? 50 : 0)] *)
Definition progress_of (st : Status) : Z :=
  if decide (st = completed) then 100
  else if decide (st = processing) then 50 else 0.

Definition file_url (job : Job) : option string :=
  if decide (status job = completed) then Some ("/api/files/" +:+ id job) else None.

(** [rows[0]?.id || null] followed by [if (!userId)] *)
Definition first_truthy (rows : list string) : option string :=
  match head rows with
  | Some u => if Js.truthy (Some u) then Some u else None
  | None => None
  end.

Definition system_user_fields : Sql string :=
  InsertUser "API Key System User" system_email "$2b$10$defaultHashForApiKeyUser"
    "user" "API System".

(** [processTranslation] *)
Definition processTranslation (v : Controller) (req : Request) : Async Response :=
  try_catch (
    let create (userId : string) (file : UploadedFile) (progress : option Z) :=
      jobResult ← query (InsertJob userId (body_sourceLanguage req)
                           (body_targetLanguage req) (body_documentType req)
                           (originalname file) (path file) (size file) pending);
      match head jobResult with
      | None => Throw (mkError "Cannot read properties of undefined (reading 'id')")
      | Some jobId =>
          perform (Detach (mkDispatchArgs jobId (path file) (originalname file)
                             (body_sourceLanguage req) (body_targetLanguage req)
                             (body_documentType req)));;
          Ret (mkResponse 202
                 (Created "Translation job created successfully" jobId pending progress))
      end in
    match v with
    | JwtMock =>
        match req_user req, req_file req with
        | None, _ => Ret (mkResponse 401 (Message false "User not authenticated"))
        | Some _, None => Ret (mkResponse 400 (Message false "No file uploaded"))
        | Some user, Some file => create (userId user) file None
        end
    | Subprocess | RemoteApi =>
        match req_file req with
        | None => Ret (mkResponse 400 (Message false "No file uploaded"))
        | Some file =>
            systemUserResult ← query (SelectUserIdByEmail system_email);
            userId ←
              match systemUserResult with
              | [] =>
                  newUserResult ← query system_user_fields;
                  match head newUserResult with
                  | None => Throw (mkError "Cannot read properties of undefined (reading 'id')")
                  | Some u => Ret u
                  end
              | u :: _ => Ret u
              end;
            create userId file (Some 0)
        end
    end)
  (λ error, Ret (mkResponse 500 (Message false "Failed to process translation request"))).

(** The system-user check that opens the read routes of the subprocess and
    remote-API variants. *)
Definition with_system_user (k : string → Async Response) : Async Response :=
  systemUserResult ← query (SelectUserIdByEmail system_email);
  match first_truthy systemUserResult with
  | None => Ret (mkResponse 404 (Message false "System user not found"))
  | Some userId => k userId
  end.

Definition not_authenticated : Response :=
  mkResponse 401 (Message false "User not authenticated").
Definition job_not_found : Response :=
  mkResponse 404 (Message false "Translation job not found").

(** The [job] object of the status route. *)
Definition status_view (progress : bool) (job : Job) : JobView :=
  mkJobView (id job) (source_language job) (target_language job)
    (document_type job) (original_filename job) (translated_filename job)
    (status job) (Some (error_message job)) (created_at job) (completed_at job)
    (file_url job)
    (if progress then Some (progress_of (status job)) else None).

(** [getJobStatus] *)
Definition getJobStatus (v : Controller) (req : Request) : Async Response :=
  try_catch (
    let jobId := params_jobId req in
    match v with
    | JwtMock =>
        match req_user req with
        | None => Ret not_authenticated
        | Some user =>
            result ← query (SelectJobByIdAndUser jobId (userId user));
            match result with
            | [] => Ret job_not_found
            | job :: _ => Ret (mkResponse 200 (JobBody (status_view false job)))
            end
        end
    | Subprocess | RemoteApi =>
        with_system_user (λ userId,
          result ← query (SelectJobById jobId);
          match result with
          | [] => Ret job_not_found
          | job :: _ => Ret (mkResponse 200 (JobBody (status_view true job)))
          end)
    end)
  (λ error, Ret (mkResponse 500 (Message false "Failed to fetch job status"))).

(** An item of the history: the first [map] of [getTranslationHistory]. *)
Definition history_view (job : Job) : JobView :=
  mkJobView (id job) (source_language job) (target_language job)
    (document_type job) (original_filename job) (translated_filename job)
    (status job) None (created_at job) (completed_at job)
    (file_url job) None.

(** The second [map], of the subprocess and remote-API variants. *)
Definition add_progress (job : JobView) : JobView :=
  mkJobView (v_id job) (v_sourceLanguage job) (v_targetLanguage job)
    (v_documentType job) (v_originalFilename job) (v_translatedFilename job)
    (v_status job) (v_errorMessage job) (v_createdAt job) (v_completedAt job)
    (v_translatedFileUrl job) (Some (progress_of (v_status job))).

(** [getTranslationHistory].  The remote-API variant numbers its
    placeholders [$2] and [$3] and binds two values. *)
Definition getTranslationHistory (v : Controller) (req : Request) : Async Response :=
  try_catch (
    let page (owner : list Param) (owner_ph : option nat) (limit_ph offset_ph : nat)
             (progress : bool) :=
      let limit := Js.parseInt_or (query_limit req) 50 in
      let offset := Js.parseInt_or (query_offset req) 0 in
      result ← query (SelectJobsPage owner_ph limit_ph offset_ph
                        (owner ++ [PNum limit; PNum offset]));
      let jobs := history_view <$> result in
      let jobsWithProgress := add_progress <$> jobs in
      Ret (mkResponse 200
             (HistoryBody (if progress then jobsWithProgress else jobs)
                (mkPagination limit offset (Z.of_nat (length jobs))))) in
    match v with
    | JwtMock =>
        match req_user req with
        | None => Ret not_authenticated
        | Some user => page [PStr (userId user)] (Some 1%nat) 2%nat 3%nat false
        end
    | Subprocess => with_system_user (λ userId, page [] None 1%nat 2%nat true)
    | RemoteApi => with_system_user (λ userId, page [] None 2%nat 3%nat true)
    end)
  (λ error, Ret (mkResponse 500 (Message false "Failed to fetch translation history"))).

Definition download_failed : Response :=
  mkResponse 500 (Message false "Failed to download file").

(** The part of [downloadFile] the variants share, from the job lookup on.
    A [NULL] path or filename reaches [fs.existsSync] and [res.download] as
    [null]: no file is found. *)
Definition download_job (jobId userId : string) (isAdmin : bool) (check_owner : bool)
    : Async Response :=
  result ← query (SelectJobById jobId);
  match result with
  | [] => Ret job_not_found
  | job :: _ =>
      if check_owner && negb (bool_decide (user_id job = userId)) && negb isAdmin
      then Ret (mkResponse 403
                  (Message false "You do not have permission to access this file"))
      else if negb (bool_decide (status job = completed))
      then Ret (mkResponse 400
                  (Message false ("Translation is not yet completed. Current status: "
                                  +:+ status_text (status job))))
      else
        exists_ ← match translated_file_path job with
                  | Some p => perform (ExistsSync p)
                  | None => Ret false
                  end;
        if negb exists_
        then Ret (mkResponse 404 (Message false "Translated file not found on server"))
        else
          Await (Download (default "" (translated_file_path job))
                          (default "" (translated_filename job)))
            (λ r, match r with
                  | inl err => Ret download_failed
                  | inr content =>
                      Ret (mkResponse 200
                             (FileBody (default "" (translated_filename job)) content))
                  end)
  end.

(** [downloadFile] *)
Definition downloadFile (v : Controller) (req : Request) : Async Response :=
  try_catch (
    let jobId := params_jobId req in
    match v with
    | JwtMock =>
        match req_user req with
        | None => Ret not_authenticated
        | Some user =>
            let isAdmin := bool_decide (role user = "admin") in
            download_job jobId (userId user) isAdmin true
        end
    | Subprocess | RemoteApi =>
        with_system_user (λ userId,
          let isAdmin := true in
          download_job jobId userId isAdmin false)
    end)
  (λ error, Ret download_failed).

End Controllers.

(** ** The server *)

Section Server.

Context `{Platform}.

(** What happens to a running server: the database clock advances, a
    request is handled, or the event loop resumes a dropped promise.  A
    request is handled in one piece, its operations taking the outcomes
    [os]; reading routes leave the world as it is. *)
Inductive Event :=
| Tick
| Post (req : Request) (os : list Outcome)
| Resume (i : nat) (o : Outcome).

(** Handling a request: the response, and the world after it. *)
Definition handle {A} (v : Controller) (os : list Outcome) (m : Async A) (w : World)
    : Async A * World :=
  run (processTranslationAsync v) os m w.

Definition step (v : Controller) (ev : Event) (w : World) : World :=
  match ev with
  | Tick => tick w
  | Post req os => if exited w then w else (handle v os (processTranslation v req) w).2
  | Resume i o => resume (processTranslationAsync v) i o w
  end.

Definition exec (v : Controller) (evs : list Event) (w : World) : World :=
  foldl (λ w ev, step v ev w) w evs.

(** A server starts with no job and no pending promise. *)
Definition boot (us : list User) (fs : gmap string Bytes) (t : nat) : World :=
  mkWorld us [] fs t [] [] [] false.

(** The response of a route in world [w]. *)
Definition respond (v : Controller) (os : list Outcome) (m : Async Response) (w : World)
    : option Response :=
  match (handle v os m w).1 with
  | Ret r => Some r
  | _ => None
  end.

(** The row of a job. *)
Definition job_row (j : string) (w : World) : option Job :=
  head (Db.where_id j (translation_jobs w)).

Definition status_of (j : string) (w : World) : option Status :=
  status <$> job_row j w.

(** A direct call of [processTranslationAsync], run to its end. *)
Definition dispatch (v : Controller) (os : list Outcome) (a : DispatchArgs) (w : World)
    : Async unit * World :=
  run (processTranslationAsync v) os (processTranslationAsync v a) w.

End Server.

(** ** A concrete platform, for examples: POSIX paths, no interpreter
    script installed, no external API configured. *)

Module Demo.

Fixpoint last_dot (s : string) : option string :=
  match s with
  | EmptyString => None
  | String c rest =>
      match last_dot rest with
      | Some e => Some e
      | None => if Ascii.eqb c "."%char then Some s else None
      end
  end.

Definition posix (url key : option string) (script : string) : Platform := {|
  extname := λ p, default "" (last_dot p);
  basename := λ p, p;
  join := λ a b, a +:+ "/" +:+ b;
  translatedDir := "/srv/uploads/translated";
  pythonTranslatorPath := script;
  tempScriptPath := λ t, "/tmp/translate_" +:+ pretty t +:+ ".py";
  pythonCommand := "python3";
  scriptContent := λ translator source target, source +:+ " " +:+ target;
  EXTERNAL_TRANSLATION_API_URL := url;
  EXTERNAL_TRANSLATION_API_KEY := key;
|}.

Definition upload : UploadedFile := mkUploadedFile "doc.txt" "/srv/uploads/original/1_doc.txt" 5.

Definition alice : JwtPayload := mkJwtPayload "alice" "alice@lks.com" "user".
Definition bob : JwtPayload := mkJwtPayload "bob" "bob@lks.com" "user".

Definition request (user : option JwtPayload) (job : string) (lim off : option string)
    : Request :=
  mkRequest user (Some upload) "en" "es" "txt" job lim off.

Definition storage : gmap string Bytes := {[ "/srv/uploads/original/1_doc.txt" := "hello" ]}.

Definition system_user : User :=
  mkUser "sys" "API Key System User" system_email "user".

Definition world0 : World := boot [system_user] storage 0.

End Demo.

(** ** The protocol of a dispatch

    What is known about a job while its [processTranslationAsync] call
    runs: the status of its row, whether the executor was called for it,
    and the paths the call has written. *)
Record Protocol := mkProtocol {
  p_status : Status;
  p_called : bool;
  p_written : list string;
}.

(** [safe strict Q j st m]: from protocol state [st], the body [m] only
    writes the row of job [j], only along the transitions below, calls the
    executor at most once, starts no other call, and whenever it ends, ends
    in a state that [Q] accepts.  With [strict], the completed update names
    a path the body has written, and nothing is unlinked. *)
Fixpoint safe (strict : bool) (Q : Protocol → Async unit → Prop) (j : string)
    (st : Protocol) (m : Async unit) : Prop :=
  match m with
  | Await op k =>
      match op in Op X return (Error + X → Async unit) → Prop with
      | Query q =>
          match q in Sql R return (Error + list R → Async unit) → Prop with
          | UpdateJobStatus s j' => λ k,
              j' = j ∧ s = processing ∧ p_status st = pending ∧
              (∀ e, safe strict Q j st (k (inl e))) ∧
              (∀ rows, safe strict Q j
                         (mkProtocol s (p_called st) (p_written st)) (k (inr rows)))
          | UpdateJobCompleted s _ path j' => λ k,
              j' = j ∧ s = completed ∧ p_status st = processing ∧
              (strict = true → path ∈ p_written st) ∧
              (∀ e, safe strict Q j st (k (inl e))) ∧
              (∀ rows, safe strict Q j
                         (mkProtocol s (p_called st) (p_written st)) (k (inr rows)))
          | UpdateJobFailed s _ j' => λ k,
              j' = j ∧ s = failed ∧
              (p_status st = pending ∨ p_status st = processing) ∧
              (∀ e, safe strict Q j st (k (inl e))) ∧
              (∀ rows, safe strict Q j
                         (mkProtocol s (p_called st) (p_written st)) (k (inr rows)))
          | InsertUser _ _ _ _ _ => λ _, False
          | InsertJob _ _ _ _ _ _ _ _ => λ _, False
          | _ => λ k, ∀ r, safe strict Q j st (k r)
          end
      | WriteFileSync path _ => λ k,
          (∀ e, safe strict Q j st (k (inl e))) ∧
          (∀ u, safe strict Q j
                  (mkProtocol (p_status st) (p_called st) (path :: p_written st))
                  (k (inr u)))
      | UnlinkSync _ => λ k, strict = false ∧ ∀ r, safe strict Q j st (k r)
      | Invoke j' => λ k,
          j' = j ∧ p_called st = false ∧
          ∀ r, safe strict Q j (mkProtocol (p_status st) true (p_written st)) (k r)
      | Detach _ => λ _, False
      | _ => λ k, ∀ r, safe strict Q j st (k r)
      end k
  | _ => Q st m
  end.

(** The subprocess variant trusts the interpreter with the output file and
    unlinks its script; the other two write the output themselves. *)
Definition strict_of (v : Controller) : bool := negb (bool_decide (v = Subprocess)).

(** How a [processTranslationAsync] call may end.  Resolved: the job is
    completed or failed, or, in the variants that look the system user up
    first, still pending with the executor never called.  Rejected: the job
    is still pending or processing.  Ended by an exception nothing caught:
    only outside the JWT variant, after the executor was called, with the job
    processing. *)
Definition settled (v : Controller) (st : Protocol) (m : Async unit) : Prop :=
  match m with
  | Ret _ =>
      p_status st = completed ∨ p_status st = failed ∨
      (v ≠ JwtMock ∧ p_status st = pending ∧ p_called st = false)
  | Throw _ => p_status st = pending ∨ p_status st = processing
  | Uncaught _ => v ≠ JwtMock ∧ p_status st = processing ∧ p_called st = true
  | Await _ _ => True
  end.

(** ** Invariants of the job store *)

(** A row is consistent: the output reference and [completed_at] are
    present exactly on completed rows, the error message exactly on failed
    rows; with [strict], the output path of a row names a stored file. *)
Definition row_ok (strict : bool) (fs : gmap string Bytes) (r : Job) : Prop :=
  (status r = completed ↔ is_Some (translated_filename r)) ∧
  (status r = completed ↔ is_Some (translated_file_path r)) ∧
  (status r = completed ↔ is_Some (completed_at r)) ∧
  (status r = failed ↔ is_Some (error_message r)) ∧
  (strict = true → ∀ p, translated_file_path r = Some p → is_Some (fs !! p)).

Definition stored (strict : bool) (fs : gmap string Bytes) (wr : list string) : Prop :=
  strict = true → ∀ p, p ∈ wr → is_Some (fs !! p).

Definition task_ok (strict : bool) (Q : Protocol → Async unit → Prop)
    (w : World) (t : Task) : Prop :=
  ∃ r wr, r ∈ translation_jobs w ∧ id r = task_job t ∧
    stored strict (files w) wr ∧
    safe strict Q (task_job t)
      (mkProtocol (status r) (bool_decide (task_job t ∈ executions w)) wr)
      (task_body t).

(** The invariant of a running server: job ids are unique, every job has
    at most one dropped promise and that promise follows the protocol from
    the current state of its row, the executor was called at most once for
    any job and only by that job's promise, every row is consistent, and a
    promise that ended badly has ended the process. *)
Record Inv (strict : bool) (Q : Protocol → Async unit → Prop) (w : World) : Prop := mkInv {
  inv_ids : NoDup (id <$> translation_jobs w);
  inv_tasks : NoDup (task_job <$> tasks w);
  inv_task_ok : ∀ t, t ∈ tasks w → task_ok strict Q w t;
  inv_exec : NoDup (executions w);
  inv_exec_task : ∀ j, j ∈ executions w → j ∈ task_job <$> tasks w;
  inv_rows : ∀ r, r ∈ translation_jobs w → row_ok strict (files w) r;
  inv_exit : ∀ t, t ∈ tasks w → settled_badly (task_body t) = true → exited w = true;
}.

Definition grows (strict : bool) (fs fs' : gmap string Bytes) : Prop :=
  strict = true → ∀ p, is_Some (fs !! p) → is_Some (fs' !! p).

(** What one step may do to a row, at database time [t] and with the files
    [fs'] in storage after the step. *)
Inductive row_step (strict : bool) (t : nat) (fs' : gmap string Bytes) (r : Job)
    : Job → Prop :=
| RowSame : row_step strict t fs' r r
| RowProcessing :
    status r = pending →
    row_step strict t fs' r (Db.with_status processing r)
| RowCompleted filename p :
    status r = processing →
    (strict = true → is_Some (fs' !! p)) →
    row_step strict t fs' r (Db.with_completed completed filename p t r)
| RowFailed msg :
    status r = pending ∨ status r = processing →
    row_step strict t fs' r (Db.with_failed failed msg r).

(** The change an operation makes to the row it updates. *)
Definition write_of {X} (op : Op X) (o : Outcome) (t : nat) : Job → Job :=
  match op, o with
  | _, OFail _ => λ r, r
  | Query (UpdateJobStatus st _), _ => Db.with_status st
  | Query (UpdateJobCompleted st filename p _), _ => Db.with_completed st filename p t
  | Query (UpdateJobFailed st msg _), _ => Db.with_failed st msg
  | _, _ => λ r, r
  end.

(** A row as [INSERT] creates it. *)
Definition new_row (t : nat) (r : Job) : Prop :=
  status r = pending ∧ translated_filename r = None ∧
  translated_file_path r = None ∧ error_message r = None ∧
  completed_at r = None ∧ created_at r = t.

(** What one step may do to the table: rows are updated in place, following
    [row_step], and new rows are appended. *)
Definition rows_step (strict : bool) (w w' : World) : Prop :=
  ∃ olds news,
    translation_jobs w' = olds ++ news ∧
    Forall2 (row_step strict (now w) (files w')) (translation_jobs w) olds ∧
    Forall (new_row (now w)) news.

(** ** The protocol of the creating route *)

Inductive Creating := NotYet | Inserted (j : string) | Spawned.

(** What [processTranslation] may do: read, insert users, insert one pending
    job and then drop one [processTranslationAsync] call for that job. *)
Fixpoint creates {A} (c : Creating) (m : Async A) : Prop :=
  match m with
  | Await op k =>
      match op in Op X return (Error + X → Async A) → Prop with
      | Query q =>
          match q in Sql R return (Error + list R → Async A) → Prop with
          | InsertJob _ _ _ _ _ _ _ st => λ k,
              st = pending ∧ c = NotYet ∧
              (∀ e, creates NotYet (k (inl e))) ∧
              (∀ j, creates (Inserted j) (k (inr [j])))
          | UpdateJobStatus _ _ => λ _, False
          | UpdateJobCompleted _ _ _ _ => λ _, False
          | UpdateJobFailed _ _ _ => λ _, False
          | _ => λ k, ∀ r, creates c (k r)
          end
      | Detach a => λ k, c = Inserted (d_jobId a) ∧ ∀ r, creates Spawned (k r)
      | WriteFileSync _ _ => λ _, False
      | UnlinkSync _ => λ _, False
      | Spawn _ _ => λ _, False
      | Invoke _ => λ _, False
      | _ => λ k, ∀ r, creates c (k r)
      end k
  | _ => True
  end.

Definition awaiting_dispatch (c : Creating) (w : World) : Prop :=
  match c with
  | Inserted j =>
      (∃ r, r ∈ translation_jobs w ∧ id r = j ∧ status r = pending) ∧
      j ∉ task_job <$> tasks w
  | _ => True
  end.

(** New rows were appended and promises dropped for them; nothing else the
    invariant reads has changed. *)
Definition appended (start : DispatchArgs → Async unit) (w w' : World) : Prop :=
  (∃ news, translation_jobs w' = translation_jobs w ++ news ∧
           Forall (new_row (now w)) news) ∧
  (∃ calls, tasks w' = tasks w ++ ((λ a, mkTask (d_jobId a) (start a)) <$> calls)) ∧
  now w' = now w ∧ files w' = files w ∧ executions w' = executions w ∧
  exited w' = exited w.

(** ** Status transitions *)

(** The transitions of the documented state machine, and staying put. *)
Inductive specified : Status → Status → Prop :=
| spec_stay s : specified s s
| spec_start : specified pending processing
| spec_complete : specified processing completed
| spec_fail : specified processing failed.

(** The transitions the controllers make: the documented ones, and from
    pending straight to failed. *)
Inductive forward : Status → Status → Prop :=
| forward_specified s s' : specified s s' → forward s s'
| forward_fail_early : forward pending failed.

(** An outcome that is not a fault. *)
Definition ok (o : Outcome) : bool :=
  match o with
  | OFail _ => false
  | _ => true
  end.

(** No operation faults. *)
Definition faultless (os : list Outcome) : Prop := forallb ok os = true.

(** The caller of a read route, as far as the route looks at it: the JWT
    payload under the JWT controller, the system user otherwise. *)
Definition identified (v : Controller) (req : Request) (w : World) : Prop :=
  match v with
  | JwtMock => is_Some (req_user req)
  | _ => is_Some (first_truthy
                    (u_id <$> filter (λ u, u_email u = system_email) (users w)))
  end.

(** The caller passes the ownership check of [downloadFile]. *)
Definition may_download (v : Controller) (req : Request) (job : Job) : Prop :=
  match v, req_user req with
  | JwtMock, Some user => user_id job = userId user ∨ role user = "admin"
  | JwtMock, None => False
  | _, _ => True
  end.

(** The table of users holds a user with the system e-mail address, and
    the first of them has an id that is not empty. *)
Definition system_user_known (w : World) : Prop :=
  ∃ u others, filter (λ u, u_email u = system_email) (users w) = u :: others ∧ u_id u ≠ "".

(** The caller a route needs: a user attached to the request under the JWT
    controller, the system user in the table otherwise. *)
Definition caller_known (v : Controller) (req : Request) (w : World) : Prop :=
  match v with
  | JwtMock => is_Some (req_user req)
  | _ => system_user_known w
  end.

Definition set_user (user : option JwtPayload) (req : Request) : Request :=
  mkRequest user (req_file req) (body_sourceLanguage req) (body_targetLanguage req)
    (body_documentType req) (params_jobId req) (query_limit req) (query_offset req).

Definition file_missing : Response :=
  mkResponse 404 (Message false "Translated file not found on server").

Definition not_ready (st : Status) : Response :=
  mkResponse 400 (Message false ("Translation is not yet completed. Current status: "
                                 +:+ status_text st)).

Definition forbidden : Response :=
  mkResponse 403 (Message false "You do not have permission to access this file").

Definition status_failed : Response :=
  mkResponse 500 (Message false "Failed to fetch job status").

(** Does a response carry anything of a job? *)
Definition discloses (r : Response) : bool :=
  match body r with
  | Message _ _ => false
  | _ => true
  end.

(** A body that neither calls the executor nor starts a dispatch. *)
Fixpoint quiet {A} (m : Async A) : Prop :=
  match m with
  | Await op k =>
      match op with
      | Invoke _ => False
      | Detach _ => False
      | _ => True
      end ∧ ∀ r, quiet (k r)
  | _ => True
  end.

(** ** Scenarios *)

Module Scenario.

Import Demo.

(** The server of the examples: no interpreter script, no external API. *)
Definition local : Platform := posix None None "/opt/universal_translator.py".

(** A world in which the interpreter script is installed. *)
Definition scripted_world : World :=
  boot [system_user] (<["/opt/universal_translator.py" := "class UniversalTranslator"]> storage) 0.

(** The same with the external API configured. *)
Definition remote : Platform :=
  posix (Some "http://20.20.20.205:5000/translate") (Some "secret")
    "/opt/universal_translator.py".

Definition upload_request : Request := request (Some alice) "" None None.

Definition db_down : Error := mkError "Connection terminated unexpectedly".
Definition disk_error : Error := mkError "EIO: i/o error, read".

(** A job was posted to the JWT variant. *)
Definition posted : list Event := [Post upload_request [ONewId "j1"]].

(** ... and its dispatch ran to the end without a fault. *)
Definition translated : list Event :=
  posted ++ replicate 6 (Resume 0 OOk).

(** ... or the processing update faulted, and the handler is about to
    record the failure. *)
Definition processing_update_lost : list Event :=
  posted ++ [Resume 0 (OFail db_down)].

(** ... or the source could not be read, and the handler is about to record
    the failure. *)
Definition read_failed : list Event :=
  posted ++ replicate 3 (Resume 0 OOk) ++ [Resume 0 (OFail disk_error)].

(** A job was posted to a key-authenticated variant. *)
Definition key_posted : list Event := [Post upload_request [OOk; ONewId "j1"]].

(** The interpreter printed a result path of its own and exited with 0. *)
Definition interpreter_result : ProcResult :=
  mkProcResult (Some 0) "SUCCESS:/srv/out/doc_es.docx" "" [].

Definition interpreted : list Event :=
  key_posted ++ replicate 6 (Resume 0 OOk) ++ [Resume 0 (OProc interpreter_result)]
             ++ replicate 2 (Resume 0 OOk).

(** The external API answered 500. *)
Definition api_error : HttpResponse :=
  mkHttpResponse false 500 "upstream failure" None "".

Definition api_called : list Event :=
  key_posted ++ replicate 4 (Resume 0 OOk) ++ [Resume 0 (OHttp api_error)].

(** The external API answered with a download URL on localhost. *)
Definition api_reply : HttpResponse :=
  mkHttpResponse true 200 "" (Some (mkApiReply (Some "http://localhost:5000/files/9"))) "".
Definition api_file : HttpResponse :=
  mkHttpResponse true 200 "" None "hola".

(** The row of the posted job, and the arguments of its dispatch. *)
Definition pending_row (owner : string) : Job :=
  mkJob "j1" owner "en" "es" "txt" "doc.txt" "/srv/uploads/original/1_doc.txt" 5
    pending None None None 0 None.

Definition output_path : string := "/srv/uploads/translated/translated_j1.txt".

Definition completed_row (owner : string) : Job :=
  mkJob "j1" owner "en" "es" "txt" "doc.txt" "/srv/uploads/original/1_doc.txt" 5
    completed (Some "translated_j1.txt") (Some output_path) None 0 (Some 0%nat).

Definition call : DispatchArgs :=
  mkDispatchArgs "j1" "/srv/uploads/original/1_doc.txt" "doc.txt" "en" "es" "txt".

Definition status_request (user : JwtPayload) : Request :=
  request (Some user) "j1" None None.

End Scenario.

(** ** What a route may answer *)

(** A body that always ends with a response accepted by [P]: it neither
    rejects nor throws in a callback. *)
Fixpoint answers (P : Response → Prop) (m : Async Response) : Prop :=
  match m with
  | Ret r => P r
  | Throw _ => False
  | Uncaught _ => False
  | Await op k => ∀ r, answers P (k r)
  end.

(** The status codes of a route. *)
Definition creating_codes (v : Controller) : list Z :=
  if decide (v = JwtMock) then [202; 400; 401; 500] else [202; 400; 500].
Definition reading_codes (v : Controller) : list Z :=
  if decide (v = JwtMock) then [200; 401; 404; 500] else [200; 404; 500].
Definition download_codes (v : Controller) : list Z :=
  if decide (v = JwtMock) then [200; 400; 401; 403; 404; 500] else [200; 400; 404; 500].

(** A response of a route: its code is one of [codes], and with code 500
    its body is the fixed message [text]. *)
Definition route_response (codes : list Z) (text : string) (r : Response) : Prop :=
  code r ∈ codes ∧ (code r = 500 → body r = Message false text).

(** An operation that only reads the database, the storage or the clock. *)
Definition reading {X} (op : Op X) : Prop :=
  match op with
  | Query (SelectUserIdByEmail _) => True
  | Query (SelectJobById _) => True
  | Query (SelectJobByIdAndUser _ _) => True
  | Query (SelectJobsPage _ _ _ _) => True
  | ExistsSync _ => True
  | ReadFileSync _ => True
  | Download _ _ => True
  | DateNow => True
  | SetTimeout _ => True
  | _ => False
  end.

(** A body all of whose operations are readings. *)
Fixpoint reads {A} (m : Async A) : Prop :=
  match m with
  | Await op k => reading op ∧ ∀ r, reads (k r)
  | _ => True
  end.

(** The same outcome with the detail of its error, if it is one, blanked. *)
Definition blind (o : Outcome) : Outcome :=
  match o with
  | OFail _ => OFail (mkError "")
  | _ => o
  end.

(** A body that goes on in the same way whatever error an operation fails
    with. *)
Fixpoint fault_blind {A} (m : Async A) : Prop :=
  match m with
  | Await op k => (∀ e e', k (inl e) = k (inl e')) ∧ ∀ r, fault_blind (k r)
  | _ => True
  end.

(** ** What an accepted upload leaves behind *)

(** The row [processTranslation] inserts for upload [file] of request
    [req], the arguments of the dispatch it starts, and its 202. *)
Definition created_row (j owner : string) (req : Request) (file : UploadedFile) (t : nat)
    : Job :=
  mkJob j owner (body_sourceLanguage req) (body_targetLanguage req)
    (body_documentType req) (originalname file) (path file) (size file)
    pending None None None t None.

Definition dispatch_of (j : string) (req : Request) (file : UploadedFile) : DispatchArgs :=
  mkDispatchArgs j (path file) (originalname file) (body_sourceLanguage req)
    (body_targetLanguage req) (body_documentType req).

Definition accepted (v : Controller) (j : string) : Response :=
  mkResponse 202
    (Created "Translation job created successfully" j pending
       (if decide (v = JwtMock) then None else Some 0)).

(** The owner of a new job: the caller under the JWT controller, a user
    with the system e-mail address otherwise. *)
Definition owner_of (v : Controller) (req : Request) (w : World) (owner : string) : Prop :=
  match v with
  | JwtMock => (userId <$> req_user req) = Some owner
  | _ => ∃ u, u ∈ users w ∧ u_id u = owner ∧ u_email u = system_email
  end.

(** The same request, for job [j]. *)
Definition with_job (j : string) (req : Request) : Request :=
  mkRequest (req_user req) (req_file req) (body_sourceLanguage req)
    (body_targetLanguage req) (body_documentType req) j (query_limit req)
    (query_offset req).

(** ** What never changes in a row *)

(** Two versions of a row agree on everything the controllers never
    update: the id, the owner, what was asked for, the upload and the time of
    creation. *)
Definition same_identity (r r' : Job) : Prop :=
  id r' = id r ∧ user_id r' = user_id r ∧
  source_language r' = source_language r ∧ target_language r' = target_language r ∧
  document_type r' = document_type r ∧
  original_filename r' = original_filename r ∧
  original_file_path r' = original_file_path r ∧
  file_size r' = file_size r ∧ created_at r' = created_at r.

(** The timestamps of a table at database time [t]: no row was created
    or completed in the future, and none was completed before it was
    created. *)
Definition dated (t : nat) (rows : list Job) : Prop :=
  ∀ r, r ∈ rows →
    (created_at r ≤ t)%nat ∧
    ∀ c, completed_at r = Some c → (created_at r ≤ c)%nat ∧ (c ≤ t)%nat.

(** Rows are stored in the order of their creation. *)
Definition in_creation_order (rows : list Job) : Prop :=
  ∀ m n r r', (m ≤ n)%nat → rows !! m = Some r → rows !! n = Some r' →
    (created_at r ≤ created_at r')%nat.

(** ** Following one dispatch *)

Section Steps_of_a_body.

Context (start : DispatchArgs → Async unit).

(** Running a body for as many operations as there are outcomes. *)
Fixpoint steps {A} (os : list Outcome) (m : Async A) (w : World) : Async A * World :=
  match os, m with
  | o :: os', Await op k =>
      let '(r, w') := effect start op o w in
      steps os' (k r) w'
  | _, _ => (m, w)
  end.

End Steps_of_a_body.

(** A body that starts no dispatch. *)
Fixpoint detach_free {A} (m : Async A) : Prop :=
  match m with
  | Await op k =>
      match op with
      | Detach _ => False
      | _ => True
      end ∧ ∀ r, detach_free (k r)
  | _ => True
  end.

(** A world in which the promise dropped last, for job [j], has come to
    [m], the promises before it being [ts]. *)
Definition following (ts : list Task) (j : string) (m : Async unit) (w : World) : World :=
  set_exited (settled_badly m) (set_tasks (λ _, ts ++ [mkTask j m]) w).

(** The executor copies the source: always under the JWT controller, and
    under the other two when the interpreter script, or the configuration of
    the external API, is missing. *)
Definition copies `{Platform} (v : Controller) (w : World) : Prop :=
  match v with
  | JwtMock => True
  | Subprocess => files w !! pythonTranslatorPath = None
  | RemoteApi =>
      Js.truthy EXTERNAL_TRANSLATION_API_URL = false ∨
      Js.truthy EXTERNAL_TRANSLATION_API_KEY = false
  end.

(** The outcomes of an upload that is given the id [j]: the key
    controllers look the system user up first. *)
Definition upload_outcomes (v : Controller) (j : string) : list Outcome :=
  if decide (v = JwtMock) then [ONewId j] else [OOk; ONewId j].

(** The name and the path of the output of job [j]. *)
Definition output_name `{Platform} (j : string) (file : UploadedFile) : string :=
  "translated_" +:+ j +:+ extname (originalname file).

Definition output_file `{Platform} (j : string) (file : UploadedFile) : string :=
  join translatedDir (output_name j file).

(** ** Listing and offering *)

(** An item of the history as controller [v] renders row [r]. *)
Definition history_item (v : Controller) (r : Job) : JobView :=
  if decide (v = JwtMock) then history_view r else add_progress (history_view r).

(** The rows a caller may see in the history: the caller's own under the
    JWT controller, all of them otherwise. *)
Definition listed_for (v : Controller) (req : Request) (r : Job) : Prop :=
  v = JwtMock → ∃ user, req_user req = Some user ∧ user_id r = userId user.

(** ** The middleware

    [middleware/auth.ts], [middleware/validation.ts] and the error handler
    of [middleware/upload.ts], and the two routers that put them in front of
    the controllers. *)

(** The headers the middleware reads; a header that was not sent is
    [None]. *)
Record Headers := mkHeaders {
  authorization : option string;
  x_api_key : option string;
}.

(** What the middleware takes from the process environment and from the
    [jsonwebtoken] library.  [jwt_verify token secret] is [inl] when
    [jwt.verify] throws. *)
Class Guards := {
  env_JWT_SECRET : option string;
  env_JWT_EXPIRES_IN : option string;
  env_TRANSLATION_API_KEY : option string;
  jwt_sign : JwtPayload → string → string → string;
  jwt_verify : string → string → Error + JwtPayload;
}.

(** [x || dflt] for an environment variable. *)
Definition or_default (x : option string) (dflt : string) : string :=
  if Js.truthy x then default "" x else dflt.

(** What a middleware does with a request: it answers it, or it calls
    [next()], here with what it has attached to the request. *)
Inductive Passed (A : Type) : Type :=
| Answered (r : Response)
| Next (a : A).

Arguments Answered {A} r.
Arguments Next {A} a.

Section Auth.

Context `{Guards}.

Definition JWT_SECRET : string := or_default env_JWT_SECRET "your-super-secret-jwt-key".
Definition JWT_EXPIRES_IN : string := or_default env_JWT_EXPIRES_IN "7d".

(** [generateToken] *)
Definition generateToken (payload : JwtPayload) : string :=
  jwt_sign payload JWT_SECRET JWT_EXPIRES_IN.

(** [verifyToken]: [null] when [jwt.verify] throws. *)
Definition verifyToken (token : string) : option JwtPayload :=
  match jwt_verify token JWT_SECRET with
  | inr decoded => Some decoded
  | inl error => None
  end.

Definition no_token : Response :=
  mkResponse 401 (Message false "No token provided. Please authenticate.").
Definition bad_token : Response :=
  mkResponse 401 (Message false "Invalid or expired token. Please login again.").

(** [authenticate]: on success [req.user] is the decoded payload. *)
Definition authenticate (headers : Headers) : Passed JwtPayload :=
  let authHeader := authorization headers in
  if negb (Js.truthy authHeader) || negb (String.prefix "Bearer " (default "" authHeader))
  then Answered no_token
  else
    let token := Js.drop 7 (default "" authHeader) in
    match verifyToken token with
    | None => Answered bad_token
    | Some decoded => Next decoded
    end.

(** [authorize(...roles)] *)
Definition authorize (roles : list string) (user : option JwtPayload) : Passed unit :=
  match user with
  | None => Answered (mkResponse 401 (Message false "User not authenticated."))
  | Some u =>
      if negb (bool_decide (role u ∈ roles))
      then Answered (mkResponse 403
                       (Message false "You do not have permission to access this resource."))
      else Next ()
  end.

Definition invalid_api_key : Response :=
  mkResponse 401 (Message false "Invalid API key").

(** [apiKeyAuth] *)
Definition apiKeyAuth (headers : Headers) : Passed unit :=
  let apiKey := x_api_key headers in
  if negb (Js.truthy apiKey) || negb (bool_decide (apiKey = env_TRANSLATION_API_KEY))
  then Answered invalid_api_key
  else Next ().

End Auth.

(** *** Validation of a translation job

    The chains of [validateTranslationJob], as [express-validator] runs
    them: a field is read as a string (the empty one when it is missing),
    sanitizers rewrite it in the request, every validator of a chain runs on
    the sanitized value, and each that fails adds an error. *)

(** What the chains take from the library: the sanitizer [trim], and the
    validator [isLength], which says whether the length of a string, as the
    library counts it, is at least [min] and at most [max]. *)
Class Validators := {
  validator_trim : string → string;
  validator_isLength : nat → nat → string → bool;
}.

Record FieldError := mkFieldError {
  fe_path : string;
  fe_value : string;
  fe_msg : string;
}.

(** The text fields of the request body. *)
Record RawBody := mkRawBody {
  raw_sourceLanguage : option string;
  raw_targetLanguage : option string;
  raw_documentType : option string;
}.

Section Validation.

Context `{Validators}.

(** [.trim()] *)
Definition sanitized (raw : option string) : string := validator_trim (default "" raw).

(** [.notEmpty().withMessage(msg)] *)
Definition notEmpty (field msg value : string) : list FieldError :=
  if bool_decide (value = "") then [mkFieldError field value msg] else [].

(** [.isLength({ min, max }).withMessage(msg)] *)
Definition isLength (min max : nat) (field msg value : string) : list FieldError :=
  if validator_isLength min max value then []
  else [mkFieldError field value msg].

(** [.isIn(values).withMessage(msg)] *)
Definition isIn (values : list string) (field msg value : string) : list FieldError :=
  if bool_decide (value ∈ values) then [] else [mkFieldError field value msg].

Definition documentTypes : list string := ["pdf"; "docx"; "xlsx"; "txt"].

(** The errors [validationResult(req)] holds after the three chains. *)
Definition validateTranslationJob (b : RawBody) : list FieldError :=
  let sourceLanguage := sanitized (raw_sourceLanguage b) in
  let targetLanguage := sanitized (raw_targetLanguage b) in
  let documentType := sanitized (raw_documentType b) in
  notEmpty "sourceLanguage" "Source language is required" sourceLanguage
  ++ isLength 2 10 "sourceLanguage" "Invalid source language code" sourceLanguage
  ++ notEmpty "targetLanguage" "Target language is required" targetLanguage
  ++ isLength 2 10 "targetLanguage" "Invalid target language code" targetLanguage
  ++ notEmpty "documentType" "Document type is required" documentType
  ++ isIn documentTypes "documentType" "Document type must be one of: pdf, docx, xlsx, txt"
       documentType.

End Validation.

(** *** Uploads *)

(** What multer makes of the body of a request: no file, or a file that
    the filter accepted, with its bytes; or an error, of multer itself or of
    the file filter. *)
Inductive UploadError :=
| MulterError (error_code error_message : string)
| OtherError (error_message : string).

Inductive Uploaded :=
| UploadOk (file : option (UploadedFile * Bytes))
| UploadFailed (err : UploadError).

(** [upload.single('file')] with the disk storage: a file that was accepted
    is written at its path before the request is handed on; an error of the
    write is handed to the error handler. *)
Definition upload_single (upload : option (UploadedFile * Bytes)) : Async (option Error) :=
  match upload with
  | Some (file, content) =>
      try_catch (perform (WriteFileSync (path file) content);; Ret None)
        (λ error, Ret (Some error))
  | None => Ret None
  end.

(** [handleUploadError], for an error. *)
Definition handleUploadError (err : UploadError) : Response :=
  match err with
  | MulterError error_code error_message =>
      if bool_decide (error_code = "LIMIT_FILE_SIZE")
      then mkResponse 400 (Message false "File size exceeds the maximum limit of 10MB")
      else mkResponse 400 (Message false ("Upload error: " +:+ error_message))
  | OtherError error_message =>
      mkResponse 400 (Message false (or_default (Some error_message) "File upload failed"))
  end.

(** *** The routers *)

(** The router of [routes/translationRoutes.ts] puts [apiKeyAuth] in front
    of every route; the other router puts [authenticate] there. *)
Inductive Guard := ApiKey | Bearer.

(** A request as it reaches a router. *)
Record Incoming := mkIncoming {
  in_headers : Headers;
  in_upload : Uploaded;
  in_body : RawBody;
  in_jobId : string;
  in_limit : option string;
  in_offset : option string;
}.

(** What a route answers: the response of a middleware or of the
    controller, or the 400 of [handleValidationErrors], which lists the
    errors. *)
Inductive Reply :=
| Replied (r : Response)
| ValidationFailed (errors : list FieldError).

Section Routers.

Context `{Platform} `{Guards} `{Validators}.

(** The first middleware of every route, and [req.user] after it. *)
Definition guard (g : Guard) (headers : Headers) : Passed (option JwtPayload) :=
  match g with
  | ApiKey =>
      match apiKeyAuth headers with
      | Answered r => Answered r
      | Next _ => Next None
      end
  | Bearer =>
      match authenticate headers with
      | Answered r => Answered r
      | Next decoded => Next (Some decoded)
      end
  end.

(** The request a controller of a reading route sees. *)
Definition reading_request (user : option JwtPayload) (inc : Incoming) : Request :=
  mkRequest user None (default "" (raw_sourceLanguage (in_body inc)))
    (default "" (raw_targetLanguage (in_body inc)))
    (default "" (raw_documentType (in_body inc)))
    (in_jobId inc) (in_limit inc) (in_offset inc).

(** The request [processTranslation] sees, after the upload and the
    sanitizers. *)
Definition creating_request (user : option JwtPayload) (file : option UploadedFile)
    (inc : Incoming) : Request :=
  mkRequest user file (sanitized (raw_sourceLanguage (in_body inc)))
    (sanitized (raw_targetLanguage (in_body inc)))
    (sanitized (raw_documentType (in_body inc)))
    (in_jobId inc) (in_limit inc) (in_offset inc).

Definition controller (m : Async Response) : Async Reply :=
  r ← m; Ret (Replied r).

(** [POST /process-translation] *)
Definition post_process_translation (g : Guard) (v : Controller) (inc : Incoming)
    : Async Reply :=
  match guard g (in_headers inc) with
  | Answered r => Ret (Replied r)
  | Next user =>
      match in_upload inc with
      | UploadFailed err => Ret (Replied (handleUploadError err))
      | UploadOk upload =>
          failure ← upload_single upload;
          match failure with
          | Some error => Ret (Replied (handleUploadError (OtherError (message error))))
          | None =>
              match validateTranslationJob (in_body inc) with
              | [] =>
                  controller
                    (processTranslation v (creating_request user (fst <$> upload) inc))
              | errors => Ret (ValidationFailed errors)
              end
          end
      end
  end.

(** [GET /jobs/:jobId], [GET /jobs] and [GET /files/:jobId] *)
Definition guarded (g : Guard) (handler : Request → Async Response) (inc : Incoming)
    : Async Reply :=
  match guard g (in_headers inc) with
  | Answered r => Ret (Replied r)
  | Next user => controller (handler (reading_request user inc))
  end.

Definition get_job (g : Guard) (v : Controller) : Incoming → Async Reply :=
  guarded g (getJobStatus v).
Definition get_jobs (g : Guard) (v : Controller) : Incoming → Async Reply :=
  guarded g (getTranslationHistory v).
Definition get_file (g : Guard) (v : Controller) : Incoming → Async Reply :=
  guarded g (downloadFile v).

(** The routes of a router. *)
Definition routes (g : Guard) (v : Controller) : list (Incoming → Async Reply) :=
  [post_process_translation g v; get_job g v; get_jobs g v; get_file g v].

(** What a route answers in world [w]. *)
Definition reply (v : Controller) (os : list Outcome) (m : Async Reply) (w : World)
    : option Reply :=
  match (handle v os m w).1 with
  | Ret r => Some r
  | _ => None
  end.

End Routers.

(** The request carries the configured key, which is not empty. *)
Definition holds_key `{Guards} (headers : Headers) : Prop :=
  ∃ key, x_api_key headers = Some key ∧ key ≠ "" ∧ env_TRANSLATION_API_KEY = Some key.

(** The payload of the bearer token of a request, when there is one and
    it verifies. *)
Definition bearer `{Guards} (headers : Headers) : option JwtPayload :=
  match authorization headers with
  | Some authHeader =>
      if String.prefix "Bearer " authHeader then verifyToken (Js.drop 7 authHeader) else None
  | None => None
  end.

(** The upload of a request in storage. *)
Definition with_upload (upload : Uploaded) (fs : gmap string Bytes) : gmap string Bytes :=
  match upload with
  | UploadOk (Some (file, content)) => <[path file := content]> fs
  | _ => fs
  end.

(** A toy [jsonwebtoken] for the examples: a token names its user and
    the secret it was signed with, and only Alice's tokens verify. *)
Module Door.

Definition sign (payload : JwtPayload) (secret expiresIn : string) : string :=
  userId payload +:+ "." +:+ secret.

Definition verify (token secret : string) : Error + JwtPayload :=
  if decide (token = "alice." +:+ secret) then inr Demo.alice
  else inl (mkError "invalid signature").

(** A toy validator library: [trim] and lengths on ASCII text. *)
Definition validators : Validators := {|
  validator_trim := Js.trim;
  validator_isLength := λ min max s,
    (min <=? String.length s)%nat && (String.length s <=? max)%nat;
|}.

Definition guards (secret key : option string) : Guards := {|
  env_JWT_SECRET := secret;
  env_JWT_EXPIRES_IN := None;
  env_TRANSLATION_API_KEY := key;
  jwt_sign := sign;
  jwt_verify := verify;
|}.

(** A request with the given headers, for job [j1], with the upload and
    the body of the examples. *)
Definition incoming (headers : Headers) : Incoming :=
  mkIncoming headers (UploadOk (Some (Demo.upload, "hello")))
    (mkRawBody (Some " en") (Some "es ") (Some "txt")) "j1" None None.

End Door.

(** ** The order of a dispatch *)

(** The output of the job of row [r], as [processTranslationAsync] names
    it. *)
Definition output_name_of `{Platform} (r : Job) : string :=
  "translated_" +:+ id r +:+ extname (original_filename r).

Definition output_path_of `{Platform} (r : Job) : string :=
  join translatedDir (output_name_of r).

(** [orderly j original st m]: from a row of status [st], the body [m]
    sets the status to [processing] before it calls the executor, calls the
    executor only while the status is [processing], and records as output
    only the name and the path made of the job id [j] and of the extension of
    the upload's name [original]. *)
Fixpoint orderly `{Platform} (j original : string) (st : Status) (m : Async unit) : Prop :=
  match m with
  | Await op k =>
      match op in Op X return (Error + X → Async unit) → Prop with
      | Query q =>
          match q in Sql R return (Error + list R → Async unit) → Prop with
          | UpdateJobStatus s _ => λ k,
              s = processing ∧
              (∀ e, orderly j original st (k (inl e))) ∧
              (∀ rows, orderly j original s (k (inr rows)))
          | UpdateJobCompleted s filename p _ => λ k,
              s = completed ∧
              filename = "translated_" +:+ j +:+ extname original ∧
              p = join translatedDir filename ∧
              (∀ e, orderly j original st (k (inl e))) ∧
              (∀ rows, orderly j original s (k (inr rows)))
          | UpdateJobFailed s _ _ => λ k,
              s = failed ∧
              (∀ e, orderly j original st (k (inl e))) ∧
              (∀ rows, orderly j original s (k (inr rows)))
          | _ => λ k, ∀ r, orderly j original st (k r)
          end
      | Invoke _ => λ k, st = processing ∧ ∀ r, orderly j original st (k r)
      | _ => λ k, ∀ r, orderly j original st (k r)
      end k
  | _ => True
  end.

(** The discipline of a running server: every dropped promise is orderly
    for the row at its place; a job the executor was called for is not
    pending; a completed job has the output reference made of its id and of
    the name of its upload. *)
Definition disciplined `{Platform} (w : World) : Prop :=
  (∀ i t r, tasks w !! i = Some t → translation_jobs w !! i = Some r →
     orderly (id r) (original_filename r) (status r) (task_body t)) ∧
  (∀ r, r ∈ translation_jobs w →
     (id r ∈ executions w → status r ≠ pending) ∧
     (status r = completed →
      translated_filename r = Some (output_name_of r) ∧
      translated_file_path r = Some (output_path_of r))).

(** ** Stored uploads

    The disk storage and the file filter of [middleware/upload.ts].
    Characters are the one-byte ones. *)

Module Text.

(** [toLowerCase] on one character: the letters A to Z and the capital
    letters of Latin-1. *)
Definition lower (c : ascii) : ascii :=
  let n := nat_of_ascii c in
  if ((65 <=? n)%nat && (n <=? 90)%nat)
     || ((192 <=? n)%nat && (n <=? 222)%nat && negb (n =? 215)%nat)
  then ascii_of_nat (n + 32)
  else c.

(** [s.toLowerCase()] *)
Fixpoint toLowerCase (s : string) : string :=
  match s with
  | EmptyString => EmptyString
  | String c rest => String (lower c) (toLowerCase rest)
  end.

(** [s.split(sep)] for a separator of one character. *)
Fixpoint split (sep : ascii) (s : string) : list string :=
  match s with
  | EmptyString => [EmptyString]
  | String c rest =>
      if Ascii.eqb c sep then EmptyString :: split sep rest
      else match split sep rest with
           | first :: others => String c first :: others
           | [] => [String c EmptyString]
           end
  end.

Definition letter (c : ascii) : bool :=
  let n := nat_of_ascii c in
  ((65 <=? n)%nat && (n <=? 90)%nat) || ((97 <=? n)%nat && (n <=? 122)%nat).

Definition digit (c : ascii) : bool :=
  let n := nat_of_ascii c in (48 <=? n)%nat && (n <=? 57)%nat.

(** The class [[a-zA-Z0-9-_]]. *)
Definition word_char (c : ascii) : bool :=
  letter c || digit c || Ascii.eqb c "-"%char || Ascii.eqb c "_"%char.

(** [s.replace(/[^a-zA-Z0-9-_]/g, '_')] *)
Fixpoint replace_unsafe (s : string) : string :=
  match s with
  | EmptyString => EmptyString
  | String c rest => String (if word_char c then c else "_"%char) (replace_unsafe rest)
  end.

Fixpoint all (p : ascii → bool) (s : string) : bool :=
  match s with
  | EmptyString => true
  | String c rest => p c && all p rest
  end.

End Text.

Section Upload.

(** [path.basename(p, ext)] and [process.env.ALLOWED_FILE_TYPES]. *)
Context `{Platform} (basename_without : string → string → string)
  (ALLOWED_FILE_TYPES : option string).

(** [storage.filename], with the identifier [uuidv4()] returns. *)
Definition stored_filename (uniqueId originalname : string) : string :=
  let ext := extname originalname in
  let nameWithoutExt := basename_without originalname ext in
  let sanitizedName := Text.replace_unsafe nameWithoutExt in
  uniqueId +:+ "_" +:+ sanitizedName +:+ ext.

Definition allowedTypes : list string :=
  Text.split ","%char (or_default ALLOWED_FILE_TYPES "pdf,docx,xlsx,txt").

(** [fileFilter]: [cb(null, true)] or [cb(new Error(...))]. *)
Definition fileFilter (originalname : string) : Error + bool :=
  let ext := Js.drop 1 (Text.toLowerCase (extname originalname)) in
  if bool_decide (ext ∈ allowedTypes) then inr true
  else inl (mkError ("Invalid file type. Allowed types: "
                     +:+ String.concat ", " allowedTypes)).

End Upload.

(** ** Requests to the outside *)

(** [fetches P m]: every request the body [m] sends, whatever its
    operations return, satisfies [P]. *)
Fixpoint fetches {A} (P : string → option ApiRequest → Prop) (m : Async A) : Prop :=
  match m with
  | Await op k =>
      match op with
      | Fetch url form => P url form
      | _ => True
      end ∧ ∀ r, fetches P (k r)
  | _ => True
  end.

(** A request of the remote-API executor: the API is configured, and a
    request that carries a form, and with it the API key, goes to the
    configured URL with the configured key. *)
Definition to_the_api `{Platform} (v : Controller) (url : string)
    (form : option ApiRequest) : Prop :=
  v = RemoteApi ∧
  ∃ apiUrl apiKey,
    EXTERNAL_TRANSLATION_API_URL = Some apiUrl ∧ apiUrl ≠ "" ∧
    EXTERNAL_TRANSLATION_API_KEY = Some apiKey ∧ apiKey ≠ "" ∧
    ∀ f, form = Some f → url = apiUrl ∧ form_api_key f = apiKey.

(** * Proofs *)

Ltac async_unfold :=
  cbv [processTranslationAsync dispatch_guarded dispatch_body record_failure translateDocument
       translateDocument_mock translateDocument_remote translateDocument_subprocess
       fallback_copy query perform mbind mret Async_bind Async_ret] in *.

Ltac route_unfold :=
  cbv [processTranslation getJobStatus getTranslationHistory downloadFile
       download_job with_system_user system_user_fields
       query perform mbind mret Async_bind Async_ret] in *.

(** Running a route on given outcomes. *)
Ltac outcomes os :=
  destruct os as [|[] [|[] [|[] os]]]; try discriminate.

Ltac route_run :=
  cbn [run async_bind try_catch effect Db.exec hd tl fst snd negb andb orb
       req_user params_jobId] in *.

(** Exploring a body along every result of every operation. *)
Ltac explore :=
  repeat (cbn [safe settled async_bind try_catch unguarded_callback
               p_status p_called p_written] in *;
          first [ progress intros
                | match goal with
                  | |- _ ∧ _ => split
                  | |- True => exact I
                  | |- _ = _ => reflexivity
                  | |- _ ≠ _ => discriminate
                  | |- _ ∨ _ =>
                      first [ left; reflexivity
                            | right; left; reflexivity
                            | right; reflexivity
                            | right; right ]
                  | |- _ ∈ _ => set_solver
                  | r : (_ + _)%type |- _ => destruct r
                  | |- context [if ?b then _ else _] => destruct b eqn:?
                  | |- context [match ?x with _ => _ end] => destruct x eqn:?
                  end
                | discriminate ]).

(** ** The dispatch body follows the protocol *)

Lemma dispatch_safe `{Platform} v a :
  safe (strict_of v) (settled v) (d_jobId a) (mkProtocol pending false [])
    (processTranslationAsync v a).
Proof. destruct v; async_unfold; explore. Qed.

Lemma dispatch_waits `{Platform} v a :
  settled_badly (processTranslationAsync v a) = false.
Proof. destruct v; reflexivity. Qed.

Lemma processTranslation_creates `{Platform} v req :
  creates NotYet (processTranslation v req).
Proof.
  destruct v, req as [[u|] [f|] ? ? ? ? ? ?]; route_unfold;
    repeat (cbn [creates async_bind try_catch req_user req_file head] in *;
            first [ progress intros
                  | match goal with
                    | |- _ ∧ _ => split
                    | |- True => exact I
                    | |- _ = _ => reflexivity
                    | r : (_ + _)%type |- _ => destruct r
                    | l : list _ |- _ => destruct l
                    end ]).
Qed.

(** ** Rows, files and tables *)

Lemma row_ok_grows strict fs fs' r :
  grows strict fs fs' → row_ok strict fs r → row_ok strict fs' r.
Proof.
  intros Hg (H1&H2&H3&H4&Hf). unfold row_ok. split_and!; try assumption.
  intros Hs p Hp. apply Hg; auto.
Qed.

Lemma stored_grows strict fs fs' wr :
  grows strict fs fs' → stored strict fs wr → stored strict fs' wr.
Proof. intros Hg Hs Hstrict p Hp. apply Hg; auto. Qed.

Lemma grows_refl strict fs : grows strict fs fs.
Proof. intros _ p Hp. exact Hp. Qed.

Lemma grows_insert strict (fs : gmap string Bytes) p c : grows strict fs (<[p:=c]> fs).
Proof.
  intros _ q Hq. destruct (decide (p = q)) as [->|Hne].
  - rewrite lookup_insert_eq. eauto.
  - rewrite lookup_insert_ne; auto.
Qed.

Lemma grows_inserts strict (fs : gmap string Bytes) (l : list (string * Bytes)) :
  grows strict fs (foldr (λ pc, insert pc.1 pc.2) fs l).
Proof.
  induction l as [|[p c] l IH]; simpl; [apply grows_refl|].
  intros Hs q Hq. apply (grows_insert strict _ p c Hs), IH; assumption.
Qed.

Lemma grows_unstrict fs fs' : grows false fs fs'.
Proof. intros Hs. discriminate. Qed.

Lemma stored_cons strict (fs : gmap string Bytes) p c wr :
  stored strict fs wr → stored strict (<[p:=c]> fs) (p :: wr).
Proof.
  intros Hst Hs q Hq. apply elem_of_cons in Hq as [->|Hq].
  - rewrite lookup_insert_eq. eauto.
  - apply (grows_insert strict _ p c Hs), Hst; assumption.
Qed.

Lemma update_where_id_ids j f rows :
  (∀ r, id (f r) = id r) →
  id <$> Db.update_where_id j f rows = id <$> rows.
Proof.
  intros Hf. unfold Db.update_where_id. rewrite <- list_fmap_compose.
  apply list_fmap_ext. intros i r _. simpl. case_decide; auto.
Qed.

Lemma update_where_id_same j rows :
  Db.update_where_id j (λ r, r) rows = rows.
Proof.
  unfold Db.update_where_id. rewrite <- (list_fmap_id rows) at 2.
  apply list_fmap_ext. intros i r _. by case_decide.
Qed.

Lemma elem_of_update_where_id j f rows r' :
  r' ∈ Db.update_where_id j f rows ↔
  ∃ r, r ∈ rows ∧ r' = if decide (id r = j) then f r else r.
Proof.
  unfold Db.update_where_id. rewrite list_elem_of_fmap.
  split; [intros (r & -> & Hr) | intros (r & Hr & ->)]; eauto.
Qed.

Lemma NoDup_fmap_eq {A B} (f : A → B) (l : list A) x y :
  NoDup (f <$> l) → x ∈ l → y ∈ l → f x = f y → x = y.
Proof.
  intros Hnd Hx Hy Hxy.
  apply list_elem_of_lookup in Hx as [i Hi]. apply list_elem_of_lookup in Hy as [k Hk].
  assert (i = k) as ->.
  { eapply NoDup_lookup; [exact Hnd | |].
    - rewrite list_lookup_fmap, Hi. reflexivity.
    - rewrite list_lookup_fmap, Hk. simpl. f_equal. symmetry. exact Hxy. }
  rewrite Hi in Hk. injection Hk. auto.
Qed.

Lemma row_ok_processing strict fs r :
  status r = pending → row_ok strict fs r →
  row_ok strict fs (Db.with_status processing r).
Proof.
  intros Hs (H1&H2&H3&H4&H5). unfold row_ok; simpl. rewrite Hs in *.
  split_and!; [split; [discriminate|intros Hx]..|exact H5].
  - apply H1 in Hx. discriminate.
  - apply H2 in Hx. discriminate.
  - apply H3 in Hx. discriminate.
  - apply H4 in Hx. discriminate.
Qed.

Lemma row_ok_completed strict (fs : gmap string Bytes) filename p t r :
  status r = processing → row_ok strict fs r →
  (strict = true → is_Some (fs !! p)) →
  row_ok strict fs (Db.with_completed completed filename p t r).
Proof.
  intros Hs (H1&H2&H3&H4&H5) Hp. unfold row_ok; simpl. rewrite Hs in *.
  split_and!.
  - split; eauto.
  - split; eauto.
  - split; eauto.
  - split; [discriminate|]. intros Hx. apply H4 in Hx. discriminate.
  - intros Hstrict q Hq. injection Hq as <-. auto.
Qed.

Lemma row_ok_failed strict fs msg r :
  status r = pending ∨ status r = processing → row_ok strict fs r →
  row_ok strict fs (Db.with_failed failed msg r).
Proof.
  intros Hs (H1&H2&H3&H4&H5). unfold row_ok; simpl.
  assert (Hn : status r ≠ completed) by (destruct Hs as [Hs|Hs]; rewrite Hs; discriminate).
  split_and!.
  - split; [discriminate|]. intros Hx. apply H1 in Hx. contradiction.
  - split; [discriminate|]. intros Hx. apply H2 in Hx. contradiction.
  - split; [discriminate|]. intros Hx. apply H3 in Hx. contradiction.
  - split; eauto.
  - exact H5.
Qed.

Lemma row_ok_new strict fs t r : new_row t r → row_ok strict fs r.
Proof.
  intros (Hs & H1 & H2 & H3 & H4 & _). unfold row_ok.
  rewrite Hs, H1, H2, H3, H4.
  split_and!; try (split; [discriminate | intros [? [=]]]).
  intros _ p [=].
Qed.

Lemma rows_step_refl strict w w' :
  translation_jobs w' = translation_jobs w → rows_step strict w w'.
Proof.
  intros Hj. exists (translation_jobs w), []. rewrite app_nil_r.
  split_and!; auto. apply Forall_Forall2_diag, Forall_forall. intros; constructor.
Qed.

(** ** One step of a dropped promise *)

Lemma Inv_ext strict Q w w' :
  translation_jobs w' = translation_jobs w →
  tasks w' = tasks w →
  files w' = files w →
  executions w' = executions w →
  (exited w = true → exited w' = true) →
  Inv strict Q w → Inv strict Q w'.
Proof.
  intros Hj Ht Hf He Hx [H1 H2 H3 H4 H5 H6 H7].
  split; rewrite ?Hj, ?Ht, ?Hf, ?He; auto.
  - intros t Hin. destruct (H3 t Hin) as (r & wr & ?&?&?&?).
    exists r, wr. rewrite Hj, Hf, He. auto.
  - intros t Hin Hb. apply Hx, (H7 t); auto.
Qed.

(** The invariant after one step of the promise of job [j]: its row went
    through [f], the files grew, the executor was perhaps called for [j]. *)
Lemma inv_resume strict Q w w' i j body body' f :
  Inv strict Q w →
  tasks w !! i = Some (mkTask j body) →
  (∀ r, id (f r) = id r) →
  translation_jobs w' = Db.update_where_id j f (translation_jobs w) →
  tasks w' = <[i := mkTask j body']> (tasks w) →
  grows strict (files w) (files w') →
  (executions w' = executions w ∨
   (executions w' = j :: executions w ∧ j ∉ executions w)) →
  (exited w = true → exited w' = true) →
  (settled_badly body' = true → exited w' = true) →
  (∀ r, r ∈ translation_jobs w → id r = j →
        row_ok strict (files w) r → row_ok strict (files w') (f r)) →
  (∀ r wr, r ∈ translation_jobs w → id r = j →
     stored strict (files w) wr →
     safe strict Q j (mkProtocol (status r) (bool_decide (j ∈ executions w)) wr) body →
     ∃ wr', stored strict (files w') wr' ∧
       safe strict Q j
         (mkProtocol (status (f r)) (bool_decide (j ∈ executions w')) wr') body') →
  Inv strict Q w'.
Proof.
  intros [Hids Htasks Htok Hex Hext Hrows Hexit] Hi Hf Hjobs Htasks' Hgrow Hexec
    Hx Hbad Hrow Hsafe.
  assert (Hjobs_of : task_job <$> tasks w' = task_job <$> tasks w).
  { rewrite Htasks', list_fmap_insert. simpl.
    apply list_insert_id. rewrite list_lookup_fmap, Hi. reflexivity. }
  assert (Hin : mkTask j body ∈ tasks w) by (eapply list_elem_of_lookup_2; eauto).
  split.
  - rewrite Hjobs, update_where_id_ids; auto.
  - rewrite Hjobs_of. exact Htasks.
  - intros t Ht. rewrite Htasks' in Ht.
    apply list_elem_of_lookup in Ht as [n Hn].
    destruct (decide (n = i)) as [->|Hne].
    + rewrite list_lookup_insert_eq in Hn by (eapply lookup_lt_Some; eauto).
      injection Hn as <-.
      destruct (Htok _ Hin) as (r & wr & Hr & Hid & Hst & Hs).
      cbn [task_job task_body] in *.
      destruct (Hsafe r wr Hr Hid Hst Hs) as (wr' & Hst' & Hs').
      exists (f r), wr'. cbn [task_job task_body]. split_and!; auto.
      * rewrite Hjobs. apply elem_of_update_where_id. exists r. split; auto.
        rewrite decide_True; auto.
      * rewrite Hf; auto.
    + rewrite list_lookup_insert_ne in Hn by auto.
      assert (Hint : t ∈ tasks w) by (eapply list_elem_of_lookup_2; eauto).
      destruct (Htok _ Hint) as (r & wr & Hr & Hid & Hst & Hs).
      assert (Hj : task_job t ≠ j).
      { intros Heq. apply Hne.
        eapply NoDup_lookup; [exact Htasks | |].
        - rewrite list_lookup_fmap, Hn. reflexivity.
        - rewrite list_lookup_fmap, Hi. simpl. f_equal. symmetry. exact Heq. }
      exists r, wr. split_and!; auto.
      * rewrite Hjobs. apply elem_of_update_where_id. exists r. split; auto.
        rewrite decide_False; auto. rewrite Hid. exact Hj.
      * eapply stored_grows; eauto.
      * destruct Hexec as [-> | [-> Hnot]]; auto.
        replace (bool_decide (task_job t ∈ j :: executions w))
          with (bool_decide (task_job t ∈ executions w)); auto.
        apply bool_decide_ext. rewrite elem_of_cons. tauto.
  - destruct Hexec as [-> | [-> Hnot]]; auto. constructor; auto.
  - intros j' Hj'. rewrite Hjobs_of.
    destruct Hexec as [Heq | [Heq Hnot]]; rewrite Heq in Hj'; auto.
    apply elem_of_cons in Hj' as [-> | Hj']; auto.
    apply list_elem_of_fmap. exists (mkTask j body). auto.
  - intros r' Hr'. rewrite Hjobs in Hr'.
    apply elem_of_update_where_id in Hr' as (r & Hr & ->).
    destruct (decide (id r = j)).
    + apply Hrow; auto.
    + eapply row_ok_grows; eauto.
  - intros t Ht Hb. rewrite Htasks' in Ht.
    apply list_elem_of_lookup in Ht as [n Hn].
    destruct (decide (n = i)) as [->|Hne].
    + rewrite list_lookup_insert_eq in Hn by (eapply lookup_lt_Some; eauto).
      injection Hn as <-. auto.
    + rewrite list_lookup_insert_ne in Hn by auto.
      apply Hx, (Hexit t); auto. eapply list_elem_of_lookup_2; eauto.
Qed.

Section Steps.

Context (start : DispatchArgs → Async unit) (strict : bool)
  (Q : Protocol → Async unit → Prop).

(** What an operation that the protocol allows does to the world. *)
Lemma effect_safe j s wr {X} (op : Op X) k o w :
  safe strict Q j (mkProtocol s (bool_decide (j ∈ executions w)) wr) (Await op k) →
  stored strict (files w) wr →
  let rw := effect start op o w in
  let f := write_of op o (now w) in
  translation_jobs rw.2 = Db.update_where_id j f (translation_jobs w) ∧
  tasks rw.2 = tasks w ∧
  (∀ r, id (f r) = id r) ∧
  grows strict (files w) (files rw.2) ∧
  (executions rw.2 = executions w ∨
   (executions rw.2 = j :: executions w ∧ j ∉ executions w)) ∧
  (∀ r, status r = s → row_ok strict (files w) r →
        row_ok strict (files rw.2) (f r) ∧
        row_step strict (now w) (files rw.2) r (f r)) ∧
  (∀ r, status r = s →
        ∃ wr', stored strict (files rw.2) wr' ∧
          safe strict Q j
            (mkProtocol (status (f r)) (bool_decide (j ∈ executions rw.2)) wr')
            (k rw.1)) ∧
  now rw.2 = now w ∧ exited rw.2 = exited w ∧ users rw.2 = users w.
Proof.
  intros Hsafe Hst.
  destruct op as [R q| | | | | | | | | | |]; [destruct q|..]; simpl in Hsafe.
  all: try contradiction.
  all: destruct o; simpl.
  all: try (destruct (files w !! _) eqn:?; simpl).
  all: rewrite ?update_where_id_same.
  all: repeat match goal with H : _ ∧ _ |- _ => destruct H end; subst.
  all: refine (conj _ (conj _ (conj _ (conj _ (conj _ (conj _ (conj _ (conj _ (conj _ _))))))))).
  all: try reflexivity.
  all: try (intros; reflexivity).
  all: try apply grows_refl.
  all: try apply grows_insert.
  all: try apply grows_inserts.
  all: try apply grows_unstrict.
  all: try (left; reflexivity).
  all: try (right; split; [reflexivity |];
            match goal with
            | H : bool_decide _ = false |- _ => apply bool_decide_eq_false in H; exact H
            end).
  all: try (intros row Hr Hok; try subst s; split;
             [ first [ assumption
                     | apply row_ok_processing; assumption
                     | apply row_ok_completed; solve [auto]
                     | apply row_ok_failed; assumption
                     | eapply row_ok_grows; [|eassumption];
                       first [apply grows_insert | apply grows_inserts | apply grows_unstrict] ]
             | constructor; solve [auto] ]).
  all: try (intros row Hr; simpl; try subst s; try rewrite Hr;
            rewrite ?(bool_decide_eq_true_2 (j ∈ j :: executions w)) by set_solver;
            eexists; split; cycle 1;
            [ solve [eauto]
            | first [ assumption
                    | apply stored_cons; assumption
                    | eapply stored_grows; [|eassumption];
                      first [apply grows_insert | apply grows_inserts | apply grows_unstrict] ] ]).
Qed.

Lemma resume_await w i o j {X} (op : Op X) k :
  exited w = false →
  tasks w !! i = Some (mkTask j (Await op k)) →
  resume start i o w =
    let rw := effect start op o w in
    let w2 := set_tasks (<[i := mkTask j (k rw.1)]>) rw.2 in
    if settled_badly (k rw.1) then set_exited true w2 else w2.
Proof.
  intros He Hi. unfold resume. rewrite He, Hi.
  destruct (effect start op o w); reflexivity.
Qed.

Lemma resume_other w i o :
  exited w = true ∨ tasks w !! i = None ∨
  (∃ j body, tasks w !! i = Some (mkTask j body) ∧
     match body with Await _ _ => False | _ => True end) →
  resume start i o w = w.
Proof.
  unfold resume. intros [->|[->|(j & body & -> & Hb)]]; auto.
  - by destruct (exited w).
  - destruct (exited w); auto. destruct body; auto. contradiction.
Qed.

Lemma resume_spec w i o :
  Inv strict Q w →
  Inv strict Q (resume start i o w) ∧ rows_step strict w (resume start i o w) ∧
  now (resume start i o w) = now w.
Proof.
  intros HI.
  destruct (exited w) eqn:He;
    [rewrite resume_other by auto; split_and!; auto using rows_step_refl|].
  destruct (tasks w !! i) as [[j body]|] eqn:Hi;
    [|rewrite resume_other by auto; split_and!; auto using rows_step_refl].
  destruct body as [| | |X op k];
    try (rewrite resume_other by (right; right; eexists _, _; split; [eauto|exact I]);
         split_and!; auto using rows_step_refl).
  rewrite (resume_await w i o j op k He Hi).
  assert (Hin : mkTask j (Await op k) ∈ tasks w) by (eapply list_elem_of_lookup_2; eauto).
  destruct (inv_task_ok _ _ _ HI _ Hin) as (r0 & wr & Hr0 & Hid0 & Hst & Hs).
  cbn [task_job task_body] in *.
  pose proof (effect_safe j (status r0) wr op k o w Hs Hst) as Heff.
  destruct (effect start op o w) as [rep w1]. simpl in Heff. cbn [fst snd].
  destruct Heff as (Hjobs & Htasks & Hf & Hgrow & Hexec & Hrow & Hsafe & Hnow & Hexit & Husers).
  assert (Huniq : ∀ r, r ∈ translation_jobs w → id r = j → r = r0).
  { intros r Hr Hid. eapply (NoDup_fmap_eq id); eauto using inv_ids.
    rewrite Hid. symmetry. exact Hid0. }
  set (w2 := set_tasks (<[i:=mkTask j (k rep)]>) w1).
  set (w3 := if settled_badly (k rep) then set_exited true w2 else w2).
  assert (E : translation_jobs w3 = translation_jobs w1 ∧
              tasks w3 = <[i:=mkTask j (k rep)]> (tasks w1) ∧
              files w3 = files w1 ∧ executions w3 = executions w1 ∧ now w3 = now w1 ∧
              (exited w1 = true → exited w3 = true) ∧
              (settled_badly (k rep) = true → exited w3 = true)).
  { unfold w3, w2. destruct (settled_badly (k rep)); simpl; split_and!; done. }
  destruct E as (E1 & E2 & E3 & E4 & E5 & E6 & E7).
  split; [|split].
  - apply (inv_resume strict Q w w3 i j (Await op k) (k rep) (write_of op o (now w)));
      [ exact HI | exact Hi | exact Hf | by rewrite E1 | by rewrite E2, Htasks
      | by rewrite E3 | by rewrite E4 | rewrite <- Hexit; exact E6 | exact E7 | |].
    + intros r Hr Hid Hok. rewrite (Huniq r Hr Hid) in *. rewrite E3. apply Hrow; auto.
    + intros r wr' Hr Hid _ _. rewrite (Huniq r Hr Hid), E3, E4. apply Hsafe; auto.
  - exists (translation_jobs w3), []. rewrite app_nil_r. split_and!; auto.
    rewrite E1, E3, Hjobs. unfold Db.update_where_id.
    apply Forall2_fmap_r, Forall_Forall2_diag, Forall_forall.
    intros r Hr. simpl.
    match goal with |- context [decide ?P] => destruct (decide P) as [Hid|] end;
      [|constructor].
    rewrite (Huniq r Hr Hid). apply Hrow; auto.
    apply (inv_rows _ _ _ HI); auto.
  - rewrite E5. exact Hnow.
Qed.

End Steps.

(** ** The creating route *)

Lemma appended_refl start w : appended start w w.
Proof.
  split_and!; auto.
  - exists []. by rewrite app_nil_r.
  - exists []. by rewrite app_nil_r.
Qed.

Lemma appended_trans start w1 w2 w3 :
  appended start w1 w2 → appended start w2 w3 → appended start w1 w3.
Proof.
  intros ((n1 & E1 & F1) & (c1 & T1) & N1 & L1 & X1 & Z1)
         ((n2 & E2 & F2) & (c2 & T2) & N2 & L2 & X2 & Z2).
  split_and!; try congruence.
  - exists (n1 ++ n2). rewrite E2, E1, app_assoc. split; auto.
    apply Forall_app. split; auto. by rewrite <- N1.
  - exists (c1 ++ c2). by rewrite T2, T1, fmap_app, app_assoc.
Qed.

Lemma appended_rows_step start strict w w' : appended start w w' → rows_step strict w w'.
Proof.
  intros ((news & E & F) & _). exists (translation_jobs w), news. split_and!; auto.
  apply Forall_Forall2_diag, Forall_forall. intros; constructor.
Qed.

Lemma inv_insert strict Q w r :
  Inv strict Q w → id r ∉ id <$> translation_jobs w → new_row (now w) r →
  Inv strict Q (set_jobs (λ rows, rows ++ [r]) w).
Proof.
  intros [H1 H2 H3 H4 H5 H6 H7] Hfresh Hnew. split; simpl; auto.
  - rewrite fmap_app. simpl. apply NoDup_app. split_and!; auto.
    + intros x Hx Hx'. apply list_elem_of_singleton in Hx'. subst. contradiction.
    + apply NoDup_singleton.
  - intros t Ht. destruct (H3 t Ht) as (r' & wr & ?&?&?&?).
    exists r', wr. simpl. split_and!; auto. apply elem_of_app. auto.
  - intros r' Hr'. apply elem_of_app in Hr' as [Hr'|Hr']; auto.
    apply list_elem_of_singleton in Hr'. subst. eapply row_ok_new; eauto.
Qed.

Lemma inv_detach strict Q w j body :
  Inv strict Q w →
  awaiting_dispatch (Inserted j) w →
  safe strict Q j (mkProtocol pending false []) body →
  settled_badly body = false →
  Inv strict Q (set_tasks (λ ts, ts ++ [mkTask j body]) w).
Proof.
  intros [H1 H2 H3 H4 H5 H6 H7] [(r & Hr & Hid & Hs) Hno] Hsafe Hwait.
  split; simpl; auto.
  - rewrite fmap_app. simpl. apply NoDup_app. split_and!; auto.
    + intros x Hx Hx'. apply list_elem_of_singleton in Hx'. subst. contradiction.
    + apply NoDup_singleton.
  - intros t Ht. apply elem_of_app in Ht as [Ht|Ht].
    + destruct (H3 t Ht) as (r' & wr & ?&?&?&?). exists r', wr. auto.
    + apply list_elem_of_singleton in Ht. subst t. exists r, []. simpl.
      split_and!; auto.
      * intros _ p Hp. by apply elem_of_nil in Hp.
      * rewrite Hs, bool_decide_eq_false_2; auto.
  - intros j' Hj'. rewrite fmap_app. apply elem_of_app. auto.
  - intros t Ht Hb. apply elem_of_app in Ht as [Ht|Ht]; [eauto|].
    apply list_elem_of_singleton in Ht. subst t. simpl in Hb. congruence.
Qed.

Section Creates.

Context (start : DispatchArgs → Async unit) (strict : bool)
  (Q : Protocol → Async unit → Prop).
Context (start_safe :
  ∀ a, safe strict Q (d_jobId a) (mkProtocol pending false []) (start a)).
Context (start_waits : ∀ a, settled_badly (start a) = false).

Local Ltac unchanged c :=
  exists c; split_and!; solve [auto using appended_refl].

Local Ltac same_tables :=
  split_and!; auto; exists []; simpl; by rewrite app_nil_r.

Local Ltac detached a :=
  exists Spawned; split_and!;
    [ auto | apply inv_detach; auto | exact I
    | split_and!; auto; [exists []; simpl; by rewrite app_nil_r | by exists [a]] ].

Lemma effect_creates {A X} c (op : Op X) (k : Error + X → Async A) o w :
  creates c (Await op k) → Inv strict Q w → awaiting_dispatch c w →
  let rw := effect start op o w in
  ∃ c', creates c' (k rw.1) ∧ Inv strict Q rw.2 ∧ awaiting_dispatch c' rw.2 ∧
        appended start w rw.2.
Proof.
  intros Hc HI Hw.
  destruct op as [R q| | | | | | | | | | |]; [destruct q|..]; simpl in Hc.
  all: try contradiction.
  all: destruct o; simpl.
  all: try (destruct (files w !! _) eqn:?; simpl).
  all: try (unchanged c).
  all: repeat match goal with H : _ ∧ _ |- _ => destruct H end; subst.
  all: try (unchanged NotYet).
  all: try (exists c; split_and!;
             [ solve [auto] | eapply Inv_ext; [..|exact HI]; solve [auto]
             | destruct c; solve [auto] | same_tables ]; fail).
  - (* INSERT INTO users *)
    case_match; simpl; [unchanged c|].
    exists c. split_and!;
      [ auto | eapply Inv_ext; [..|exact HI]; auto | destruct c; auto | same_tables ].
  - (* INSERT INTO translation_jobs *)
    case_bool_decide as Hfresh; simpl; [unchanged NotYet|].
    match goal with |- context [set_jobs (λ rows, rows ++ [?r])] => set (row := r) end.
    assert (Hnew : new_row (now w) row) by (unfold new_row; simpl; auto 10).
    exists (Inserted new_id). split_and!; [ auto | apply inv_insert; auto | | ].
    + simpl. split.
      * exists row. split_and!; auto. apply elem_of_app. right.
        by apply list_elem_of_singleton.
      * intros Hin. apply list_elem_of_fmap in Hin as (t & -> & Ht).
        destruct (inv_task_ok _ _ _ HI t Ht) as (r' & ? & Hr' & Hid & ?).
        apply Hfresh. apply list_elem_of_fmap. eauto.
    + split_and!; auto; [exists [row]; split; auto | exists []; simpl; by rewrite app_nil_r].
  - detached args.
  - detached args.
  - detached args.
  - detached args.
  - detached args.
Qed.

Lemma run_creates {A} (m : Async A) : ∀ c os w,
  creates c m → Inv strict Q w → awaiting_dispatch c w →
  Inv strict Q (run start os m w).2 ∧ appended start w (run start os m w).2.
Proof.
  induction m as [| | |X op k IH]; intros c os w Hc HI Hw; simpl;
    try (split; auto using appended_refl; fail).
  destruct (effect_creates c op k (hd OOk os) w Hc HI Hw) as (c' & Hc' & HI' & Hw' & Happ).
  destruct (effect start op (hd OOk os) w) as [r w1]. simpl in *.
  destruct (IH r c' (tl os) w1 Hc' HI' Hw') as (HI2 & Happ2).
  split; auto. eapply appended_trans; eauto.
Qed.

End Creates.

(** ** The running server *)

Section Reachable.

Context `{Platform}.

Lemma step_spec v ev w :
  Inv (strict_of v) (settled v) w →
  Inv (strict_of v) (settled v) (step v ev w) ∧ rows_step (strict_of v) w (step v ev w).
Proof.
  intros HI. destruct ev as [|req os|i o]; simpl.
  - split; [eapply Inv_ext; [..|exact HI]; auto|].
    apply rows_step_refl. reflexivity.
  - destruct (exited w); [split; auto using rows_step_refl|].
    unfold handle.
    destruct (run_creates (processTranslationAsync v) (strict_of v) (settled v)
                (dispatch_safe v) (dispatch_waits v)
                (processTranslation v req) NotYet os w) as (HI' & Happ);
      auto using processTranslation_creates.
    + exact I.
    + split; eauto using appended_rows_step.
  - destruct (resume_spec (processTranslationAsync v) (strict_of v) (settled v) w i o HI)
      as (? & ? & ?); auto.
Qed.

Lemma boot_inv strict Q us fs t : Inv strict Q (boot us fs t).
Proof.
  split; simpl; try apply NoDup_nil_2.
  all: intros ? Hin; by apply elem_of_nil in Hin.
Qed.

Lemma exec_snoc v evs ev w : exec v (evs ++ [ev]) w = step v ev (exec v evs w).
Proof. unfold exec. by rewrite foldl_app. Qed.

Lemma exec_inv v evs w :
  Inv (strict_of v) (settled v) w → Inv (strict_of v) (settled v) (exec v evs w).
Proof.
  revert w. induction evs as [|ev evs IH]; intros w HI; simpl; auto.
  apply IH. apply step_spec, HI.
Qed.

(** Every state a server reaches satisfies the invariant. *)
Lemma reachable_inv v us fs t evs :
  Inv (strict_of v) (settled v) (exec v evs (boot us fs t)).
Proof. apply exec_inv, boot_inv. Qed.

(** Every row of a reachable state is still there after a step, at the
    same place, changed as [row_step] allows. *)
Lemma reachable_row_step v us fs t evs ev n r :
  let w := exec v evs (boot us fs t) in
  translation_jobs w !! n = Some r →
  ∃ r', translation_jobs (step v ev w) !! n = Some r' ∧
        row_step (strict_of v) (now w) (files (step v ev w)) r r'.
Proof.
  intros w Hn.
  destruct (step_spec v ev w (reachable_inv v us fs t evs)) as [_ (olds & news & E & F & _)].
  destruct (Forall2_lookup_l _ _ _ _ _ F Hn) as (r' & Hr' & Hstep).
  exists r'. split; auto. rewrite E. by apply lookup_app_l_Some.
Qed.

End Reachable.

Lemma row_step_id strict t fs r r' : row_step strict t fs r r' → id r' = id r.
Proof. by destruct 1. Qed.

(** * The claims *)

(** ** C1: the status moves forward *)

Lemma row_step_forward strict t fs r r' :
  row_step strict t fs r r' → forward (status r) (status r').
Proof.
  destruct 1 as [|Hs|? ? Hs _|? [Hs|Hs]]; simpl; try rewrite Hs.
  - apply forward_specified, spec_stay.
  - apply forward_specified, spec_start.
  - apply forward_specified, spec_complete.
  - apply forward_fail_early.
  - apply forward_specified, spec_fail.
Qed.

Lemma forward_terminal s s' :
  forward s s' → s = completed ∨ s = failed → s' = s.
Proof. intros [? ? []|] [Hs|Hs]; congruence. Qed.

(** C1 as stated fails: when the update to [processing] faults, the catch
    block of the dispatch moves the job from [pending] straight to
    [failed]. *)
Lemma status_skips_processing :
  let w := @exec Scenario.local JwtMock Scenario.processing_update_lost Demo.world0 in
  let w' := @step Scenario.local JwtMock (Resume 0 OOk) w in
  status_of "j1" w = Some pending ∧
  status_of "j1" w' = Some failed ∧
  ¬ specified pending failed.
Proof. split_and!; [reflexivity | reflexivity | inversion 1]. Qed.

(** C1, amended.  In every state a server reaches, a step leaves every row
    in place and moves its status along [forward]: the documented
    transitions, or from pending straight to failed; a completed or failed
    row keeps its status. *)
Theorem status_moves_forward `{Platform} v us fs t evs ev n r :
  translation_jobs (exec v evs (boot us fs t)) !! n = Some r →
  ∃ r', translation_jobs (step v ev (exec v evs (boot us fs t))) !! n = Some r' ∧
        id r' = id r ∧
        forward (status r) (status r') ∧
        (status r = completed ∨ status r = failed → status r' = status r).
Proof.
  intros Hn.
  destruct (reachable_row_step v us fs t evs ev n r Hn) as (r' & Hr' & Hstep).
  exists r'. split_and!; auto.
  - eapply row_step_id; eauto.
  - eapply row_step_forward; eauto.
  - apply forward_terminal. eapply row_step_forward; eauto.
Qed.

Lemma status_moves_forward_witness :
  let w := @exec Scenario.local JwtMock Scenario.posted Demo.world0 in
  translation_jobs w !! 0%nat = Some (Scenario.pending_row "alice") ∧
  ∃ r', translation_jobs (@step Scenario.local JwtMock (Resume 0 OOk) w) !! 0%nat = Some r' ∧
        id r' = "j1" ∧
        forward pending (status r') ∧
        (pending = completed ∨ pending = failed → status r' = pending).
Proof.
  split; [reflexivity|].
  apply (@status_moves_forward Scenario.local JwtMock [Demo.system_user]
           Demo.storage 0%nat Scenario.posted (Resume 0 OOk) 0%nat
           (Scenario.pending_row "alice")).
  reflexivity.
Defined.

(** ** C3: output reference and error detail *)

(** C3 as stated fails: the subprocess executor resolves on exit code 0
    and the success marker alone; the job is completed although nothing was
    written at the recorded output path. *)
Lemma completed_without_file :
  let w := @exec Scenario.local Subprocess Scenario.interpreted Scenario.scripted_world in
  job_row "j1" w = Some (Scenario.completed_row "sys") ∧
  files w !! Scenario.output_path = None.
Proof. split; reflexivity. Qed.

(** C3, amended.  In every state a server reaches, a row has its output
    filename and path exactly when it is completed, and an error message
    exactly when it is failed; under the JWT and remote-API controllers the
    output path of a row names a file in storage. *)
Theorem output_and_error_presence `{Platform} v us fs t evs r :
  r ∈ translation_jobs (exec v evs (boot us fs t)) →
  (is_Some (translated_filename r) ↔ status r = completed) ∧
  (is_Some (translated_file_path r) ↔ status r = completed) ∧
  (is_Some (error_message r) ↔ status r = failed) ∧
  (v ≠ Subprocess →
   ∀ p, translated_file_path r = Some p →
        is_Some (files (exec v evs (boot us fs t)) !! p)).
Proof.
  intros Hr.
  destruct (inv_rows _ _ _ (reachable_inv v us fs t evs) r Hr) as (H1 & H2 & _ & H4 & H5).
  split_and!; try (symmetry; assumption).
  intros Hv. apply H5. unfold strict_of. by rewrite bool_decide_eq_false_2.
Qed.

Lemma output_and_error_presence_witness :
  let w := @exec Scenario.local JwtMock Scenario.translated Demo.world0 in
  Scenario.completed_row "alice" ∈ translation_jobs w ∧
  (is_Some (Some "translated_j1.txt") ↔ completed = completed) ∧
  (is_Some (Some Scenario.output_path) ↔ completed = completed) ∧
  (is_Some (@None string) ↔ completed = failed) ∧
  (JwtMock ≠ Subprocess →
   ∀ p, Some Scenario.output_path = Some p → is_Some (files w !! p)).
Proof.
  assert (Hin : Scenario.completed_row "alice" ∈
                translation_jobs (@exec Scenario.local JwtMock Scenario.translated Demo.world0)).
  { vm_compute. apply list_elem_of_here. }
  split; [exact Hin|].
  exact (@output_and_error_presence Scenario.local JwtMock [Demo.system_user]
           Demo.storage 0%nat Scenario.translated (Scenario.completed_row "alice") Hin).
Defined.

(** ** C4: [completed_at] *)

(** C4 as stated fails: the update that records a failure does not set
    [completed_at]. *)
Lemma failed_without_completed_at :
  let w := @exec Scenario.local JwtMock Scenario.read_failed Demo.world0 in
  let w' := @step Scenario.local JwtMock (Resume 0 OOk) w in
  status_of "j1" w = Some processing ∧
  status_of "j1" w' = Some failed ∧
  (completed_at <$> job_row "j1" w') = Some None.
Proof. split_and!; reflexivity. Qed.

(** C4, amended.  In every state a server reaches, [completed_at] is
    present exactly on completed rows (so never on a failed one); a step
    either leaves it as it is or sets it, from absent to the database time,
    on the transition from processing to completed. *)
Theorem completed_at_set_once `{Platform} v us fs t evs ev n r :
  translation_jobs (exec v evs (boot us fs t)) !! n = Some r →
  (is_Some (completed_at r) ↔ status r = completed) ∧
  ∃ r', translation_jobs (step v ev (exec v evs (boot us fs t))) !! n = Some r' ∧
    (completed_at r' = completed_at r ∨
     (completed_at r = None ∧
      completed_at r' = Some (now (exec v evs (boot us fs t))) ∧
      status r = processing ∧ status r' = completed)).
Proof.
  intros Hn.
  assert (Hr : r ∈ translation_jobs (exec v evs (boot us fs t)))
    by (eapply list_elem_of_lookup_2; eauto).
  destruct (inv_rows _ _ _ (reachable_inv v us fs t evs) r Hr) as (_ & _ & H3 & _).
  split; [symmetry; exact H3|].
  destruct (reachable_row_step v us fs t evs ev n r Hn) as (r' & Hr' & Hstep).
  exists r'. split; [exact Hr'|].
  destruct Hstep as [|Hs|? ? Hs _|? Hs]; simpl; auto.
  right. split_and!; auto.
  destruct (completed_at r) eqn:Hc; auto.
  assert (status r = completed) by (apply H3; eauto). congruence.
Qed.

Lemma completed_at_set_once_witness :
  let w := @exec Scenario.local JwtMock Scenario.posted Demo.world0 in
  translation_jobs w !! 0%nat = Some (Scenario.pending_row "alice") ∧
  (is_Some (@None nat) ↔ pending = completed) ∧
  ∃ r', translation_jobs (@step Scenario.local JwtMock (Resume 0 OOk) w) !! 0%nat = Some r' ∧
    (completed_at r' = None ∨
     (@None nat = None ∧ completed_at r' = Some (now w) ∧
      pending = processing ∧ status r' = completed)).
Proof.
  split; [reflexivity|].
  apply (@completed_at_set_once Scenario.local JwtMock [Demo.system_user]
           Demo.storage 0%nat Scenario.posted (Resume 0 OOk) 0%nat
           (Scenario.pending_row "alice")).
  reflexivity.
Defined.

(** ** C2: dispatching a job twice *)

Section Quiet.

Context (start : DispatchArgs → Async unit).

Lemma effect_quiet {X} (op : Op X) o w :
  match op with Invoke _ => False | Detach _ => False | _ => True end →
  executions (effect start op o w).2 = executions w.
Proof.
  destruct op as [R q| | | | | | | | | | |]; try contradiction; intros _.
  1: destruct q.
  all: destruct o; simpl; repeat case_match; reflexivity.
Qed.

Lemma run_quiet {A} (m : Async A) : ∀ os w,
  quiet m → executions (run start os m w).2 = executions w.
Proof.
  induction m as [| | |X op k IH]; intros os w Hq; simpl; auto.
  destruct Hq as [Hop Hk].
  pose proof (effect_quiet op (hd OOk os) w Hop) as He.
  destruct (effect start op (hd OOk os) w) as [r w1]. simpl in He.
  rewrite IH; auto.
Qed.

End Quiet.

Lemma handler_quiet `{Platform} v a (s t sl tl dt f p : string) :
  quiet (try_catch
           (translateDocument v s t sl tl dt;;
            query (UpdateJobCompleted completed f p (d_jobId a));; Ret ())
           (record_failure a)).
Proof.
  destruct v; async_unfold;
    repeat (cbn [quiet async_bind try_catch unguarded_callback] in *;
            first [ progress intros
                  | match goal with
                    | |- _ ∧ _ => split
                    | |- True => exact I
                    | r : (_ + _)%type |- _ => destruct r
                    | |- context [if ?b then _ else _] => destruct b eqn:?
                    | |- context [match ?x with _ => _ end] => destruct x eqn:?
                    end ]).
Qed.

Lemma system_user_found w :
  (∃ u, u ∈ users w ∧ u_email u = system_email) →
  (0 <? length (u_id <$> filter (λ u, u_email u = system_email) (users w)))%nat = true.
Proof.
  intros (u & Hu & He). apply Nat.ltb_lt. rewrite length_fmap.
  assert (Hin : u ∈ filter (λ u, u_email u = system_email) (users w))
    by (apply list_elem_of_filter; auto).
  destruct (filter _ (users w)); [by apply elem_of_nil in Hin | simpl; lia].
Qed.

(** C2 as stated fails: a second dispatch of a completed job is not a
    no-op.  It calls the executor again, and when that call fails it
    turns the completed job into a failed one. *)
Lemma second_dispatch_runs_again :
  let w := @exec Scenario.local JwtMock Scenario.translated Demo.world0 in
  let again := (@dispatch Scenario.local JwtMock [] Scenario.call w).2 in
  let broken :=
    (@dispatch Scenario.local JwtMock [OOk; OOk; OOk; OFail Scenario.disk_error]
       Scenario.call w).2 in
  status_of "j1" w = Some completed ∧
  executions w = ["j1"] ∧
  executions again = ["j1"; "j1"] ∧
  status_of "j1" broken = Some failed.
Proof. split_and!; reflexivity. Qed.

(** C2, amended.  [processTranslationAsync] has no idempotency guard: it
    does not read the status of the job, and any call whose system-user
    lookup and processing update succeed calls the executor once more.
    Each job is executed at most once because the server dispatches a job
    once, right after inserting it: in every state a server reaches, no job
    id occurs twice among the executor calls or among the dropped promises,
    and every executor call belongs to a dropped promise. *)
Theorem one_execution_per_job `{Platform} v :
  (∀ a os w,
     ok (hd OOk os) = true → ok (hd OOk (tl os)) = true →
     (∃ u, u ∈ users w ∧ u_email u = system_email) →
     executions (dispatch v os a w).2 = d_jobId a :: executions w) ∧
  (∀ us fs t evs,
     NoDup (executions (exec v evs (boot us fs t))) ∧
     NoDup (task_job <$> tasks (exec v evs (boot us fs t))) ∧
     ∀ j, j ∈ executions (exec v evs (boot us fs t)) →
          j ∈ task_job <$> tasks (exec v evs (boot us fs t))).
Proof.
  split.
  - intros a os w Ho1 Ho2 Hu. unfold dispatch.
    destruct v; cbv [processTranslationAsync dispatch_guarded dispatch_body];
      cbv [query perform mbind mret Async_bind Async_ret];
      cbn [run async_bind try_catch].
    + cbn [effect]. destruct (hd OOk os) eqn:E1; try discriminate; cbn [Db.exec];
        rewrite (system_user_found w Hu); cbn [run async_bind try_catch effect];
        destruct (hd OOk (tl os)) eqn:E2; try discriminate; cbn [Db.exec];
        cbn [run async_bind try_catch effect];
        (etransitivity;
           [apply run_quiet; eapply (handler_quiet Subprocess a) | reflexivity]).
    + cbn [effect]. destruct (hd OOk os) eqn:E1; try discriminate; cbn [Db.exec];
        cbn [run async_bind try_catch effect];
        (etransitivity;
           [apply run_quiet; eapply (handler_quiet JwtMock a) | reflexivity]).
    + cbn [effect]. destruct (hd OOk os) eqn:E1; try discriminate; cbn [Db.exec];
        rewrite (system_user_found w Hu); cbn [run async_bind try_catch effect];
        destruct (hd OOk (tl os)) eqn:E2; try discriminate; cbn [Db.exec];
        cbn [run async_bind try_catch effect];
        (etransitivity;
           [apply run_quiet; eapply (handler_quiet RemoteApi a) | reflexivity]).
  - intros us fs t evs.
    destruct (reachable_inv v us fs t evs) as [_ H2 _ H4 H5 _ _]. auto.
Qed.

Lemma one_execution_per_job_witness :
  ok (hd OOk []) = true ∧ ok (hd OOk (tl [])) = true ∧
  (∃ u, u ∈ users Demo.world0 ∧ u_email u = system_email) ∧
  executions (@dispatch Scenario.local JwtMock [] Scenario.call Demo.world0).2
    = ["j1"].
Proof.
  assert (Hu : ∃ u, u ∈ users Demo.world0 ∧ u_email u = system_email).
  { exists Demo.system_user. split; [apply list_elem_of_here | reflexivity]. }
  split_and!; [reflexivity | reflexivity | exact Hu |].
  exact (proj1 (@one_execution_per_job Scenario.local JwtMock)
           Scenario.call [] Demo.world0 eq_refl eq_refl Hu).
Defined.

(** ** C5: faults during a dispatch *)

(** Running [try { m } catch (e) { h e }]: when [m] throws, the handler
    runs from the world [m] left, with the outcomes [m] did not use. *)
Lemma run_try_catch start {A} (m : Async A) h : ∀ os w,
  run start os (try_catch m h) w =
    match run start os m w with
    | (Throw e, w1) => run start (rest start os m w) (h e) w1
    | other => other
    end.
Proof.
  induction m as [| | |X op k IH]; intros os w; try reflexivity.
  cbn [try_catch run rest].
  destruct (effect start op (hd OOk os) w) as [r w1]. apply IH.
Qed.

(** C5 as stated fails: when the update that records the failure faults
    too, the promise of the dispatch rejects, nothing handles the rejection,
    the process exits and the job is left in [processing]. *)
Lemma failure_update_fault_escapes :
  let w := @exec Scenario.local JwtMock
             (Scenario.read_failed ++ [Resume 0 (OFail Scenario.db_down)])
             Demo.world0 in
  status_of "j1" w = Some processing ∧
  (task_body <$> tasks w !! 0%nat) = Some (Throw Scenario.db_down) ∧
  exited w = true.
Proof. split_and!; reflexivity. Qed.

(** C5, amended.  An error thrown inside the [try] block of the dispatch
    (by the processing update, by the executor's promise or by the completed
    update) reaches the [catch] block, which issues the failed update with
    the error's message; when that update succeeds the dispatch resolves
    with the job failed, and when it faults the dispatch rejects with the
    job as it was.  In every state a server reaches, a dispatch that has
    resolved left its job completed, or failed with an error message, or,
    under the key-authenticated controllers, pending and never executed
    (their system-user lookup faulted or found nobody); a dispatch that
    has rejected, or has thrown in a callback outside the JWT controller,
    left its job pending or processing and ended the process. *)
Theorem dispatch_outcomes `{Platform} v :
  (∀ a os w,
     handle v os (dispatch_guarded v a) w =
       match handle v os (dispatch_body v a) w with
       | (Throw e, w1) =>
           handle v (rest (processTranslationAsync v) os (dispatch_body v a) w)
             (record_failure a e) w1
       | other => other
       end) ∧
  (∀ a e o os w,
     handle v (o :: os) (record_failure a e) w =
       match o with
       | OFail e' => (Throw e', w)
       | _ => (Ret (),
               set_jobs (Db.update_where_id (d_jobId a)
                           (Db.with_failed failed (message e))) w)
       end) ∧
  (∀ us fs t evs task,
     task ∈ tasks (exec v evs (boot us fs t)) →
     ∃ r, r ∈ translation_jobs (exec v evs (boot us fs t)) ∧
          id r = task_job task ∧
          match task_body task with
          | Ret _ =>
              status r = completed ∨
              (status r = failed ∧ is_Some (error_message r)) ∨
              (v ≠ JwtMock ∧ status r = pending ∧
               task_job task ∉ executions (exec v evs (boot us fs t)))
          | Throw _ =>
              (status r = pending ∨ status r = processing) ∧
              exited (exec v evs (boot us fs t)) = true
          | Uncaught _ =>
              v ≠ JwtMock ∧ status r = processing ∧
              exited (exec v evs (boot us fs t)) = true
          | Await _ _ => True
          end).
Proof.
  split_and!.
  - intros a os w. apply run_try_catch.
  - intros a e o os w. destruct o; reflexivity.
  - intros us fs t evs task Ht.
    pose proof (reachable_inv v us fs t evs) as HI.
    destruct (inv_task_ok _ _ _ HI task Ht) as (r & wr & Hr & Hid & _ & Hs).
    pose proof (inv_exit _ _ _ HI task Ht) as Hx.
    destruct (inv_rows _ _ _ HI r Hr) as (_ & _ & _ & H4 & _).
    exists r. split_and!; auto.
    destruct (task_body task) as [| | |X op k] eqn:Hb;
      cbn [safe settled p_status p_called settled_badly] in Hs, Hx.
    + destruct Hs as [Hs|[Hs|(Hv & Hs & Hc)]]; auto.
      * right. left. split; auto. apply H4, Hs.
      * right. right. split_and!; auto.
        apply bool_decide_eq_false in Hc. exact Hc.
    + split; auto.
    + destruct Hs as (Hv & Hs & _). split_and!; auto.
    + exact I.
Qed.

Lemma dispatch_outcomes_witness :
  let w := @exec Scenario.local JwtMock
             (Scenario.read_failed ++ [Resume 0 OOk]) Demo.world0 in
  let task := mkTask "j1" (Ret ()) in
  task ∈ tasks w ∧
  ∃ r, r ∈ translation_jobs w ∧ id r = "j1" ∧
       (status r = completed ∨
        (status r = failed ∧ is_Some (error_message r)) ∨
        (JwtMock ≠ JwtMock ∧ status r = pending ∧ "j1" ∉ executions w)).
Proof.
  assert (Hin : mkTask "j1" (Ret ()) ∈
                tasks (@exec Scenario.local JwtMock
                         (Scenario.read_failed ++ [Resume 0 OOk]) Demo.world0)).
  { vm_compute. apply list_elem_of_here. }
  split; [exact Hin|].
  exact (proj2 (proj2 (@dispatch_outcomes Scenario.local JwtMock))
           [Demo.system_user] Demo.storage 0%nat
           (Scenario.read_failed ++ [Resume 0 OOk]) (mkTask "j1" (Ret ())) Hin).
Defined.

(** ** C6: the remote-API executor *)

(** C6 as stated fails in one respect: the URL that is fetched is not
    always the one the response provides.  With the API at 20.20.20.205, a
    download URL on localhost is rewritten before it is fetched. *)
Lemma download_url_is_rewritten :
  let os := [OOk; OHttp Scenario.api_reply; OHttp Scenario.api_file; OOk] in
  let result :=
    @handle Scenario.remote _ RemoteApi os
      (@translateDocument_remote Scenario.remote
         "/srv/uploads/original/1_doc.txt" Scenario.output_path "en" "es" "txt")
      Demo.world0 in
  translatedFileUrl <$> res_json Scenario.api_reply
    = Some (Some "http://localhost:5000/files/9") ∧
  result.1 = Ret () ∧
  fetched result.2 =
    ["http://20.20.20.205:5000/files/9"; "http://20.20.20.205:5000/translate"] ∧
  "http://localhost:5000/files/9" ∉ fetched result.2.
Proof.
  split_and!; [reflexivity | reflexivity | reflexivity |].
  vm_compute. intros Hin.
  repeat (apply elem_of_cons in Hin as [Hin|Hin]; [discriminate Hin|]).
  by apply elem_of_nil in Hin.
Qed.

(** C6, amended.  With the external API configured, the executor rejects
    on a non-success status with the status and the body of the response in
    the message, and rejects when a success response carries no download
    URL; in both cases it writes nothing.  On a success response with a
    download URL it fetches [download_url] of that URL (the URL itself,
    unless it mentions localhost while the API is at 20.20.20.205); when
    that fetch succeeds it writes the fetched bytes at the target path and
    resolves, and when it does not succeed the executor rejects and writes
    nothing.  It resolves in no other way.  Under the remote-API controller
    a completed job has its output file in storage. *)
Theorem remote_executor `{Platform} (source target lang_from lang_to doc : string) os w :
  Js.truthy EXTERNAL_TRANSLATION_API_URL = true →
  Js.truthy EXTERNAL_TRANSLATION_API_KEY = true →
  let apiUrl := default "" EXTERNAL_TRANSLATION_API_URL in
  let result :=
    handle RemoteApi os (translateDocument_remote source target lang_from lang_to doc) w in
  (∀ r, is_Some (files w !! source) → ok (hd OOk os) = true →
        hd OOk (tl os) = OHttp r → res_ok r = false →
        result.1 = Throw (mkError ("External API error: " +:+ Js.show (res_status r)
                                   +:+ " - " +:+ res_text r)) ∧
        files result.2 = files w) ∧
  (∀ r data, is_Some (files w !! source) → ok (hd OOk os) = true →
        hd OOk (tl os) = OHttp r → res_ok r = true →
        res_json r = Some data → Js.truthy (translatedFileUrl data) = false →
        result.1 = Throw (mkError "External API did not return a translated file URL") ∧
        files result.2 = files w) ∧
  (∀ r u r2, is_Some (files w !! source) → ok (hd OOk os) = true →
        hd OOk (tl os) = OHttp r → res_ok r = true →
        (translatedFileUrl <$> res_json r) = Some (Some u) → u ≠ "" →
        hd OOk (tl (tl os)) = OHttp r2 →
        fetched result.2 = download_url apiUrl u :: apiUrl :: fetched w ∧
        (res_ok r2 = true → ok (hd OOk (tl (tl (tl os)))) = true →
         result.1 = Ret () ∧ files result.2 = <[target := res_bytes r2]> (files w)) ∧
        (res_ok r2 = false →
         result.1 = Throw (mkError ("Failed to download translated file from "
                                    +:+ download_url apiUrl u)) ∧
         files result.2 = files w)) ∧
  (result.1 = Ret () →
     ∃ r u r2,
       hd OOk (tl os) = OHttp r ∧ res_ok r = true ∧
       (translatedFileUrl <$> res_json r) = Some (Some u) ∧
       hd OOk (tl (tl os)) = OHttp r2 ∧ res_ok r2 = true ∧
       fetched result.2 = download_url apiUrl u :: apiUrl :: fetched w ∧
       files result.2 = <[target := res_bytes r2]> (files w)) ∧
  (∀ us fs t evs row,
     row ∈ translation_jobs (exec RemoteApi evs (boot us fs t)) →
     status row = completed →
     ∃ p, translated_file_path row = Some p ∧
          is_Some (files (exec RemoteApi evs (boot us fs t)) !! p)).
Proof.
  intros Hurl Hkey apiUrl result. subst result apiUrl.
  unfold handle, translateDocument_remote. rewrite Hurl, Hkey.
  cbv [query perform mbind mret Async_bind Async_ret].
  cbn [negb orb run async_bind try_catch effect].
  split_and!.
  - intros r [content Hc] Ho1 Ho2 Hok. rewrite Hc.
    destruct (hd OOk os); try discriminate;
      cbn [run async_bind try_catch effect fst snd]; rewrite Ho2;
      cbn [run async_bind try_catch effect fst snd]; rewrite Hok; split; reflexivity.
  - intros r data [content Hc] Ho1 Ho2 Hok Hj Hu. rewrite Hc.
    destruct (hd OOk os); try discriminate;
      cbn [run async_bind try_catch effect fst snd]; rewrite Ho2;
      cbn [run async_bind try_catch effect fst snd]; rewrite Hok, Hj, Hu; split; reflexivity.
  - intros r u r2 [content Hc] Ho1 Ho2 Hok Hj Hu Ho3. rewrite Hc.
    destruct (res_json r) as [[[u'|]]|] eqn:Hj'; try discriminate.
    injection Hj as ->. destruct u as [|c u]; [contradiction|].
    destruct (hd OOk os); try discriminate;
      cbn [run async_bind try_catch effect fst snd]; rewrite Ho2;
      cbn [run async_bind try_catch effect fst snd]; rewrite Hok, Hj';
      cbn [negb Js.truthy translatedFileUrl default run async_bind try_catch effect fst snd];
      rewrite Ho3; cbn [run async_bind try_catch effect fst snd].
    all: split_and!.
    all: try (intros Hok2 Ho4; rewrite Hok2;
              cbn [negb run async_bind try_catch effect fst snd];
              destruct (hd OOk (tl (tl (tl os)))); try discriminate;
              cbn [run async_bind try_catch effect fst snd]; split; reflexivity).
    all: try (intros Hok2; rewrite Hok2;
              cbn [negb run async_bind try_catch effect fst snd]; split; reflexivity).
    all: destruct (res_ok r2); cbn [negb run async_bind try_catch effect fst snd];
      try reflexivity.
    all: destruct (hd OOk (tl (tl (tl os))));
      cbn [run async_bind try_catch effect fst snd]; reflexivity.
  - destruct (files w !! source) as [content|];
      destruct (hd OOk os); cbn [run async_bind try_catch effect fst snd];
      try discriminate.
    all: destruct (hd OOk (tl os)) as [| | |resp|]; cbn [run async_bind try_catch effect fst snd];
      try discriminate.
    all: destruct (res_ok resp) eqn:Hok; cbn [negb run async_bind try_catch effect fst snd];
      try discriminate.
    all: destruct (res_json resp) as [[[u|]]|] eqn:Hj;
      cbn [Js.truthy translatedFileUrl run async_bind try_catch effect fst snd];
      try discriminate.
    all: destruct u as [|c u]; cbn [Js.truthy default run async_bind try_catch effect fst snd];
      try discriminate.
    all: destruct (hd OOk (tl (tl os))) as [| | |resp2|];
      cbn [run async_bind try_catch effect fst snd]; try discriminate.
    all: destruct (res_ok resp2) eqn:Hok2;
      cbn [negb run async_bind try_catch effect fst snd]; try discriminate.
    all: destruct (hd OOk (tl (tl (tl os))));
      cbn [run async_bind try_catch effect fst snd]; try discriminate.
    all: intros _; exists resp, (String c u), resp2; split_and!;
      first [reflexivity | assumption | rewrite Hj; reflexivity].
  - intros us fs t evs row Hr Hs.
    destruct (inv_rows _ _ _ (reachable_inv RemoteApi us fs t evs) row Hr)
      as (_ & H2 & _ & _ & H5).
    apply H2 in Hs as [p Hp]. exists p. split; auto.
Qed.

Lemma remote_executor_witness :
  let os := [OOk; OHttp Scenario.api_reply; OHttp Scenario.api_file; OOk] in
  let result :=
    @handle Scenario.remote _ RemoteApi os
      (@translateDocument_remote Scenario.remote
         "/srv/uploads/original/1_doc.txt" Scenario.output_path "en" "es" "txt")
      Demo.world0 in
  Js.truthy (@EXTERNAL_TRANSLATION_API_URL Scenario.remote) = true ∧
  Js.truthy (@EXTERNAL_TRANSLATION_API_KEY Scenario.remote) = true ∧
  is_Some (files Demo.world0 !! "/srv/uploads/original/1_doc.txt") ∧
  res_ok Scenario.api_reply = true ∧ res_ok Scenario.api_file = true ∧
  result.1 = Ret () ∧
  files result.2 = <[Scenario.output_path := "hola"]> (files Demo.world0).
Proof.
  assert (Hf : is_Some (files Demo.world0 !! "/srv/uploads/original/1_doc.txt"))
    by (eexists; reflexivity).
  assert (Hu : "http://localhost:5000/files/9" ≠ "") by discriminate.
  split_and!; [reflexivity | reflexivity | exact Hf | reflexivity | reflexivity |..].
  - exact (proj1 (proj1 (proj2 (proj1 (proj2 (proj2
             (@remote_executor Scenario.remote
                "/srv/uploads/original/1_doc.txt" Scenario.output_path "en" "es" "txt"
                [OOk; OHttp Scenario.api_reply; OHttp Scenario.api_file; OOk]
                Demo.world0 eq_refl eq_refl)))
             Scenario.api_reply "http://localhost:5000/files/9" Scenario.api_file
             Hf eq_refl eq_refl eq_refl eq_refl Hu eq_refl)) eq_refl eq_refl)).
  - exact (proj2 (proj1 (proj2 (proj1 (proj2 (proj2
             (@remote_executor Scenario.remote
                "/srv/uploads/original/1_doc.txt" Scenario.output_path "en" "es" "txt"
                [OOk; OHttp Scenario.api_reply; OHttp Scenario.api_file; OOk]
                Demo.world0 eq_refl eq_refl)))
             Scenario.api_reply "http://localhost:5000/files/9" Scenario.api_file
             Hf eq_refl eq_refl eq_refl eq_refl Hu eq_refl)) eq_refl eq_refl)).
Defined.

(** ** C7: errors of the download route *)

Lemma caller_known_identified v req w : caller_known v req w → identified v req w.
Proof.
  destruct v; simpl; auto.
  all: intros (u & others & -> & Hu); simpl; unfold first_truthy; simpl.
  all: destruct (u_id u); [contradiction | eexists; reflexivity].
Qed.

(** C7 as stated fails on its last clause: a completed job whose file is
    not in storage is answered with the status 404 and [success: false],
    as an id without a job is; the two responses differ by their message
    only. *)
Lemma missing_file_is_an_ordinary_404 :
  let w := @exec Scenario.local Subprocess Scenario.interpreted Scenario.scripted_world in
  let ask j :=
    @respond Scenario.local Subprocess []
      (downloadFile Subprocess (Demo.request None j None None)) w in
  job_row "j1" w = Some (Scenario.completed_row "sys") ∧
  files w !! Scenario.output_path = None ∧
  job_row "j2" w = None ∧
  ask "j1" = Some (mkResponse 404 (Message false "Translated file not found on server")) ∧
  ask "j2" = Some (mkResponse 404 (Message false "Translation job not found")) ∧
  (code <$> ask "j1") = (code <$> ask "j2").
Proof. split_and!; vm_compute; reflexivity. Qed.

(** C7, amended.  With no fault in its operations and a caller that the
    route knows and lets through, [downloadFile] answers 400 "Translation is
    not yet completed. Current status: ..." with the status of the job
    whenever the job is not completed, and answers a completed job whose
    file is not in storage with 404 "Translated file not found on server":
    the status code of the 404 "Translation job not found" it gives for an
    id without a job, under another message. *)
Theorem download_errors `{Platform} v req os w :
  faultless os →
  caller_known v req w →
  let answer := respond v os (downloadFile v req) w in
  (∀ job others,
     Db.where_id (params_jobId req) (translation_jobs w) = job :: others →
     may_download v req job →
     (status job ≠ completed →
      answer = Some (mkResponse 400
                       (Message false
                          ("Translation is not yet completed. Current status: " +:+
                           match status job with
                           | pending => "pending"
                           | processing => "processing"
                           | completed => "completed"
                           | failed => "failed"
                           end)))) ∧
     (status job = completed →
      (∀ p, translated_file_path job = Some p → files w !! p = None) →
      answer = Some (mkResponse 404 (Message false "Translated file not found on server")))) ∧
  (Db.where_id (params_jobId req) (translation_jobs w) = [] →
   answer = Some (mkResponse 404 (Message false "Translation job not found"))).
Proof.
  intros Hos Hid answer. subst answer. apply caller_known_identified in Hid.
  unfold faultless in Hos. split.
  - intros job others Hjob Hmay. unfold respond, handle.
    destruct v; route_unfold; unfold identified, may_download in *.
    + (* subprocess *)
      destruct Hid as [u Hu]. split.
      * intros Hs. outcomes os; route_run; rewrite Hu; route_run; rewrite Hjob; route_run;
          rewrite (bool_decide_eq_false_2 _ Hs); destruct (status job); try reflexivity;
          contradiction.
      * intros Hs Hf. outcomes os; route_run; rewrite Hu; route_run; rewrite Hjob; route_run;
          rewrite (bool_decide_eq_true_2 _ Hs); route_run;
          destruct (translated_file_path job) as [p|]; route_run;
          try rewrite (Hf p eq_refl); reflexivity.
    + (* JWT *)
      destruct (req_user req) as [user|]; [|contradiction]. split.
      * intros Hs. outcomes os; route_run; rewrite Hjob; route_run;
          rewrite (bool_decide_eq_false_2 _ Hs);
          destruct Hmay as [Ho|Ha];
          rewrite ?(bool_decide_eq_true_2 _ Ho), ?(bool_decide_eq_true_2 _ Ha),
            ?andb_false_r; destruct (status job); try reflexivity; contradiction.
      * intros Hs Hf. outcomes os; route_run; rewrite Hjob; route_run;
          rewrite (bool_decide_eq_true_2 _ Hs);
          (destruct Hmay as [Ho|Ha];
           rewrite ?(bool_decide_eq_true_2 _ Ho), ?(bool_decide_eq_true_2 _ Ha),
             ?andb_false_r);
          route_run;
          destruct (translated_file_path job) as [p|]; route_run;
          try rewrite (Hf p eq_refl); reflexivity.
    + (* remote API *)
      destruct Hid as [u Hu]. split.
      * intros Hs. outcomes os; route_run; rewrite Hu; route_run; rewrite Hjob; route_run;
          rewrite (bool_decide_eq_false_2 _ Hs); destruct (status job); try reflexivity;
          contradiction.
      * intros Hs Hf. outcomes os; route_run; rewrite Hu; route_run; rewrite Hjob; route_run;
          rewrite (bool_decide_eq_true_2 _ Hs); route_run;
          destruct (translated_file_path job) as [p|]; route_run;
          try rewrite (Hf p eq_refl); reflexivity.
  - intros Hjob. unfold respond, handle.
    destruct v; route_unfold; unfold identified in *.
    + destruct Hid as [u Hu].
      outcomes os; route_run; rewrite Hu; route_run; rewrite Hjob; reflexivity.
    + destruct (req_user req) as [user|]; [|by destruct Hid].
      outcomes os; route_run; rewrite Hjob; reflexivity.
    + destruct Hid as [u Hu].
      outcomes os; route_run; rewrite Hu; route_run; rewrite Hjob; reflexivity.
Qed.

Lemma download_errors_witness :
  let w := @exec Scenario.local Subprocess Scenario.interpreted Scenario.scripted_world in
  let req := Demo.request None "j1" None None in
  faultless [] ∧ caller_known Subprocess req w ∧
  Db.where_id "j1" (translation_jobs w) = [Scenario.completed_row "sys"] ∧
  may_download Subprocess req (Scenario.completed_row "sys") ∧
  status (Scenario.completed_row "sys") = completed ∧
  files w !! Scenario.output_path = None ∧
  @respond Scenario.local Subprocess [] (downloadFile Subprocess req) w
    = Some (mkResponse 404 (Message false "Translated file not found on server")).
Proof.
  set (w := @exec Scenario.local Subprocess Scenario.interpreted Scenario.scripted_world).
  assert (Hid : caller_known Subprocess (Demo.request None "j1" None None) w).
  { exists Demo.system_user, []. split; [vm_compute; reflexivity | discriminate]. }
  assert (Hjob : Db.where_id "j1" (translation_jobs w) = [Scenario.completed_row "sys"])
    by (vm_compute; reflexivity).
  assert (Hnone : files w !! Scenario.output_path = None) by (vm_compute; reflexivity).
  assert (Hf : ∀ p, translated_file_path (Scenario.completed_row "sys") = Some p →
                 files w !! p = None).
  { intros p Hp. injection Hp as <-. exact Hnone. }
  split_and!; [reflexivity | exact Hid | exact Hjob | exact I | reflexivity | exact Hnone |].
  exact (proj2 (proj1 (@download_errors Scenario.local Subprocess
                         (Demo.request None "j1" None None) [] w eq_refl Hid)
                  (Scenario.completed_row "sys") [] Hjob I) eq_refl Hf).
Defined.

(** ** C8: other principals' jobs *)

Lemma not_owned_filter w j u :
  (∀ r, r ∈ translation_jobs w → id r = j → user_id r ≠ u) →
  filter (λ r, user_id r = u) (Db.where_id j (translation_jobs w)) = [].
Proof.
  intros Hno. unfold Db.where_id.
  destruct (filter _ (filter _ _)) as [|r rest] eqn:E; auto.
  assert (Hr : r ∈ filter (λ r, user_id r = u) (filter (λ r, id r = j) (translation_jobs w)))
    by (rewrite E; apply list_elem_of_here).
  apply list_elem_of_filter in Hr as [Hu Hr].
  apply list_elem_of_filter in Hr as [Hj Hr].
  destruct (Hno r Hr Hj Hu).
Qed.

(** C8.  Under the JWT controller a caller who owns no job with the
    requested id gets from [getJobStatus] the 404 of an absent job (or the
    500 of a fault), and, when not an admin, gets from [downloadFile] that
    404, the 403 or the 500 of a fault: never a response that carries
    anything of the job.  The key-authenticated controllers do not look at
    the caller at all. *)
Theorem other_principals_jobs `{Platform} req os w user :
  req_user req = Some user →
  (∀ r, r ∈ translation_jobs w → id r = params_jobId req → user_id r ≠ userId user) →
  (∃ resp, respond JwtMock os (getJobStatus JwtMock req) w = Some resp ∧
           (resp = job_not_found ∨ resp = status_failed) ∧ discloses resp = false) ∧
  (role user ≠ "admin" →
   ∃ resp, respond JwtMock os (downloadFile JwtMock req) w = Some resp ∧
           (resp = job_not_found ∨ resp = forbidden ∨ resp = download_failed) ∧
           discloses resp = false) ∧
  (∀ v caller, v ≠ JwtMock →
     getJobStatus v (set_user caller req) = getJobStatus v req ∧
     downloadFile v (set_user caller req) = downloadFile v req ∧
     getTranslationHistory v (set_user caller req) = getTranslationHistory v req).
Proof.
  intros Hu Hno. split_and!.
  - unfold respond, handle. route_unfold. rewrite Hu.
    destruct os as [|[] os]; route_run; rewrite ?(not_owned_filter _ _ _ Hno);
      eexists; (split; [reflexivity|]); split; auto.
  - intros Hrole. unfold respond, handle. route_unfold. rewrite Hu.
    destruct (Db.where_id (params_jobId req) (translation_jobs w)) as [|job others] eqn:Hj.
    + destruct os as [|[] os]; route_run; rewrite ?Hj;
        eexists; (split; [reflexivity|]); split; auto.
    + assert (Hin : job ∈ Db.where_id (params_jobId req) (translation_jobs w))
        by (rewrite Hj; apply list_elem_of_here).
      apply list_elem_of_filter in Hin as [Hid Hin].
      pose proof (Hno job Hin Hid) as Hother.
      destruct os as [|[] os]; route_run; rewrite ?Hj; route_run;
        rewrite ?(bool_decide_eq_false_2 _ Hother), ?(bool_decide_eq_false_2 _ Hrole);
        route_run;
        eexists; (split; [reflexivity|]); split; auto.
  - intros v caller Hv. destruct v; [|contradiction|]; split_and!; reflexivity.
Qed.

Lemma other_principals_jobs_witness :
  let w := @exec Scenario.local JwtMock Scenario.translated Demo.world0 in
  let req := Scenario.status_request Demo.bob in
  req_user req = Some Demo.bob ∧
  (∀ r, r ∈ translation_jobs w → id r = params_jobId req → user_id r ≠ "bob") ∧
  role Demo.bob ≠ "admin" ∧
  ∃ resp, @respond Scenario.local JwtMock [] (downloadFile JwtMock req) w
            = Some resp ∧
          (resp = job_not_found ∨ resp = forbidden ∨ resp = download_failed) ∧
          discloses resp = false.
Proof.
  assert (Hno : ∀ r, r ∈ translation_jobs
                        (@exec Scenario.local JwtMock Scenario.translated Demo.world0) →
                     id r = params_jobId (Scenario.status_request Demo.bob) →
                     user_id r ≠ "bob").
  { intros r Hr _. vm_compute in Hr.
    apply list_elem_of_singleton in Hr. subst r. discriminate. }
  assert (Hrole : role Demo.bob ≠ "admin") by discriminate.
  split_and!; [reflexivity | exact Hno | exact Hrole |].
  exact (proj1 (proj2 (@other_principals_jobs Scenario.local
                         (Scenario.status_request Demo.bob) []
                         (@exec Scenario.local JwtMock Scenario.translated Demo.world0)
                         Demo.bob eq_refl Hno)) Hrole).
Defined.

(** ** C9: the reported progress *)

(** C9 as stated fails on its last clause: a failed job reports progress
    0, so the progress reported for a job drops from 50 to 0 when the job
    goes from processing to failed. *)
Lemma progress_drops_on_failure :
  let w := @exec Scenario.remote RemoteApi Scenario.api_called Demo.world0 in
  let w' := @step Scenario.remote RemoteApi (Resume 0 OOk) w in
  let ask w := @respond Scenario.remote RemoteApi []
                 (getJobStatus RemoteApi (Scenario.status_request Demo.alice)) w in
  let progress (r : option Response) :=
    match body <$> r with
    | Some (JobBody view) => v_progress view
    | _ => None
    end in
  status_of "j1" w = Some processing ∧ progress (ask w) = Some 50 ∧
  status_of "j1" w' = Some failed ∧ progress (ask w') = Some 0.
Proof. split_and!; reflexivity. Qed.

(** The job of a status response. *)
Lemma status_answer `{Platform} v req os w c view :
  respond v os (getJobStatus v req) w = Some (mkResponse c (JobBody view)) →
  ∃ r, r ∈ translation_jobs w ∧ id r = params_jobId req ∧
       view = status_view (negb (bool_decide (v = JwtMock))) r.
Proof.
  unfold respond, handle. intros Hr.
  destruct v; route_unfold;
    [ | destruct (req_user req) as [user|]; route_run; [|discriminate] | ].
  all: destruct os as [|o1 [|o2 os]]; route_run;
    try destruct o1; try destruct o2; route_run; try discriminate;
    repeat (case_match; route_run; simplify_eq).
  all: match goal with
       | E : _ = ?r :: ?l |- _ =>
           exists r;
           assert (Hin : r ∈ r :: l) by apply list_elem_of_here;
           rewrite <- E in Hin; unfold Db.where_id in Hin;
           repeat (apply list_elem_of_filter in Hin as [? Hin]);
           split_and!; [assumption | assumption | reflexivity]
       end.
Qed.

(** The progress of the items of a history response. *)
Lemma history_progress `{Platform} v req os w c jobs pagination item :
  respond v os (getTranslationHistory v req) w
    = Some (mkResponse c (HistoryBody jobs pagination)) →
  item ∈ jobs →
  v_progress item
    = if decide (v = JwtMock) then None else Some (progress_of (v_status item)).
Proof.
  unfold respond, handle. intros Hr Hin.
  destruct v; route_unfold;
    [ | destruct (req_user req) as [user|]; route_run; [|discriminate] | ].
  all: destruct os as [|o1 [|o2 os]]; route_run;
    try destruct o1; try destruct o2; route_run; try discriminate;
    repeat (case_match; route_run; simplify_eq).
  all: repeat (apply list_elem_of_fmap in Hin as (? & -> & Hin)); reflexivity.
Qed.

(** Whatever happens to a server, a row keeps its place and its id, and its
    progress does not decrease unless the row ends failed. *)
Lemma reachable_progress `{Platform} v us fs t evs evs' n r :
  translation_jobs (exec v evs (boot us fs t)) !! n = Some r →
  ∃ r', translation_jobs (exec v evs' (exec v evs (boot us fs t))) !! n = Some r' ∧
        id r' = id r ∧
        (status r' ≠ failed → progress_of (status r) ≤ progress_of (status r')).
Proof.
  intros Hn. induction evs' as [|ev evs' IH] using rev_ind.
  - exists r. split_and!; auto. lia.
  - destruct IH as (r1 & Hn1 & Hid1 & Hp1).
    assert (E : exec v evs' (exec v evs (boot us fs t)) = exec v (evs ++ evs') (boot us fs t))
      by (unfold exec; by rewrite foldl_app).
    rewrite exec_snoc, E. rewrite E in Hn1.
    destruct (reachable_row_step v us fs t (evs ++ evs') ev n r1 Hn1) as (r' & Hn' & Hstep).
    exists r'. split; [exact Hn'|]. split.
    + rewrite (row_step_id _ _ _ _ _ Hstep). exact Hid1.
    + intros Hnf. pose proof (row_step_forward _ _ _ _ _ Hstep) as Hf.
      assert (Hnf1 : status r1 ≠ failed).
      { intros Hs. apply Hnf. rewrite (forward_terminal _ _ Hf); auto. }
      specialize (Hp1 Hnf1).
      assert (progress_of (status r1) ≤ progress_of (status r')); [|lia].
      destruct (status r1), (status r'); inversion Hf as [? ? Hsp|];
        try inversion Hsp; try congruence; unfold progress_of; simpl; lia.
Qed.

(** C9, amended.  The progress in a response of the status route, and in
    every item of a history response, is 0 for a pending job, 50 for a
    processing one, 100 for a completed one and 0 for a failed one under the
    subprocess and remote-API controllers; the JWT controller reports none.
    In every state a server reaches, whatever happens afterwards, the
    progress the status route reports for a job has not decreased unless the
    job has become failed; a failed job is reported at 0. *)
Theorem progress_reported `{Platform} v us fs t evs evs' req os os' os'' view :
  let w := exec v evs (boot us fs t) in
  let scale (st : Status) : Z :=
    match st with pending => 0 | processing => 50 | completed => 100 | failed => 0 end in
  let shown (x : JobView) :=
    if decide (v = JwtMock) then None else Some (scale (v_status x)) in
  respond v os (getJobStatus v req) w = Some (mkResponse 200 (JobBody view)) →
  v_progress view = shown view ∧
  (∀ c jobs pagination,
     respond v os' (getTranslationHistory v req) w
       = Some (mkResponse c (HistoryBody jobs pagination)) →
     ∀ item, item ∈ jobs → v_progress item = shown item) ∧
  (v ≠ JwtMock →
   ∀ c view',
     respond v os'' (getJobStatus v req) (exec v evs' w) = Some (mkResponse c (JobBody view')) →
     ∃ p p', v_progress view = Some p ∧ v_progress view' = Some p' ∧
             (v_status view' ≠ failed → p ≤ p') ∧
             (v_status view' = failed → p' = 0)).
Proof.
  intros w scale shown Hr.
  assert (Hscale : ∀ st, progress_of st = scale st) by (intros []; reflexivity).
  destruct (status_answer _ _ _ _ _ _ Hr) as (r & Hin & Hid & ->).
  split_and!.
  - unfold shown. destruct v; simpl; rewrite ?Hscale; reflexivity.
  - intros c jobs pagination Hh item Hitem.
    rewrite (history_progress _ _ _ _ _ _ _ _ Hh Hitem). unfold shown.
    destruct (decide (v = JwtMock)); rewrite ?Hscale; reflexivity.
  - intros Hv c view' Hr'.
    destruct (status_answer _ _ _ _ _ _ Hr') as (r' & Hin' & Hid' & ->).
    rewrite (bool_decide_eq_false_2 _ Hv). simpl.
    exists (progress_of (status r)), (progress_of (status r')).
    split; [reflexivity|]. split; [reflexivity|].
    apply list_elem_of_lookup in Hin as [n Hn].
    destruct (reachable_progress v us fs t evs evs' n r Hn) as (r2 & Hn2 & Hid2 & Hp).
    assert (r' = r2) as ->.
    { eapply (NoDup_fmap_eq id); [| exact Hin' | eapply list_elem_of_lookup_2; exact Hn2 |].
      - apply (inv_ids _ _ _ (exec_inv v evs' _ (reachable_inv v us fs t evs))).
      - congruence. }
    split; [exact Hp|]. intros ->. reflexivity.
Qed.

Lemma progress_reported_witness :
  let w := @exec Scenario.remote RemoteApi Scenario.api_called Demo.world0 in
  let req := Scenario.status_request Demo.alice in
  ∃ view,
    @respond Scenario.remote RemoteApi [] (getJobStatus RemoteApi req) w
      = Some (mkResponse 200 (JobBody view)) ∧
    v_status view = processing ∧
    v_progress view = Some 50 ∧
    ∀ c view',
      @respond Scenario.remote RemoteApi [] (getJobStatus RemoteApi req)
        (@exec Scenario.remote RemoteApi [Tick; Resume 0 OOk] w)
        = Some (mkResponse c (JobBody view')) →
      ∃ p p', v_progress view = Some p ∧ v_progress view' = Some p' ∧
              (v_status view' ≠ failed → p ≤ p') ∧
              (v_status view' = failed → p' = 0).
Proof.
  eexists.
  assert (Hresp : @respond Scenario.remote RemoteApi []
                    (getJobStatus RemoteApi (Scenario.status_request Demo.alice))
                    (@exec Scenario.remote RemoteApi Scenario.api_called Demo.world0)
                  = Some (mkResponse 200 (JobBody _)))
    by (vm_compute; reflexivity).
  assert (Hv : RemoteApi ≠ JwtMock) by discriminate.
  split; [exact Hresp|]. split; [reflexivity|].
  pose proof (@progress_reported Scenario.remote RemoteApi [Demo.system_user]
                Demo.storage 0%nat Scenario.api_called [Tick; Resume 0 OOk]
                (Scenario.status_request Demo.alice) [] [] [] _ Hresp) as (Hp & _ & Hstep).
  split; [exact Hp | exact (Hstep Hv)].
Defined.

(** ** C10: the total of a history page *)

Lemma select_page_length owner_ph limit_ph offset_ph params rows page :
  Db.select_page owner_ph limit_ph offset_ph params rows = inr page →
  ∃ l, Db.bound params limit_ph = Some (PNum (Js.Finite l)) ∧ 0 ≤ l ∧
       Z.of_nat (length page) ≤ l.
Proof.
  unfold Db.select_page, Db.bigint. intros Hp.
  repeat (case_match; try discriminate).
  all: simplify_eq; eexists; split; [reflexivity|].
  all: rewrite length_take; lia.
Qed.

(** [parseInt] gives a double: beyond 2^53 the limit that is applied and
    reported is the nearest double, not the integer that was written. *)
Lemma parseInt_rounds :
  Js.parseInt "9007199254740993" = Js.Finite 9007199254740992 ∧
  Js.parseInt " -0x1F" = Js.Finite (-31) ∧
  Js.parseInt "12px" = Js.Finite 12 ∧
  Js.parseInt "px" = Js.NaN.
Proof. split_and!; reflexivity. Qed.

(** C10 as stated fails on its consequence: a requested limit of 0 is
    replaced by the default 50, so the total exceeds the requested limit. *)
Lemma total_exceeds_requested_zero :
  let w := @exec Scenario.local JwtMock Scenario.translated Demo.world0 in
  let req := Demo.request (Some Demo.alice) "" (Some "0") None in
  let pagination (r : option Response) :=
    match body <$> r with
    | Some (HistoryBody _ p) => Some (limit p, offset p, total p)
    | _ => None
    end in
  Js.parseInt "0" = Js.Finite 0 ∧
  pagination (@respond Scenario.local JwtMock [] (getTranslationHistory JwtMock req) w)
    = Some (Js.Finite 50, Js.Finite 0, 1) ∧
  ¬ (1 ≤ 0).
Proof. split_and!; [reflexivity | reflexivity | lia]. Qed.

(** C10, amended.  In a history response, [pagination.total] is the number
    of items of the page, not the number of jobs of the caller; it is at
    most [pagination.limit], which is the limit the route applied: the
    number [parseInt] reads from the limit parameter, or 50 when the
    parameter is absent, not a number or 0.  That limit is a finite number
    that is not negative. *)
Theorem history_total `{Platform} v req os w c jobs pagination :
  respond v os (getTranslationHistory v req) w
    = Some (mkResponse c (HistoryBody jobs pagination)) →
  total pagination = Z.of_nat (length jobs) ∧
  limit pagination = Js.parseInt_or (query_limit req) 50 ∧
  offset pagination = Js.parseInt_or (query_offset req) 0 ∧
  ∃ l, limit pagination = Js.Finite l ∧ 0 ≤ total pagination ≤ l.
Proof.
  unfold respond, handle. intros Hr.
  destruct v; route_unfold;
    [ | destruct (req_user req) as [user|]; route_run; [|discriminate] | ].
  all: destruct os as [|o1 [|o2 os]]; route_run;
    try destruct o1; try destruct o2; route_run; try discriminate;
    repeat (case_match; route_run; simplify_eq).
  all: match goal with
       | Hp : Db.select_page _ _ _ _ _ = inr _ |- _ =>
           apply select_page_length in Hp as (lim & Hb & Hl0 & Hl)
       end.
  all: cbv [Db.bound] in Hb; cbn [app lookup list_lookup] in Hb.
  all: injection Hb as Hb; cbn [total limit offset].
  all: rewrite ?length_fmap in *; split_and!; try reflexivity.
  all: exists lim; split; [exact Hb | lia].
Qed.

Lemma history_total_witness :
  let w := @exec Scenario.local JwtMock Scenario.translated Demo.world0 in
  let req := Demo.request (Some Demo.alice) "" (Some "0") None in
  ∃ jobs,
    @respond Scenario.local JwtMock [] (getTranslationHistory JwtMock req) w
      = Some (mkResponse 200
                (HistoryBody jobs (mkPagination (Js.Finite 50) (Js.Finite 0) 1))) ∧
    1 = Z.of_nat (length jobs) ∧
    Js.Finite 50 = Js.parseInt_or (Some "0") 50 ∧
    Js.Finite 0 = Js.parseInt_or None 0 ∧
    ∃ l, Js.Finite 50 = Js.Finite l ∧ 0 ≤ 1 ≤ l.
Proof.
  eexists.
  assert (Hresp : @respond Scenario.local JwtMock []
                    (getTranslationHistory JwtMock
                       (Demo.request (Some Demo.alice) "" (Some "0") None))
                    (@exec Scenario.local JwtMock Scenario.translated Demo.world0)
                  = Some (mkResponse 200
                            (HistoryBody _ (mkPagination (Js.Finite 50) (Js.Finite 0) 1))))
    by (vm_compute; reflexivity).
  split; [exact Hresp|].
  exact (@history_total Scenario.local JwtMock
           (Demo.request (Some Demo.alice) "" (Some "0") None) []
           (@exec Scenario.local JwtMock Scenario.translated Demo.world0)
           200 _ (mkPagination (Js.Finite 50) (Js.Finite 0) 1) Hresp).
Defined.

(** The history route of the remote-API controller never answers with a
    page: its statement mentions the placeholders 2 and 3 and binds two
    values. *)
Lemma remote_history_never_pages `{Platform} req os w :
  ∃ resp, respond RemoteApi os (getTranslationHistory RemoteApi req) w = Some resp ∧
          discloses resp = false.
Proof.
  unfold respond, handle. route_unfold.
  destruct os as [|o1 [|o2 os]]; route_run;
    try destruct o1; try destruct o2; route_run.
  all: repeat (case_match; route_run; simplify_eq).
  all: eexists; (split; [reflexivity|]); reflexivity.
Qed.

Section Answers.

Context (start : DispatchArgs → Async unit).

Lemma run_answers P (m : Async Response) : ∀ os w,
  answers P m → ∃ resp, (run start os m w).1 = Ret resp ∧ P resp.
Proof.
  induction m as [resp| | |X op k IH]; intros os w Hm; simpl in Hm; try contradiction.
  - exists resp. split; [reflexivity | exact Hm].
  - simpl. destruct (effect start op (hd OOk os) w) as [r w1]. apply IH, Hm.
Qed.

End Answers.

Ltac answering :=
  repeat (cbn [answers async_bind try_catch req_user req_file head first_truthy
               Js.truthy code body] in *;
          first [ progress intros
                | match goal with
                  | |- route_response _ _ _ => split; cbn [code body]
                  | |- _ ∈ _ => set_solver
                  | H : _ = 500 |- _ => first [discriminate H | reflexivity]
                  | |- True => exact I
                  | r : (_ + _)%type |- _ => destruct r
                  | |- context [match ?x with _ => _ end] => destruct x eqn:?
                  end ]).

Lemma processTranslation_answers `{Platform} v req :
  answers (route_response (creating_codes v) "Failed to process translation request")
    (processTranslation v req).
Proof.
  destruct v, req as [[u|] [f|] ? ? ? ? ? ?]; route_unfold; unfold creating_codes; simpl decide;
    answering.
Qed.

Lemma getJobStatus_answers `{Platform} v req :
  answers (route_response (reading_codes v) "Failed to fetch job status")
    (getJobStatus v req).
Proof.
  destruct v, req as [[u|] ? ? ? ? ? ? ?]; route_unfold; unfold reading_codes; simpl decide;
    answering.
Qed.

Lemma getTranslationHistory_answers `{Platform} v req :
  answers (route_response (reading_codes v) "Failed to fetch translation history")
    (getTranslationHistory v req).
Proof.
  destruct v, req as [[u|] ? ? ? ? ? ? ?]; route_unfold; unfold reading_codes; simpl decide;
    answering.
Qed.

Lemma downloadFile_answers `{Platform} v req :
  answers (route_response (download_codes v) "Failed to download file")
    (downloadFile v req).
Proof.
  destruct v, req as [[u|] ? ? ? ? ? ? ?]; route_unfold; unfold download_codes, download_failed;
    simpl decide; answering.
Qed.

(** X1.  Every route of every controller answers every request, whatever
    its operations do: the handler neither rejects nor throws.  The status
    code is one of the codes of the route, and a 500 carries the fixed
    message of the route. *)
Theorem routes_always_respond `{Platform} v req os w :
  (∃ resp, respond v os (processTranslation v req) w = Some resp ∧
     route_response (creating_codes v) "Failed to process translation request" resp) ∧
  (∃ resp, respond v os (getJobStatus v req) w = Some resp ∧
     route_response (reading_codes v) "Failed to fetch job status" resp) ∧
  (∃ resp, respond v os (getTranslationHistory v req) w = Some resp ∧
     route_response (reading_codes v) "Failed to fetch translation history" resp) ∧
  (∃ resp, respond v os (downloadFile v req) w = Some resp ∧
     route_response (download_codes v) "Failed to download file" resp).
Proof.
  unfold respond, handle. split_and!.
  - destruct (run_answers (processTranslationAsync v) _ _ os w
                (processTranslation_answers v req)) as (resp & -> & Hr). eauto.
  - destruct (run_answers (processTranslationAsync v) _ _ os w
                (getJobStatus_answers v req)) as (resp & -> & Hr). eauto.
  - destruct (run_answers (processTranslationAsync v) _ _ os w
                (getTranslationHistory_answers v req)) as (resp & -> & Hr). eauto.
  - destruct (run_answers (processTranslationAsync v) _ _ os w
                (downloadFile_answers v req)) as (resp & -> & Hr). eauto.
Qed.

(** ** The reading routes *)

Section Reads.

Context (start : DispatchArgs → Async unit).

Lemma effect_reading {X} (op : Op X) o w :
  reading op → (effect start op o w).2 = w.
Proof.
  destruct op as [R q| | | | | | | | | | |]; try contradiction; [destruct q|..];
    try contradiction; intros _; destruct o; simpl; repeat case_match; reflexivity.
Qed.

Lemma run_reads {A} (m : Async A) : ∀ os w, reads m → (run start os m w).2 = w.
Proof.
  induction m as [| | |X op k IH]; intros os w Hm; simpl; auto.
  destruct Hm as [Hop Hk].
  pose proof (effect_reading op (hd OOk os) w Hop) as He.
  destruct (effect start op (hd OOk os) w) as [r w1]. simpl in He. subst w1.
  apply IH, Hk.
Qed.

End Reads.

Ltac reading_only :=
  repeat (cbn [reads reading async_bind try_catch req_user head first_truthy Js.truthy] in *;
          first [ progress intros
                | match goal with
                  | |- _ ∧ _ => split
                  | |- True => exact I
                  | r : (_ + _)%type |- _ => destruct r
                  | |- context [match ?x with _ => _ end] => destruct x eqn:?
                  end ]).

Lemma read_routes_read `{Platform} v req :
  reads (getJobStatus v req) ∧ reads (getTranslationHistory v req) ∧
  reads (downloadFile v req).
Proof.
  destruct v, req as [[u|] ? ? ? ? ? ? ?]; route_unfold; split_and!; reading_only.
Qed.

(** X2.  The status, history and download routes never change anything:
    whatever their operations do, the tables, the files, the dropped promises
    and the logs are after the request what they were before it. *)
Theorem read_routes_change_nothing `{Platform} v req os w :
  (handle v os (getJobStatus v req) w).2 = w ∧
  (handle v os (getTranslationHistory v req) w).2 = w ∧
  (handle v os (downloadFile v req) w).2 = w.
Proof.
  destruct (read_routes_read v req) as (H1 & H2 & H3).
  unfold handle. split_and!; apply run_reads; assumption.
Qed.

(** ** Faults and responses *)

Section Blind.

Context (start : DispatchArgs → Async unit).

Lemma effect_blind {X} (op : Op X) o w :
  effect start op (blind o) w = effect start op o w ∨
  ∃ e e' w', effect start op o w = (inl e, w') ∧
             effect start op (blind o) w = (inl e', w').
Proof.
  destruct o; try (left; reflexivity).
  destruct op as [R q| | | | | | | | | | |]; simpl;
    try (left; reflexivity); try (right; eauto; fail).
  all: destruct (files w !! _); right; eauto.
Qed.

Lemma run_blind {A} (m : Async A) : ∀ os w,
  fault_blind m → (run start (blind <$> os) m w) = (run start os m w).
Proof.
  induction m as [| | |X op k IH]; intros os w Hm; try reflexivity.
  destruct Hm as [Hk Hm]. cbn [run].
  replace (hd OOk (blind <$> os)) with (blind (hd OOk os)) by (destruct os; reflexivity).
  replace (tl (blind <$> os)) with (blind <$> tl os) by (destruct os; reflexivity).
  destruct (effect_blind op (hd OOk os) w) as [-> | (e & e' & w' & -> & ->)].
  - destruct (effect start op (hd OOk os) w) as [r w1]. apply IH, Hm.
  - rewrite (Hk e' e). apply IH, Hm.
Qed.

End Blind.

Ltac blindly :=
  repeat (cbn [fault_blind async_bind try_catch req_user req_file head first_truthy
               Js.truthy] in *;
          first [ progress intros
                | match goal with
                  | |- _ ∧ _ => split
                  | |- True => exact I
                  | |- _ = _ => reflexivity
                  | r : (_ + _)%type |- _ => destruct r
                  | |- context [match ?x with _ => _ end] => destruct x eqn:?
                  end ]).

Lemma routes_fault_blind `{Platform} v req :
  fault_blind (processTranslation v req) ∧ fault_blind (getJobStatus v req) ∧
  fault_blind (getTranslationHistory v req) ∧ fault_blind (downloadFile v req).
Proof.
  destruct v, req as [[u|] [f|] ? ? ? ? ? ?]; route_unfold; split_and!; blindly.
Qed.

(** X3.  No route lets the detail of a fault out: the response to a
    request is the same whatever errors its failing operations fail
    with. *)
Theorem faults_are_not_disclosed `{Platform} v req os w :
  respond v (blind <$> os) (processTranslation v req) w
    = respond v os (processTranslation v req) w ∧
  respond v (blind <$> os) (getJobStatus v req) w
    = respond v os (getJobStatus v req) w ∧
  respond v (blind <$> os) (getTranslationHistory v req) w
    = respond v os (getTranslationHistory v req) w ∧
  respond v (blind <$> os) (downloadFile v req) w
    = respond v os (downloadFile v req) w.
Proof.
  destruct (routes_fault_blind v req) as (H1 & H2 & H3 & H4).
  unfold respond, handle. split_and!; rewrite run_blind; auto.
Qed.

(** ** Uploads *)

Lemma system_user_listed w u l :
  u_id <$> filter (λ u, u_email u = system_email) (users w) = u :: l →
  ∃ usr, usr ∈ users w ∧ u_id usr = u ∧ u_email usr = system_email.
Proof.
  intros E. destruct (filter _ (users w)) as [|usr rest] eqn:F; [discriminate|].
  injection E as Hu _. exists usr.
  assert (Hin : usr ∈ filter (λ u, u_email u = system_email) (users w))
    by (rewrite F; apply list_elem_of_here).
  apply list_elem_of_filter in Hin as [He Hin]. auto.
Qed.

(** Running [processTranslation]: either a row and a dispatch for it were
    appended and the answer is the 202 with the new id, or the answer is
    another one and neither table of jobs nor promises has changed. *)
Lemma processTranslation_run `{Platform} v req os w :
  let res := handle v os (processTranslation v req) w in
  files res.2 = files w ∧ executions res.2 = executions w ∧ now res.2 = now w ∧
  exited res.2 = exited w ∧
  ((∃ j file owner,
      res.1 = Ret (accepted v j) ∧ req_file req = Some file ∧
      (j ∉ id <$> translation_jobs w) ∧
      translation_jobs res.2 = translation_jobs w ++ [created_row j owner req file (now w)] ∧
      tasks res.2 =
        tasks w ++ [mkTask j (processTranslationAsync v (dispatch_of j req file))] ∧
      owner_of v req res.2 owner) ∨
   (∃ resp, res.1 = Ret resp ∧ code resp ≠ 202 ∧
      translation_jobs res.2 = translation_jobs w ∧ tasks res.2 = tasks w)).
Proof.
  unfold handle.
  assert (Hfresh : ∀ j : string, bool_decide (j ∈ id <$> translation_jobs w) = false →
                     j ∉ id <$> translation_jobs w)
    by (intros j Hj; by apply bool_decide_eq_false in Hj).
  destruct (run _ os (processTranslation v req) w) as [r w'] eqn:E. cbn zeta. cbn [fst snd].
  destruct v, req as [[u|] [f|] sl tl dt jid lim off]; route_unfold;
    cbn [run async_bind try_catch req_user req_file body_sourceLanguage body_targetLanguage
         body_documentType] in E.
  all: repeat first
         [ progress cbn [run effect Db.exec async_bind try_catch hd tail head fst snd] in E
         | match type of E with
           | context [match hd OOk ?l with _ => _ end] => destruct (hd OOk l) eqn:?
           | context [match u_id <$> ?l with _ => _ end] => destruct (u_id <$> l) eqn:?
           | context [if ?b then _ else _] => destruct b eqn:?
           end ].
  all: injection E as <- <-.
  all: try (split_and!; try reflexivity; right; eexists; split_and!;
            [reflexivity | discriminate | reflexivity | reflexivity]).
  all: split_and!; try reflexivity; left; eexists _, _, _;
    split_and!; try reflexivity; try (apply Hfresh; assumption).
  all: cbn [owner_of users set_tasks set_jobs set_users];
    first [ match goal with
            | E : u_id <$> filter _ (users ?w0) = _ :: _ |- _ =>
                destruct (system_user_listed w0 _ _ E) as (usr & ? & ? & ?);
                exists usr; split_and!; assumption
            end
          | eexists (mkUser _ _ _ _); split_and!;
            [apply elem_of_app; right; apply list_elem_of_here | reflexivity | reflexivity] ].
Qed.

(** X4.  An upload that is answered with 202 has appended exactly one
    pending row, with the fields of the request and of the uploaded file, a
    fresh id and the database time, and has started exactly one dispatch, for
    that row; the owner is the caller under the JWT controller and the system
    user otherwise.  An upload answered otherwise has added neither a row nor
    a dispatch.  In both cases files and executor calls are untouched. *)
Theorem upload_creates_one_job `{Platform} v req os w resp :
  respond v os (processTranslation v req) w = Some resp →
  let w' := (handle v os (processTranslation v req) w).2 in
  files w' = files w ∧ executions w' = executions w ∧
  (code resp = 202 →
   ∃ j file owner,
     resp = accepted v j ∧ req_file req = Some file ∧
     (j ∉ id <$> translation_jobs w) ∧
     translation_jobs w' = translation_jobs w ++ [created_row j owner req file (now w)] ∧
     tasks w' = tasks w ++ [mkTask j (processTranslationAsync v (dispatch_of j req file))] ∧
     owner_of v req w' owner) ∧
  (code resp ≠ 202 →
   translation_jobs w' = translation_jobs w ∧ tasks w' = tasks w).
Proof.
  intros Hresp w'. subst w'. unfold respond in Hresp.
  destruct (processTranslation_run v req os w) as (Hf & He & _ & _ & Hcases).
  split_and!; [exact Hf | exact He | |].
  - intros Hc. destruct Hcases as [(j & file & owner & Hr & Hrest) | (r & Hr & Hne & _)].
    + exists j, file, owner. split; [|exact Hrest].
      rewrite Hr in Hresp. by injection Hresp.
    + rewrite Hr in Hresp. injection Hresp as <-. contradiction.
  - intros Hc. destruct Hcases as [(j & file & owner & Hr & _) | (r & _ & _ & Hj & Ht)].
    + rewrite Hr in Hresp. injection Hresp as <-. by destruct Hc.
    + split; assumption.
Qed.

Lemma upload_creates_one_job_witness :
  let w' := (@handle Scenario.local _ JwtMock [ONewId "j1"]
               (processTranslation JwtMock Scenario.upload_request) Demo.world0).2 in
  @respond Scenario.local JwtMock [ONewId "j1"]
    (processTranslation JwtMock Scenario.upload_request) Demo.world0
    = Some (accepted JwtMock "j1") ∧
  files w' = files Demo.world0 ∧ executions w' = executions Demo.world0 ∧
  (code (accepted JwtMock "j1") = 202 →
   ∃ j file owner,
     accepted JwtMock "j1" = accepted JwtMock j ∧
     req_file Scenario.upload_request = Some file ∧
     (j ∉ id <$> translation_jobs Demo.world0) ∧
     translation_jobs w' =
       translation_jobs Demo.world0
         ++ [created_row j owner Scenario.upload_request file (now Demo.world0)] ∧
     tasks w' =
       tasks Demo.world0
         ++ [mkTask j (@processTranslationAsync Scenario.local JwtMock
                         (dispatch_of j Scenario.upload_request file))] ∧
     owner_of JwtMock Scenario.upload_request w' owner) ∧
  (code (accepted JwtMock "j1") ≠ 202 →
   translation_jobs w' = translation_jobs Demo.world0 ∧ tasks w' = tasks Demo.world0).
Proof.
  split; [reflexivity|].
  exact (@upload_creates_one_job Scenario.local JwtMock Scenario.upload_request
           [ONewId "j1"] Demo.world0 (accepted JwtMock "j1") eq_refl).
Defined.

Lemma where_id_fresh j rows r :
  j ∉ id <$> rows → id r = j → Db.where_id j (rows ++ [r]) = [r].
Proof.
  intros Hj Hr. unfold Db.where_id. rewrite filter_app.
  replace (filter (λ r, id r = j) rows) with (@nil Job).
  - simpl. rewrite filter_cons_True by exact Hr. reflexivity.
  - symmetry. induction rows as [|r' rows IH]; [reflexivity|].
    rewrite fmap_cons, not_elem_of_cons in Hj. destruct Hj as [Hne Hj].
    rewrite filter_cons_False by (intros Heq; apply Hne; symmetry; exact Heq).
    apply IH, Hj.
Qed.

(** ** Rows over the life of a server *)

Lemma row_step_identity strict t fs r r' :
  row_step strict t fs r r' → same_identity r r'.
Proof. destruct 1; repeat split. Qed.

Lemma row_step_terminal strict t fs r r' :
  row_step strict t fs r r' → status r = completed ∨ status r = failed → r' = r.
Proof.
  destruct 1 as [|Hs|? ? Hs _|? [Hs|Hs]]; intros [Ht|Ht]; congruence.
Qed.

Lemma same_identity_trans r1 r2 r3 :
  same_identity r1 r2 → same_identity r2 r3 → same_identity r1 r3.
Proof. unfold same_identity. intuition congruence. Qed.

Section Life.

Context `{Platform}.

(** A row of a state that satisfies the invariant is still there, at the
    same place, after any further events. *)
Lemma exec_rows v evs : ∀ w n r,
  Inv (strict_of v) (settled v) w →
  translation_jobs w !! n = Some r →
  ∃ r', translation_jobs (exec v evs w) !! n = Some r' ∧ same_identity r r' ∧
        (status r = completed ∨ status r = failed → r' = r).
Proof.
  induction evs as [|ev evs IH]; intros w n r HI Hn.
  - exists r. split_and!; auto. repeat split.
  - destruct (step_spec v ev w HI) as [HI' (olds & news & E & F & _)].
    destruct (Forall2_lookup_l _ _ _ _ _ F Hn) as (r1 & Hr1 & Hstep).
    assert (Hn1 : translation_jobs (step v ev w) !! n = Some r1)
      by (rewrite E; by apply lookup_app_l_Some).
    destruct (IH (step v ev w) n r1 HI' Hn1) as (r' & Hr' & Hid & Hterm).
    exists r'. split_and!; [exact Hr' | |].
    + eapply same_identity_trans; [eapply row_step_identity; eauto | exact Hid].
    + intros Ht. pose proof (row_step_terminal _ _ _ _ _ Hstep Ht) as ->. auto.
Qed.

End Life.

(** X6.  In every state a server reaches, whatever happens afterwards, a
    job keeps its place in the table, its id, its owner, the languages and
    document type it was created with, the name, path and size of the upload
    and its creation time: no route and no dispatch deletes a job or rewrites
    these columns. *)
Theorem job_identity_is_immutable `{Platform} v us fs t evs evs' n r :
  translation_jobs (exec v evs (boot us fs t)) !! n = Some r →
  ∃ r', translation_jobs (exec v evs' (exec v evs (boot us fs t))) !! n = Some r' ∧
        same_identity r r'.
Proof.
  intros Hn.
  destruct (exec_rows v evs' _ n r (reachable_inv v us fs t evs) Hn) as (r' & Hr' & Hid & _).
  exists r'. split; assumption.
Qed.

Lemma job_identity_is_immutable_witness :
  let w := @exec Scenario.local JwtMock Scenario.posted Demo.world0 in
  translation_jobs w !! 0%nat = Some (Scenario.pending_row "alice") ∧
  ∃ r', translation_jobs (@exec Scenario.local JwtMock (replicate 6 (Resume 0 OOk)) w)
          !! 0%nat = Some r' ∧
        same_identity (Scenario.pending_row "alice") r'.
Proof.
  split; [reflexivity|].
  exact (@job_identity_is_immutable Scenario.local JwtMock [Demo.system_user]
           Demo.storage 0%nat Scenario.posted (replicate 6 (Resume 0 OOk)) 0%nat
           (Scenario.pending_row "alice") eq_refl).
Defined.

(** X7.  In every state a server reaches, a job that is completed or
    failed is never written again: whatever happens afterwards, its row stays
    exactly as it is, output reference, error message and completion time
    included. *)
Theorem finished_jobs_are_frozen `{Platform} v us fs t evs evs' n r :
  translation_jobs (exec v evs (boot us fs t)) !! n = Some r →
  status r = completed ∨ status r = failed →
  translation_jobs (exec v evs' (exec v evs (boot us fs t))) !! n = Some r.
Proof.
  intros Hn Ht.
  destruct (exec_rows v evs' _ n r (reachable_inv v us fs t evs) Hn) as (r' & Hr' & _ & Hsame).
  rewrite Hr'. f_equal. apply Hsame, Ht.
Qed.

Lemma finished_jobs_are_frozen_witness :
  let w := @exec Scenario.local JwtMock Scenario.translated Demo.world0 in
  let later := [Tick; Resume 0 OOk; Post Scenario.upload_request [ONewId "j2"]; Resume 0 OOk] in
  translation_jobs w !! 0%nat = Some (Scenario.completed_row "alice") ∧
  (status (Scenario.completed_row "alice") = completed ∨
   status (Scenario.completed_row "alice") = failed) ∧
  translation_jobs (@exec Scenario.local JwtMock later w) !! 0%nat
    = Some (Scenario.completed_row "alice").
Proof.
  assert (Hn : translation_jobs (@exec Scenario.local JwtMock Scenario.translated Demo.world0)
                 !! 0%nat = Some (Scenario.completed_row "alice"))
    by (vm_compute; reflexivity).
  assert (Ht : status (Scenario.completed_row "alice") = completed ∨
               status (Scenario.completed_row "alice") = failed) by (left; reflexivity).
  split_and!; [exact Hn | exact Ht |].
  exact (@finished_jobs_are_frozen Scenario.local JwtMock [Demo.system_user]
           Demo.storage 0%nat Scenario.translated
           [Tick; Resume 0 OOk; Post Scenario.upload_request [ONewId "j2"]; Resume 0 OOk]
           0%nat (Scenario.completed_row "alice") Hn Ht).
Defined.

(** ** Timestamps *)

Section Clock.

Context `{Platform}.

(** The database clock never goes back. *)
Lemma step_now v ev w :
  Inv (strict_of v) (settled v) w → (now w ≤ now (step v ev w))%nat.
Proof.
  intros HI. destruct ev as [|req os|i o]; simpl.
  - lia.
  - destruct (exited w); [lia|].
    destruct (processTranslation_run v req os w) as (_ & _ & -> & _). lia.
  - destruct (resume_spec (processTranslationAsync v) (strict_of v) (settled v) w i o HI)
      as (_ & _ & ->). lia.
Qed.

Lemma step_dated v ev w :
  Inv (strict_of v) (settled v) w →
  dated (now w) (translation_jobs w) ∧ in_creation_order (translation_jobs w) →
  dated (now (step v ev w)) (translation_jobs (step v ev w)) ∧
  in_creation_order (translation_jobs (step v ev w)).
Proof.
  intros HI [Hd Ho].
  pose proof (step_now v ev w HI) as Hnow.
  destruct (step_spec v ev w HI) as [_ (olds & news & E & F & N)].
  rewrite E.
  assert (Hold : ∀ n r', olds !! n = Some r' →
            ∃ r, translation_jobs w !! n = Some r ∧
                 row_step (strict_of v) (now w) (files (step v ev w)) r r').
  { intros n r' Hn. destruct (Forall2_lookup_r _ _ _ _ _ F Hn) as (r & Hr & Hs). eauto. }
  assert (Hnew : ∀ n r', news !! n = Some r' → created_at r' = now w ∧ completed_at r' = None).
  { intros n r' Hn. rewrite Forall_lookup in N. destruct (N n r' Hn) as (_&_&_&_&Hc&Ht). auto. }
  split.
  - intros r' Hr'. apply elem_of_app in Hr' as [Hr'|Hr'];
      apply list_elem_of_lookup in Hr' as [n Hn].
    + destruct (Hold n r' Hn) as (r & Hr & Hs).
      destruct (Hd r (list_elem_of_lookup_2 _ _ _ Hr)) as [Hc Hdone].
      destruct Hs as [|Hs|? ? Hs _|? Hs]; simpl; split; try lia;
        try (intros c Hcd; destruct (Hdone c Hcd); lia).
      intros c [= <-]. lia.
    + destruct (Hnew n r' Hn) as [-> ->]. split; [lia | discriminate].
  - intros m n r1 r2 Hmn H1 H2.
    assert (Hkeep : ∀ k r', olds !! k = Some r' →
              ∃ r, translation_jobs w !! k = Some r ∧ created_at r' = created_at r).
    { intros k r' Hk. destruct (Hold k r' Hk) as (r & Hr & Hs). exists r. split; auto.
      apply row_step_identity in Hs. apply Hs. }
    apply lookup_app_Some in H1 as [H1|[Hm H1]];
      apply lookup_app_Some in H2 as [H2|[Hn H2]].
    + destruct (Hkeep m r1 H1) as (a & Ha & ->). destruct (Hkeep n r2 H2) as (b & Hb & ->).
      eapply Ho; eauto.
    + destruct (Hkeep m r1 H1) as (a & Ha & ->). destruct (Hnew _ r2 H2) as [-> _].
      destruct (Hd a (list_elem_of_lookup_2 _ _ _ Ha)) as [Hc _]. exact Hc.
    + apply lookup_lt_Some in H2. lia.
    + destruct (Hnew _ r1 H1) as [-> _]. destruct (Hnew _ r2 H2) as [-> _]. lia.
Qed.

Lemma exec_dated v evs : ∀ w,
  Inv (strict_of v) (settled v) w →
  dated (now w) (translation_jobs w) ∧ in_creation_order (translation_jobs w) →
  dated (now (exec v evs w)) (translation_jobs (exec v evs w)) ∧
  in_creation_order (translation_jobs (exec v evs w)).
Proof.
  induction evs as [|ev evs IH]; intros w HI Hd; [exact Hd|].
  apply (IH (step v ev w)); [apply step_spec, HI | apply step_dated; assumption].
Qed.

End Clock.

(** X8.  In every state a server reaches, no job was created after the
    current database time, a completion time lies between the creation time
    of its job and the current time, and the table holds the jobs in the
    order of their creation. *)
Theorem timestamps_are_ordered `{Platform} v us fs t evs :
  let w := exec v evs (boot us fs t) in
  dated (now w) (translation_jobs w) ∧ in_creation_order (translation_jobs w).
Proof.
  apply exec_dated; [apply boot_inv|]. split.
  - intros r Hr. by apply elem_of_nil in Hr.
  - intros m n r r' _ Hm. discriminate Hm.
Qed.

(** ** Jobs and their dispatches *)

Section Paired.

Context `{Platform}.

(** Resuming a dropped promise adds or removes neither a job nor a
    promise. *)
Lemma resume_ids v w i o :
  Inv (strict_of v) (settled v) w →
  let w' := resume (processTranslationAsync v) i o w in
  id <$> translation_jobs w' = id <$> translation_jobs w ∧
  task_job <$> tasks w' = task_job <$> tasks w.
Proof.
  intros HI. cbn zeta.
  destruct (exited w) eqn:He; [rewrite resume_other by auto; auto|].
  destruct (tasks w !! i) as [[j body]|] eqn:Hi; [|rewrite resume_other by auto; auto].
  destruct body as [| | |X op k];
    try (rewrite resume_other by (right; right; eexists _, _; split; [eauto|exact I]); auto).
  rewrite (resume_await _ w i o j op k He Hi).
  assert (Hin : mkTask j (Await op k) ∈ tasks w) by (eapply list_elem_of_lookup_2; eauto).
  destruct (inv_task_ok _ _ _ HI _ Hin) as (r0 & wr & Hr0 & Hid0 & Hst & Hs).
  cbn [task_job task_body] in *.
  pose proof (effect_safe (processTranslationAsync v) _ _ j (status r0) wr op k o w Hs Hst)
    as Heff.
  destruct (effect (processTranslationAsync v) op o w) as [rep w1].
  simpl in Heff. cbn [fst snd].
  destruct Heff as (Hjobs & Htasks & Hf & _).
  assert (E : ∀ w2 : World,
            translation_jobs (if settled_badly (k rep) then set_exited true w2 else w2)
              = translation_jobs w2 ∧
            tasks (if settled_badly (k rep) then set_exited true w2 else w2) = tasks w2)
    by (intros w2; destruct (settled_badly (k rep)); split; reflexivity).
  destruct (E (set_tasks (<[i:=mkTask j (k rep)]>) w1)) as [-> ->]. simpl.
  split.
  - rewrite Hjobs. apply update_where_id_ids, Hf.
  - rewrite Htasks, list_fmap_insert. simpl.
    apply list_insert_id. rewrite list_lookup_fmap, Hi. reflexivity.
Qed.

Lemma step_paired v ev w :
  Inv (strict_of v) (settled v) w →
  task_job <$> tasks w = id <$> translation_jobs w →
  task_job <$> tasks (step v ev w) = id <$> translation_jobs (step v ev w).
Proof.
  intros HI Hp. destruct ev as [|req os|i o]; simpl.
  - exact Hp.
  - destruct (exited w); [exact Hp|].
    destruct (processTranslation_run v req os w)
      as (_ & _ & _ & _ & [(j & file & owner & _ & _ & _ & -> & -> & _) | (r & _ & _ & -> & ->)]);
      [|exact Hp].
    rewrite !fmap_app, Hp. reflexivity.
  - destruct (resume_ids v w i o HI) as [-> ->]. exact Hp.
Qed.

Lemma exec_paired v evs : ∀ w,
  Inv (strict_of v) (settled v) w →
  task_job <$> tasks w = id <$> translation_jobs w →
  task_job <$> tasks (exec v evs w) = id <$> translation_jobs (exec v evs w).
Proof.
  induction evs as [|ev evs IH]; intros w HI Hp; [exact Hp|].
  apply (IH (step v ev w)); [apply step_spec, HI | apply step_paired; assumption].
Qed.

End Paired.

(** X9.  In every state a server reaches, the jobs and the dispatches
    that were started correspond one to one, in the order of creation: every
    job has exactly one [processTranslationAsync] call, started when the job
    was inserted, and there is no call without a job. *)
Theorem every_job_has_one_dispatch `{Platform} v us fs t evs :
  let w := exec v evs (boot us fs t) in
  task_job <$> tasks w = id <$> translation_jobs w ∧
  NoDup (id <$> translation_jobs w) ∧
  length (tasks w) = length (translation_jobs w).
Proof.
  cbn zeta.
  assert (Hp : task_job <$> tasks (exec v evs (boot us fs t))
               = id <$> translation_jobs (exec v evs (boot us fs t)))
    by (apply exec_paired; [apply boot_inv | reflexivity]).
  split_and!.
  - exact Hp.
  - apply (inv_ids _ _ _ (reachable_inv v us fs t evs)).
  - rewrite <- (length_fmap task_job), Hp, length_fmap. reflexivity.
Qed.

(** ** One dispatch, step by step *)

Section Following.

Context (start : DispatchArgs → Async unit).

(** Operations other than [Detach] neither read nor write the dropped
    promises and the exit flag. *)
Lemma effect_frame {X} (op : Op X) o w b f :
  match op with Detach _ => False | _ => True end →
  effect start op o (set_exited b (set_tasks f w)) =
    ((effect start op o w).1, set_exited b (set_tasks f (effect start op o w).2)).
Proof.
  destruct op as [R q| | | | | | | | | | |]; try contradiction; intros _;
    [destruct q|..]; destruct o; simpl; repeat case_match; reflexivity.
Qed.

Lemma following_resume ts j {X} (op : Op X) k o w :
  match op with Detach _ => False | _ => True end →
  resume start (length ts) o (following ts j (Await op k) w) =
    following ts j (k (effect start op o w).1) (effect start op o w).2.
Proof.
  intros Hop. unfold following, resume. cbn [settled_badly].
  change (exited (set_exited false ?x)) with false. cbn iota.
  change (tasks (set_exited false (set_tasks (λ _, ?l) ?x))) with l.
  rewrite list_lookup_middle by reflexivity.
  rewrite (effect_frame op o w false _ Hop).
  destruct (effect start op o w) as [r w1]. cbn [fst snd].
  assert (E : <[length ts := mkTask j (k r)]> (ts ++ [mkTask j (Await op k)])
              = ts ++ [mkTask j (k r)]).
  { rewrite insert_app_r_alt by lia. by rewrite Nat.sub_diag. }
  unfold set_tasks, set_exited. simpl. rewrite E.
  destruct (settled_badly (k r)); reflexivity.
Qed.

Lemma following_settled ts j (m : Async unit) o w :
  match m with Await _ _ => False | _ => True end →
  resume start (length ts) o (following ts j m w) = following ts j m w.
Proof.
  intros Hm. apply resume_other.
  destruct m as [[]| | |]; try contradiction.
  - right. right. exists j, (Ret ()). split; [|exact I].
    unfold following. simpl. by rewrite list_lookup_middle.
  - left. reflexivity.
  - left. reflexivity.
Qed.

Lemma steps_settled {A} os (m : Async A) w :
  match m with Await _ _ => False | _ => True end → steps start os m w = (m, w).
Proof. destruct os, m; try reflexivity; contradiction. Qed.

(** Resuming the promise dropped last, with nothing in between, runs its
    body operation by operation. *)
Lemma following_steps ts j : ∀ os (m : Async unit) w,
  detach_free m →
  foldl (λ w o, resume start (length ts) o w) (following ts j m w) os =
    following ts j (steps start os m w).1 (steps start os m w).2.
Proof.
  induction os as [|o os IH]; intros m w Hm; [reflexivity|].
  destruct m as [a| | |X op k]; cbn [foldl steps].
  - rewrite following_settled by exact I. rewrite IH by exact Hm.
    by rewrite !steps_settled.
  - rewrite following_settled by exact I. rewrite IH by exact Hm.
    by rewrite !steps_settled.
  - rewrite following_settled by exact I. rewrite IH by exact Hm.
    by rewrite !steps_settled.
  - destruct Hm as [Hop Hk]. rewrite following_resume by exact Hop.
    destruct (effect start op o w) as [r w1]. cbn [fst snd]. apply IH, Hk.
Qed.

(** Once the body has settled, the steps are a run. *)
Lemma steps_run {A} : ∀ os (m : Async A) w,
  match (steps start os m w).1 with Await _ _ => False | _ => True end →
  steps start os m w = run start os m w.
Proof.
  induction os as [|o os IH]; intros m w Hs.
  - destruct m; try reflexivity. contradiction.
  - destruct m as [| | |X op k]; try reflexivity.
    cbn [steps run hd tail] in *. destruct (effect start op o w) as [r w1]. apply IH, Hs.
Qed.

End Following.

Lemma exec_resumes `{Platform} v n : ∀ os w,
  exec v (Resume n <$> os) w =
    foldl (λ w o, resume (processTranslationAsync v) n o w) w os.
Proof.
  induction os as [|o os IH]; intros w; [reflexivity|]. apply IH.
Qed.

Lemma dispatch_detach_free `{Platform} v a : detach_free (processTranslationAsync v a).
Proof.
  destruct v; async_unfold;
    repeat (cbn [detach_free async_bind try_catch unguarded_callback] in *;
            first [ progress intros
                  | match goal with
                    | |- _ ∧ _ => split
                    | |- True => exact I
                    | r : (_ + _)%type |- _ => destruct r
                    | |- context [if ?b then _ else _] => destruct b eqn:?
                    | |- context [match ?x with _ => _ end] => destruct x eqn:?
                    end ]).
Qed.

(** ** The executors that copy *)

Lemma faultless_hd os : faultless os → ok (hd OOk os) = true ∧ faultless (tail os).
Proof.
  unfold faultless. destruct os as [|o os]; simpl; [auto|].
  intros Ho. apply andb_true_iff in Ho. exact Ho.
Qed.

Ltac next_outcome Hos :=
  let Ho := fresh "Ho" in
  apply faultless_hd in Hos as [Ho Hos];
  match type of Ho with
  | ok (hd OOk ?l) = true => destruct (hd OOk l) eqn:?; try discriminate Ho
  end;
  clear Ho.

Ltac skip_outcome Hos := apply faultless_hd in Hos as [_ Hos].

(** X10.  Where the executor copies (the JWT controller; the other two
    without interpreter script or API configuration), a translation with no
    fault writes the bytes of the source at the target path and changes
    nothing else.  When the source cannot be read, nothing is written: under
    the JWT controller the executor rejects, under the other two the error
    is thrown in a timer callback that nothing guards. *)
Theorem copy_executor `{Platform} v source target sl tl dt os w :
  copies v w →
  let result := handle v os (translateDocument v source target sl tl dt) w in
  (∀ content, files w !! source = Some content → faultless os →
     result = (Ret (), set_files (insert target content) w)) ∧
  (files w !! source = None →
     ∃ e, result = (if decide (v = JwtMock) then Throw e else Uncaught e, w)).
Proof.
  intros Hc. cbn zeta. unfold handle.
  destruct v; unfold copies in Hc; async_unfold; simpl decide.
  - (* subprocess, without script *)
    cbn [run effect async_bind]. rewrite Hc.
    rewrite bool_decide_eq_false_2 by (intros [? [=]]).
    cbn [negb unguarded_callback async_bind run effect fst snd]. split.
    + intros content Hs Hos. rewrite Hs.
      do 2 skip_outcome Hos. next_outcome Hos;
        cbn [unguarded_callback async_bind run effect fst snd];
        next_outcome Hos; reflexivity.
    + intros Hs. rewrite Hs.
      destruct (hd OOk (tail (tail os))); eexists; reflexivity.
  - (* JWT *)
    cbn [run effect async_bind try_catch fst snd]. split.
    + intros content Hs Hos. rewrite Hs.
      skip_outcome Hos. next_outcome Hos;
        cbn [try_catch async_bind run effect fst snd];
        next_outcome Hos; reflexivity.
    + intros Hs. rewrite Hs.
      destruct (hd OOk (tail os)); eexists; reflexivity.
  - (* remote API, not configured *)
    replace (negb (Js.truthy EXTERNAL_TRANSLATION_API_URL)
             || negb (Js.truthy EXTERNAL_TRANSLATION_API_KEY)) with true
      by (destruct Hc as [-> | ->]; simpl; [reflexivity | by rewrite orb_true_r]).
    cbn [unguarded_callback async_bind run effect fst snd]. split.
    + intros content Hs Hos. rewrite Hs.
      skip_outcome Hos. next_outcome Hos;
        cbn [unguarded_callback async_bind run effect fst snd];
        next_outcome Hos; reflexivity.
    + intros Hs. rewrite Hs.
      destruct (hd OOk (tail os)); eexists; reflexivity.
Qed.

Lemma copy_executor_witness :
  let source := "/srv/uploads/original/1_doc.txt" in
  let result :=
    @handle Scenario.local _ Subprocess []
      (@translateDocument Scenario.local Subprocess source Scenario.output_path "en" "es" "txt")
      Demo.world0 in
  @copies Scenario.local Subprocess Demo.world0 ∧
  (∀ content, files Demo.world0 !! source = Some content → faultless [] →
     result = (Ret (), set_files (insert Scenario.output_path content) Demo.world0)) ∧
  (files Demo.world0 !! source = None →
     ∃ e, result = (if decide (Subprocess = JwtMock) then Throw e else Uncaught e,
                    Demo.world0)).
Proof.
  assert (Hc : @copies Scenario.local Subprocess Demo.world0) by reflexivity.
  split; [exact Hc|].
  exact (@copy_executor Scenario.local Subprocess "/srv/uploads/original/1_doc.txt"
           Scenario.output_path "en" "es" "txt" [] Demo.world0 Hc).
Defined.

(** ** The subprocess executor *)

(** X11.  With the interpreter script installed and the temporary script
    written, the subprocess executor resolves exactly when the child exits
    with code 0 and its trimmed output contains the success marker; the
    second test of the source, on a document extension, never decides
    anything.  Otherwise it rejects with [python_error].  Whenever the child
    has closed and the unlink does not fail, the temporary script is gone
    afterwards. *)
Theorem subprocess_executor `{Platform} source target sl tl dt os w closed :
  is_Some (files w !! pythonTranslatorPath) →
  ok (hd OOk (tail (tail os))) = true →
  hd OOk (tail (tail (tail os))) = OProc closed →
  let result :=
    handle Subprocess os (translateDocument_subprocess source target sl tl dt) w in
  let succeeded :=
    bool_decide (exit_code closed = Some 0)
    && Js.includes "SUCCESS:" (Js.trim (stdout closed)) in
  result.1 = (if succeeded then Ret ()
              else Throw (python_error (exit_code closed) (stdout closed) (stderr closed))) ∧
  (ok (hd OOk (tail (tail (tail (tail os))))) = true →
   files result.2 !! tempScriptPath (now w) = None) ∧
  translation_jobs result.2 = translation_jobs w.
Proof.
  intros Hscript Hwrite Hproc. cbn zeta. unfold handle, translateDocument_subprocess.
  cbv [query perform mbind mret Async_bind Async_ret].
  cbn [run effect async_bind]. rewrite (bool_decide_eq_true_2 _ Hscript).
  cbn [negb run effect async_bind fst snd].
  destruct (hd OOk (tail (tail os))) eqn:Ho3; try discriminate Hwrite;
    cbn [run effect async_bind fst snd]; rewrite Hproc;
    cbn [run effect async_bind try_catch fst snd files set_files].
  all: match goal with
       | |- context [foldr ?f ?fs ?l !! ?p] =>
           assert (Hthere : is_Some (foldr f fs l !! p))
             by (apply (grows_inserts true _ (written closed) eq_refl);
                 rewrite lookup_insert_eq; eauto)
       end.
  all: destruct Hthere as [script Hthere]; rewrite Hthere.
  all: destruct (hd OOk (tail (tail (tail (tail os))))) eqn:Ho5;
    cbn [run effect async_bind try_catch fst snd files set_files translation_jobs].
  all: destruct (bool_decide (exit_code closed = Some 0)
                 && Js.includes "SUCCESS:" (Js.trim (stdout closed))) eqn:Hok;
    cbn [andb run effect async_bind try_catch fst snd files set_files translation_jobs].
  all: split_and!; try reflexivity; try discriminate.
  all: intros _; apply lookup_delete_eq.
Qed.

Lemma subprocess_executor_witness :
  let os := [OOk; OOk; OOk; OProc Scenario.interpreter_result] in
  let w := Scenario.scripted_world in
  let result :=
    @handle Scenario.local _ Subprocess os
      (@translateDocument_subprocess Scenario.local
         "/srv/uploads/original/1_doc.txt" Scenario.output_path "en" "es" "txt") w in
  is_Some (files w !! @pythonTranslatorPath Scenario.local) ∧
  ok (hd OOk (tail (tail os))) = true ∧
  hd OOk (tail (tail (tail os))) = OProc Scenario.interpreter_result ∧
  result.1 = Ret () ∧
  (ok (hd OOk (tail (tail (tail (tail os))))) = true →
   files result.2 !! @tempScriptPath Scenario.local (now w) = None) ∧
  translation_jobs result.2 = translation_jobs w.
Proof.
  assert (Hs : is_Some (files Scenario.scripted_world !! @pythonTranslatorPath Scenario.local))
    by (eexists; reflexivity).
  split; [exact Hs|]. split; [reflexivity|]. split; [reflexivity|].
  exact (@subprocess_executor Scenario.local
           "/srv/uploads/original/1_doc.txt" Scenario.output_path "en" "es" "txt"
           [OOk; OOk; OOk; OProc Scenario.interpreter_result] Scenario.scripted_world
           Scenario.interpreter_result Hs eq_refl eq_refl).
Defined.

(** ** From the upload to the download *)

Lemma where_id_update j f rows :
  (∀ r, id (f r) = id r) →
  Db.where_id j (Db.update_where_id j f rows) = f <$> Db.where_id j rows.
Proof.
  intros Hf. unfold Db.where_id, Db.update_where_id.
  induction rows as [|r rows IH]; [reflexivity|].
  rewrite fmap_cons. destruct (decide (id r = j)) as [Hr|Hr].
  - rewrite !filter_cons_True by (rewrite ?Hf; exact Hr). rewrite fmap_cons, IH. reflexivity.
  - rewrite !filter_cons_False by exact Hr. exact IH.
Qed.

Lemma posted_following `{Platform} v j (row : Job) (a : DispatchArgs) w :
  exited w = false → d_jobId a = j →
  set_tasks (λ ts, ts ++ [mkTask (d_jobId a) (processTranslationAsync v a)])
    (set_jobs (λ rows, rows ++ [row]) w)
  = following (tasks w) j (processTranslationAsync v a)
      (set_jobs (λ rows, rows ++ [row]) w).
Proof.
  intros Hx <-. unfold following. rewrite dispatch_waits.
  unfold set_tasks, set_jobs, set_exited. simpl. rewrite Hx. reflexivity.
Qed.

Lemma exec_cons `{Platform} v ev evs w : exec v (ev :: evs) w = exec v evs (step v ev w).
Proof. reflexivity. Qed.

(** The world after an upload and its copying dispatch, run to the end
    with no fault. *)
Lemma copied_run `{Platform} v req file content j w :
  copies v w →
  identified v req w →
  req_file req = Some file →
  files w !! path file = Some content →
  j ∉ id <$> translation_jobs w →
  exited w = false →
  ∃ owner,
    owner_of v req w owner ∧
    exec v (Post req (upload_outcomes v j)
              :: (Resume (length (tasks w)) <$> replicate 8 OOk)) w
    = mkWorld (users w)
        (Db.update_where_id j
           (Db.with_completed completed (output_name j file) (output_file j file) (now w))
           (Db.update_where_id j (Db.with_status processing)
              (translation_jobs w ++ [created_row j owner req file (now w)])))
        (<[output_file j file := content]> (files w))
        (now w)
        (tasks w ++ [mkTask j (Ret ())])
        (j :: executions w) (fetched w) false.
Proof.
  intros Hc Hid Hfile Hsrc Hfresh Hx.
  rewrite exec_cons. cbn [step]. rewrite Hx.
  apply (bool_decide_eq_false_2 (j ∈ id <$> translation_jobs w)) in Hfresh.
  unfold handle, upload_outcomes.
  destruct v; unfold identified in Hid.
  - (* subprocess *)
    destruct (u_id <$> filter (λ u, u_email u = system_email) (users w))
      as [|owner others] eqn:Hsys; [by destruct Hid|].
    exists owner. split; [exact (system_user_listed w owner others Hsys)|].
    route_unfold. rewrite Hfile. rewrite decide_False by discriminate.
    cbn [run effect Db.exec async_bind try_catch hd tail head fst snd]. rewrite Hsys.
    cbn [run effect Db.exec async_bind try_catch hd tail head fst snd]. rewrite Hfresh.
    cbn [run effect Db.exec async_bind try_catch hd tail head fst snd].
    rewrite (posted_following Subprocess j) by (assumption || reflexivity).
    rewrite exec_resumes, following_steps by apply dispatch_detach_free.
    async_unfold.
    cbn [replicate steps effect Db.exec fst snd users set_jobs]. rewrite Hsys.
    cbn [length Nat.ltb Nat.leb replicate steps effect Db.exec async_bind try_catch fst snd
         d_jobId d_sourcePath d_originalFilename d_sourceLanguage d_targetLanguage
         d_documentType files set_jobs set_files set_executions].
    rewrite Hc. rewrite bool_decide_eq_false_2 by (intros [? [=]]).
    cbn [negb unguarded_callback replicate steps effect Db.exec async_bind try_catch fst snd
         files set_jobs set_files set_executions].
    rewrite Hsrc.
    cbn [negb unguarded_callback replicate steps effect Db.exec async_bind try_catch fst snd
         files set_jobs set_files set_executions].
    reflexivity.
  - (* JWT *)
    destruct (req_user req) as [user|] eqn:Hu; [|by destruct Hid].
    exists (userId user). split; [unfold owner_of; by rewrite Hu|].
    route_unfold. rewrite Hu, Hfile. rewrite decide_True by reflexivity.
    cbn [run effect Db.exec async_bind try_catch hd tail head fst snd]. rewrite Hfresh.
    cbn [run effect Db.exec async_bind try_catch hd tail head fst snd].
    rewrite (posted_following JwtMock j) by (assumption || reflexivity).
    rewrite exec_resumes, following_steps by apply dispatch_detach_free.
    async_unfold.
    cbn [replicate steps effect Db.exec async_bind try_catch fst snd
         d_jobId d_sourcePath d_originalFilename d_sourceLanguage d_targetLanguage
         d_documentType files set_jobs set_files set_executions].
    rewrite Hsrc.
    cbn [replicate steps effect Db.exec async_bind try_catch fst snd
         files set_jobs set_files set_executions].
    reflexivity.
  - (* remote API, not configured *)
    destruct (u_id <$> filter (λ u, u_email u = system_email) (users w))
      as [|owner others] eqn:Hsys; [by destruct Hid|].
    exists owner. split; [exact (system_user_listed w owner others Hsys)|].
    route_unfold. rewrite Hfile. rewrite decide_False by discriminate.
    cbn [run effect Db.exec async_bind try_catch hd tail head fst snd]. rewrite Hsys.
    cbn [run effect Db.exec async_bind try_catch hd tail head fst snd]. rewrite Hfresh.
    cbn [run effect Db.exec async_bind try_catch hd tail head fst snd].
    rewrite (posted_following RemoteApi j) by (assumption || reflexivity).
    rewrite exec_resumes, following_steps by apply dispatch_detach_free.
    async_unfold.
    replace (negb (Js.truthy EXTERNAL_TRANSLATION_API_URL)
             || negb (Js.truthy EXTERNAL_TRANSLATION_API_KEY)) with true
      by (destruct Hc as [-> | ->]; simpl; [reflexivity | by rewrite orb_true_r]).
    cbn [replicate steps effect Db.exec fst snd users set_jobs]. rewrite Hsys.
    cbn [length Nat.ltb Nat.leb unguarded_callback replicate steps effect Db.exec
         async_bind try_catch fst snd
         d_jobId d_sourcePath d_originalFilename d_sourceLanguage d_targetLanguage
         d_documentType files set_jobs set_files set_executions].
    rewrite Hsrc.
    cbn [unguarded_callback replicate steps effect Db.exec async_bind try_catch fst snd
         files set_jobs set_files set_executions].
    reflexivity.
Qed.

(** X12.  From the upload to the download, where the executor copies: an
    upload of a stored file that is given a fresh id, followed by the steps
    of its dispatch with no fault and nothing in between, leaves the job
    completed, with the database time as completion time and the output
    named after the job id and the extension of the upload; the output file
    holds the bytes of the upload, no other file has changed, and the
    download route then answers 200 with that name and those bytes. *)
Theorem copied_translation_round_trip `{Platform} v req file content j w :
  copies v w →
  identified v req w →
  req_file req = Some file →
  files w !! path file = Some content →
  j ∉ id <$> translation_jobs w →
  exited w = false →
  let w' :=
    exec v (Post req (upload_outcomes v j)
              :: (Resume (length (tasks w)) <$> replicate 8 OOk)) w in
  (∃ owner,
     owner_of v req w owner ∧
     job_row j w' =
       Some (Db.with_completed completed (output_name j file) (output_file j file) (now w)
               (created_row j owner req file (now w)))) ∧
  files w' = <[output_file j file := content]> (files w) ∧
  respond v [] (downloadFile v (with_job j req)) w'
    = Some (mkResponse 200 (FileBody (output_name j file) content)).
Proof.
  intros Hc Hid Hfile Hsrc Hfresh Hx. cbn zeta.
  destruct (copied_run v req file content j w Hc Hid Hfile Hsrc Hfresh Hx)
    as (owner & Hown & ->).
  set (row := created_row j owner req file (now w)).
  set (done := Db.with_completed completed (output_name j file) (output_file j file)
                 (now w) row).
  assert (Hrow : Db.where_id j
            (Db.update_where_id j
               (Db.with_completed completed (output_name j file) (output_file j file) (now w))
               (Db.update_where_id j (Db.with_status processing)
                  (translation_jobs w ++ [row]))) = [done]).
  { rewrite !where_id_update by reflexivity.
    rewrite where_id_fresh by (assumption || reflexivity). reflexivity. }
  split_and!.
  - exists owner. split; [exact Hown|]. unfold job_row. cbn [translation_jobs].
    rewrite Hrow. reflexivity.
  - reflexivity.
  - assert (Hthere : bool_decide
              (is_Some (<[output_file j file := content]> (files w) !! output_file j file))
              = true)
      by (apply bool_decide_eq_true_2; rewrite lookup_insert_eq; eauto).
    unfold respond, handle.
    destruct v; route_unfold; unfold identified, owner_of in *;
      cbn [with_job req_user params_jobId].
    + destruct Hid as [u Hu]. route_run. cbn [users]. rewrite Hu. route_run.
      cbn [translation_jobs]. rewrite Hrow. subst done. route_run.
      cbn [Db.with_completed status translated_file_path translated_filename default].
      rewrite (bool_decide_eq_true_2 (completed = completed)) by reflexivity.
      route_run. cbn [files]. rewrite Hthere. route_run. cbn [files].
      rewrite lookup_insert_eq. reflexivity.
    + destruct (req_user req) as [user|] eqn:Hu; [|by destruct Hid].
      injection Hown as <-. route_run.
      cbn [translation_jobs]. rewrite Hrow. subst done row. route_run.
      cbn [Db.with_completed created_row user_id status translated_file_path
           translated_filename default].
      rewrite (bool_decide_eq_true_2 (userId user = userId user)) by reflexivity.
      rewrite (bool_decide_eq_true_2 (completed = completed)) by reflexivity.
      route_run. cbn [files]. rewrite Hthere. route_run. cbn [files].
      rewrite lookup_insert_eq. reflexivity.
    + destruct Hid as [u Hu]. route_run. cbn [users]. rewrite Hu. route_run.
      cbn [translation_jobs]. rewrite Hrow. subst done. route_run.
      cbn [Db.with_completed status translated_file_path translated_filename default].
      rewrite (bool_decide_eq_true_2 (completed = completed)) by reflexivity.
      route_run. cbn [files]. rewrite Hthere. route_run. cbn [files].
      rewrite lookup_insert_eq. reflexivity.
Qed.

Lemma copied_translation_round_trip_witness :
  let w := Demo.world0 in
  let req := Scenario.upload_request in
  let w' :=
    @exec Scenario.local JwtMock
      (Post req (upload_outcomes JwtMock "j1")
         :: (Resume (length (tasks w)) <$> replicate 8 OOk)) w in
  @copies Scenario.local JwtMock w ∧
  identified JwtMock req w ∧
  req_file req = Some Demo.upload ∧
  files w !! path Demo.upload = Some "hello" ∧
  ("j1" ∉ id <$> translation_jobs w) ∧
  exited w = false ∧
  (∃ owner,
     owner_of JwtMock req w owner ∧
     job_row "j1" w' =
       Some (Db.with_completed completed
               (@output_name Scenario.local "j1" Demo.upload)
               (@output_file Scenario.local "j1" Demo.upload) (now w)
               (created_row "j1" owner req Demo.upload (now w)))) ∧
  files w' = <[@output_file Scenario.local "j1" Demo.upload := "hello"]> (files w) ∧
  @respond Scenario.local JwtMock [] (downloadFile JwtMock (with_job "j1" req)) w'
    = Some (mkResponse 200 (FileBody (@output_name Scenario.local "j1" Demo.upload) "hello")).
Proof.
  assert (Hc : @copies Scenario.local JwtMock Demo.world0) by exact I.
  assert (Hid : identified JwtMock Scenario.upload_request Demo.world0)
    by (eexists; reflexivity).
  assert (Hfresh : "j1" ∉ id <$> translation_jobs Demo.world0)
    by (intros Hin; by apply elem_of_nil in Hin).
  split; [exact Hc|]. split; [exact Hid|]. split; [reflexivity|]. split; [reflexivity|].
  split; [exact Hfresh|]. split; [reflexivity|].
  exact (@copied_translation_round_trip Scenario.local JwtMock Scenario.upload_request
           Demo.upload "hello" "j1" Demo.world0 Hc Hid eq_refl eq_refl Hfresh eq_refl).
Defined.

(** ** An upload that is lost before it is read *)

Lemma exited_stays `{Platform} v evs : ∀ w,
  exited w = true →
  exited (exec v evs w) = true ∧
  translation_jobs (exec v evs w) = translation_jobs w ∧
  files (exec v evs w) = files w.
Proof.
  induction evs as [|ev evs IH]; intros w Hx; [auto|].
  rewrite exec_cons.
  assert (Hs : exited (step v ev w) = true ∧
               translation_jobs (step v ev w) = translation_jobs w ∧
               files (step v ev w) = files w).
  { destruct ev as [|req os|i o]; cbn [step].
    - auto.
    - rewrite Hx. auto.
    - rewrite resume_other by auto. auto. }
  destruct Hs as (Hx' & Hj & Hf). destruct (IH _ Hx') as (? & -> & ->). auto.
Qed.

(** The world after an upload whose file is gone when the copying executor
    reads it. *)
Lemma lost_run `{Platform} v req file j w :
  copies v w →
  identified v req w →
  req_file req = Some file →
  files w !! path file = None →
  j ∉ id <$> translation_jobs w →
  exited w = false →
  ∃ owner,
    exec v (Post req (upload_outcomes v j)
              :: (Resume (length (tasks w)) <$> replicate 6 OOk)) w
    = if decide (v = JwtMock)
      then mkWorld (users w)
             (Db.update_where_id j (Db.with_failed failed (message ENOENT))
                (Db.update_where_id j (Db.with_status processing)
                   (translation_jobs w ++ [created_row j owner req file (now w)])))
             (files w) (now w) (tasks w ++ [mkTask j (Ret ())])
             (j :: executions w) (fetched w) false
      else mkWorld (users w)
             (Db.update_where_id j (Db.with_status processing)
                (translation_jobs w ++ [created_row j owner req file (now w)]))
             (files w) (now w) (tasks w ++ [mkTask j (Uncaught ENOENT)])
             (j :: executions w) (fetched w) true.
Proof.
  intros Hc Hid Hfile Hsrc Hfresh Hx.
  rewrite exec_cons. cbn [step]. rewrite Hx.
  apply (bool_decide_eq_false_2 (j ∈ id <$> translation_jobs w)) in Hfresh.
  unfold handle, upload_outcomes.
  destruct v; unfold identified in Hid.
  - (* subprocess *)
    destruct (u_id <$> filter (λ u, u_email u = system_email) (users w))
      as [|owner others] eqn:Hsys; [by destruct Hid|].
    exists owner.
    route_unfold. rewrite Hfile. rewrite !decide_False by discriminate.
    cbn [run effect Db.exec async_bind try_catch hd tail head fst snd]. rewrite Hsys.
    cbn [run effect Db.exec async_bind try_catch hd tail head fst snd]. rewrite Hfresh.
    cbn [run effect Db.exec async_bind try_catch hd tail head fst snd].
    rewrite (posted_following Subprocess j) by (assumption || reflexivity).
    rewrite exec_resumes, following_steps by apply dispatch_detach_free.
    async_unfold.
    cbn [replicate steps effect Db.exec fst snd users set_jobs]. rewrite Hsys.
    cbn [length Nat.ltb Nat.leb replicate steps effect Db.exec async_bind try_catch fst snd
         d_jobId d_sourcePath d_originalFilename d_sourceLanguage d_targetLanguage
         d_documentType files set_jobs set_files set_executions].
    rewrite Hc. rewrite bool_decide_eq_false_2 by (intros [? [=]]).
    cbn [negb unguarded_callback replicate steps effect Db.exec async_bind try_catch fst snd
         files set_jobs set_files set_executions].
    rewrite Hsrc.
    cbn [negb unguarded_callback replicate steps effect Db.exec async_bind try_catch fst snd
         files set_jobs set_files set_executions].
    reflexivity.
  - (* JWT *)
    destruct (req_user req) as [user|] eqn:Hu; [|by destruct Hid].
    exists (userId user).
    route_unfold. rewrite Hu, Hfile. rewrite !decide_True by reflexivity.
    cbn [run effect Db.exec async_bind try_catch hd tail head fst snd]. rewrite Hfresh.
    cbn [run effect Db.exec async_bind try_catch hd tail head fst snd].
    rewrite (posted_following JwtMock j) by (assumption || reflexivity).
    rewrite exec_resumes, following_steps by apply dispatch_detach_free.
    async_unfold.
    cbn [replicate steps effect Db.exec async_bind try_catch fst snd
         d_jobId d_sourcePath d_originalFilename d_sourceLanguage d_targetLanguage
         d_documentType files set_jobs set_files set_executions].
    rewrite Hsrc.
    cbn [replicate steps effect Db.exec async_bind try_catch fst snd
         d_jobId files set_jobs set_files set_executions].
    reflexivity.
  - (* remote API, not configured *)
    destruct (u_id <$> filter (λ u, u_email u = system_email) (users w))
      as [|owner others] eqn:Hsys; [by destruct Hid|].
    exists owner.
    route_unfold. rewrite Hfile. rewrite !decide_False by discriminate.
    cbn [run effect Db.exec async_bind try_catch hd tail head fst snd]. rewrite Hsys.
    cbn [run effect Db.exec async_bind try_catch hd tail head fst snd]. rewrite Hfresh.
    cbn [run effect Db.exec async_bind try_catch hd tail head fst snd].
    rewrite (posted_following RemoteApi j) by (assumption || reflexivity).
    rewrite exec_resumes, following_steps by apply dispatch_detach_free.
    async_unfold.
    replace (negb (Js.truthy EXTERNAL_TRANSLATION_API_URL)
             || negb (Js.truthy EXTERNAL_TRANSLATION_API_KEY)) with true
      by (destruct Hc as [-> | ->]; simpl; [reflexivity | by rewrite orb_true_r]).
    cbn [replicate steps effect Db.exec fst snd users set_jobs]. rewrite Hsys.
    cbn [length Nat.ltb Nat.leb unguarded_callback replicate steps effect Db.exec
         async_bind try_catch fst snd
         d_jobId d_sourcePath d_originalFilename d_sourceLanguage d_targetLanguage
         d_documentType files set_jobs set_files set_executions].
    rewrite Hsrc.
    cbn [unguarded_callback replicate steps effect Db.exec async_bind try_catch fst snd
         files set_jobs set_files set_executions].
    reflexivity.
Qed.

(** X13.  When the upload is no longer in storage at the time a copying
    executor reads it: under the JWT controller the dispatch records the
    failure, the job ends failed with the message of the read error, and the
    server goes on; under the subprocess and remote-API controllers the read
    throws inside the timer callback of the fallback, the process exits, and
    the job stays in [processing] whatever is attempted afterwards. *)
Theorem lost_upload `{Platform} v req file j w :
  copies v w →
  identified v req w →
  req_file req = Some file →
  files w !! path file = None →
  j ∉ id <$> translation_jobs w →
  exited w = false →
  let w' :=
    exec v (Post req (upload_outcomes v j)
              :: (Resume (length (tasks w)) <$> replicate 6 OOk)) w in
  (v = JwtMock →
   exited w' = false ∧
   ∃ r, job_row j w' = Some r ∧ status r = failed ∧
        error_message r = Some (message ENOENT)) ∧
  (v ≠ JwtMock →
   exited w' = true ∧
   ∀ evs, exited (exec v evs w') = true ∧ status_of j (exec v evs w') = Some processing).
Proof.
  intros Hc Hid Hfile Hsrc Hfresh Hx. cbn zeta.
  destruct (lost_run v req file j w Hc Hid Hfile Hsrc Hfresh Hx) as (owner & ->).
  set (row := created_row j owner req file (now w)).
  assert (Hrow : Db.where_id j
            (Db.update_where_id j (Db.with_status processing) (translation_jobs w ++ [row]))
            = [Db.with_status processing row]).
  { rewrite where_id_update by reflexivity.
    rewrite where_id_fresh by (assumption || reflexivity). reflexivity. }
  split.
  - intros ->. rewrite decide_True by reflexivity. split; [reflexivity|].
    unfold job_row. cbn [translation_jobs].
    rewrite where_id_update by reflexivity. rewrite Hrow.
    eexists. split; [reflexivity|]. split; reflexivity.
  - intros Hv. rewrite decide_False by exact Hv. split; [reflexivity|].
    intros evs.
    match goal with
    | |- context [exec v evs ?w0] =>
        destruct (exited_stays v evs w0 eq_refl) as (Hx' & Hj & _)
    end.
    split; [exact Hx'|]. unfold status_of, job_row. rewrite Hj.
    cbn [translation_jobs]. rewrite Hrow. reflexivity.
Qed.

Lemma lost_upload_witness :
  let w := boot [Demo.system_user] ∅ 0 in
  let req := Scenario.upload_request in
  let w' :=
    @exec Scenario.local Subprocess
      (Post req (upload_outcomes Subprocess "j1")
         :: (Resume (length (tasks w)) <$> replicate 6 OOk)) w in
  @copies Scenario.local Subprocess w ∧
  identified Subprocess req w ∧
  req_file req = Some Demo.upload ∧
  files w !! path Demo.upload = None ∧
  ("j1" ∉ id <$> translation_jobs w) ∧
  exited w = false ∧
  (Subprocess = JwtMock →
   exited w' = false ∧
   ∃ r, job_row "j1" w' = Some r ∧ status r = failed ∧
        error_message r = Some (message ENOENT)) ∧
  (Subprocess ≠ JwtMock →
   exited w' = true ∧
   ∀ evs, exited (@exec Scenario.local Subprocess evs w') = true ∧
          status_of "j1" (@exec Scenario.local Subprocess evs w') = Some processing).
Proof.
  assert (Hc : @copies Scenario.local Subprocess (boot [Demo.system_user] ∅ 0))
    by reflexivity.
  assert (Hid : identified Subprocess Scenario.upload_request (boot [Demo.system_user] ∅ 0))
    by (eexists; reflexivity).
  assert (Hfresh : "j1" ∉ id <$> translation_jobs (boot [Demo.system_user] ∅ 0))
    by (intros Hin; by apply elem_of_nil in Hin).
  split; [exact Hc|]. split; [exact Hid|]. split; [reflexivity|]. split; [reflexivity|].
  split; [exact Hfresh|]. split; [reflexivity|].
  exact (@lost_upload Scenario.local Subprocess Scenario.upload_request
           Demo.upload "j1" (boot [Demo.system_user] ∅ 0)
           Hc Hid eq_refl eq_refl Hfresh eq_refl).
Defined.

(** ** The history *)

Lemma elem_of_insert_desc r r' rows :
  r' ∈ Db.insert_desc r rows → r' = r ∨ r' ∈ rows.
Proof.
  induction rows as [|x rows IH]; simpl.
  - intros Hin. apply list_elem_of_singleton in Hin. auto.
  - case_match.
    + intros Hin. apply elem_of_cons in Hin. exact Hin.
    + intros Hin. apply elem_of_cons in Hin as [->|Hin].
      * right. apply list_elem_of_here.
      * destruct (IH Hin) as [->|Hr]; [auto|]. right. by apply list_elem_of_further.
Qed.

Lemma elem_of_order_by r rows :
  r ∈ Db.order_by_created_at_desc rows → r ∈ rows.
Proof.
  unfold Db.order_by_created_at_desc. induction rows as [|x rows IH]; simpl; [auto|].
  intros Hin. apply elem_of_insert_desc in Hin as [->|Hin].
  - apply list_elem_of_here.
  - apply list_elem_of_further, IH, Hin.
Qed.

Lemma select_page_elem owner_ph limit_ph offset_ph params rows page r :
  Db.select_page owner_ph limit_ph offset_ph params rows = inr page →
  r ∈ page →
  r ∈ rows ∧
  ∀ ph, owner_ph = Some ph → ∃ u, Db.bound params ph = Some (PStr u) ∧ user_id r = u.
Proof.
  unfold Db.select_page. intros Hp Hr.
  repeat (case_match; try discriminate); simplify_eq.
  all: apply (λ H, elem_of_sublist _ _ _ H (sublist_take _ _)) in Hr.
  all: apply (λ H, elem_of_sublist _ _ _ H (sublist_drop _ _)) in Hr.
  all: apply elem_of_order_by in Hr.
  - apply list_elem_of_filter in Hr as [Hu Hr]. split; [exact Hr|].
    intros ph [= <-]. eauto.
  - split; [exact Hr|]. intros ph [=].
Qed.

(** The items of a history page are renderings of rows of the table,
    of the caller's rows under the JWT controller. *)
Lemma history_page `{Platform} v req os w c jobs pagination :
  respond v os (getTranslationHistory v req) w
    = Some (mkResponse c (HistoryBody jobs pagination)) →
  c = 200 ∧
  ∀ item, item ∈ jobs →
    (∃ r, r ∈ translation_jobs w ∧ listed_for v req r ∧ item = history_item v r) ∧
    v_errorMessage item = None ∧
    (is_Some (v_translatedFileUrl item) ↔ v_status item = completed).
Proof.
  unfold respond, handle. intros Hr.
  assert (Hview : ∀ r, v_errorMessage (history_item v r) = None ∧
            (is_Some (v_translatedFileUrl (history_item v r))
             ↔ v_status (history_item v r) = completed)).
  { intros r. unfold history_item, history_view, add_progress, file_url.
    destruct (decide (v = JwtMock)); simpl; (split; [reflexivity|]);
      destruct (decide (status r = completed)) as [Hs|Hs]; split; eauto;
      try (intros [? [=]]); intros Heq; by destruct Hs. }
  assert (Hgoal : ∀ result owner_ph limit_ph offset_ph params,
            Db.select_page owner_ph limit_ph offset_ph params (translation_jobs w)
              = inr result →
            (v = JwtMock → ∃ user, req_user req = Some user ∧ owner_ph = Some 1%nat ∧
                                   Db.bound params 1 = Some (PStr (userId user))) →
            jobs = history_item v <$> result →
            ∀ item, item ∈ jobs →
              (∃ r, r ∈ translation_jobs w ∧ listed_for v req r ∧ item = history_item v r) ∧
              v_errorMessage item = None ∧
              (is_Some (v_translatedFileUrl item) ↔ v_status item = completed)).
  { intros result owner_ph limit_ph offset_ph params Hp Hown -> item Hitem.
    apply list_elem_of_fmap in Hitem as (r & -> & Hin).
    destruct (select_page_elem _ _ _ _ _ _ r Hp Hin) as [Hrow Howner].
    split; [|apply Hview]. exists r. split_and!; auto.
    intros Hv. destruct (Hown Hv) as (user & Hu & -> & Hb).
    destruct (Howner 1%nat eq_refl) as (u & Hb' & <-).
    exists user. split; [exact Hu|]. congruence. }
  destruct v; route_unfold;
    [ | destruct (req_user req) as [user|] eqn:Hu; route_run; [|discriminate] | ].
  all: destruct os as [|o1 [|o2 os]]; route_run;
    try destruct o1; try destruct o2; route_run; try discriminate;
    repeat (case_match; route_run; simplify_eq).
  all: split; [reflexivity|].
  all: eapply Hgoal; [eassumption | |].
  all: try (intros [=]; fail).
  all: try (intros _; exists user; split_and!; reflexivity).
  all: unfold history_item; simpl decide; try reflexivity.
  all: rewrite <- list_fmap_compose; reflexivity.
Qed.

(** X14.  A history page only lists jobs of the table, rendered by
    [history_view] (with the progress added outside the JWT controller); it
    never carries an error message, and offers a download URL exactly for the
    completed jobs.  Under the JWT controller every job listed belongs to the
    caller: the history never shows another user's job. *)
Theorem history_lists_own_jobs `{Platform} v req os w c jobs pagination :
  respond v os (getTranslationHistory v req) w
    = Some (mkResponse c (HistoryBody jobs pagination)) →
  c = 200 ∧
  ∀ item, item ∈ jobs →
    (∃ r, r ∈ translation_jobs w ∧ listed_for v req r ∧ item = history_item v r) ∧
    v_errorMessage item = None ∧
    (is_Some (v_translatedFileUrl item) ↔ v_status item = completed).
Proof.
  intros Hr. destruct (history_page v req os w c jobs pagination Hr) as [Hc Hitems].
  split; [exact Hc|]. intros item Hitem. apply Hitems, Hitem.
Qed.

Lemma history_lists_own_jobs_witness :
  let w := @exec Scenario.local JwtMock Scenario.translated Demo.world0 in
  let req := Demo.request (Some Demo.alice) "" None None in
  ∃ jobs,
    @respond Scenario.local JwtMock [] (getTranslationHistory JwtMock req) w
      = Some (mkResponse 200 (HistoryBody jobs (mkPagination (Js.Finite 50) (Js.Finite 0) 1))) ∧
    200 = 200 ∧
    ∀ item, item ∈ jobs →
      (∃ r, r ∈ translation_jobs w ∧ listed_for JwtMock req r ∧
            item = history_item JwtMock r) ∧
      v_errorMessage item = None ∧
      (is_Some (v_translatedFileUrl item) ↔ v_status item = completed).
Proof.
  eexists.
  assert (Hresp : @respond Scenario.local JwtMock []
                    (getTranslationHistory JwtMock
                       (Demo.request (Some Demo.alice) "" None None))
                    (@exec Scenario.local JwtMock Scenario.translated Demo.world0)
                  = Some (mkResponse 200
                            (HistoryBody _ (mkPagination (Js.Finite 50) (Js.Finite 0) 1))))
    by (vm_compute; reflexivity).
  split; [exact Hresp|].
  exact (@history_lists_own_jobs Scenario.local JwtMock
           (Demo.request (Some Demo.alice) "" None None) []
           (@exec Scenario.local JwtMock Scenario.translated Demo.world0)
           200 _ (mkPagination (Js.Finite 50) (Js.Finite 0) 1) Hresp).
Defined.

(** ** A download that was offered *)

Lemma where_id_NoDup j rows r :
  NoDup (id <$> rows) → r ∈ Db.where_id j rows → Db.where_id j rows = [r].
Proof.
  unfold Db.where_id. induction rows as [|x rows IH]; intros Hnd Hr.
  - by apply elem_of_nil in Hr.
  - rewrite fmap_cons in Hnd. apply NoDup_cons in Hnd as [Hx Hnd].
    destruct (decide (id x = j)) as [Hid|Hid].
    + rewrite filter_cons_True in * by exact Hid.
      assert (Hnone : filter (λ r, id r = j) rows = []).
      { destruct (filter (λ r, id r = j) rows) as [|y l] eqn:E; [reflexivity|].
        assert (Hy : y ∈ filter (λ r, id r = j) rows) by (rewrite E; apply list_elem_of_here).
        apply list_elem_of_filter in Hy as [Hyj Hy]. destruct Hx.
        apply list_elem_of_fmap. exists y. split; [congruence | exact Hy]. }
      rewrite Hnone in *. apply list_elem_of_singleton in Hr. by subst.
    + rewrite filter_cons_False in * by exact Hid. auto.
Qed.

(** X15.  Under the JWT and remote-API controllers, in every state a
    server reaches: when the status route answers with a download URL, that
    URL is the download route of the requested job, and the download route,
    asked by the same caller with no fault, answers 200 with the translated
    file under the name the status route gave. *)
Theorem offered_download_is_served `{Platform} v us fs t evs req os os' view :
  v ≠ Subprocess →
  faultless os' →
  let w := exec v evs (boot us fs t) in
  respond v os (getJobStatus v req) w = Some (mkResponse 200 (JobBody view)) →
  is_Some (v_translatedFileUrl view) →
  v_translatedFileUrl view = Some ("/api/files/" +:+ params_jobId req) ∧
  ∃ name content,
    v_translatedFilename view = Some name ∧
    respond v os' (downloadFile v req) w = Some (mkResponse 200 (FileBody name content)).
Proof.
  intros Hv Hos w Hresp Hurl.
  pose proof (reachable_inv v us fs t evs) as HI. fold w in HI.
  assert (Hstrict : strict_of v = true)
    by (unfold strict_of; by rewrite bool_decide_eq_false_2).
  assert (Hjob : ∃ job,
            Db.where_id (params_jobId req) (translation_jobs w) = [job] ∧
            view = status_view (negb (bool_decide (v = JwtMock))) job ∧
            identified v req w ∧ may_download v req job).
  { clear Hurl. unfold respond, handle in Hresp.
    destruct v; [by destruct Hv| |]; route_unfold;
      unfold identified, may_download, job_not_found, not_authenticated in *.
    - destruct (req_user req) as [user|] eqn:Hu; route_run; [|discriminate].
      destruct (hd OOk os); route_run; try discriminate;
        (destruct (filter _ (Db.where_id _ _)) as [|job others] eqn:Hf;
         route_run; try discriminate;
         assert (Hin : job ∈ filter (λ r, user_id r = userId user)
                         (Db.where_id (params_jobId req) (translation_jobs w)))
           by (rewrite Hf; apply list_elem_of_here);
         apply list_elem_of_filter in Hin as [Hown Hin];
         (exists job; split_and!;
            [ apply where_id_NoDup; [apply (inv_ids _ _ _ HI) | exact Hin]
            | by simplify_eq | eauto | by left ])).
    - route_run. destruct (hd OOk os); route_run; try discriminate;
        (destruct (first_truthy _) as [u|] eqn:Hsys; route_run; try discriminate;
         destruct (hd OOk (tail os)); route_run; try discriminate;
         destruct (Db.where_id _ _) as [|job others] eqn:Hw; route_run; try discriminate;
         assert (Hin : job ∈ Db.where_id (params_jobId req) (translation_jobs w))
           by (rewrite Hw; apply list_elem_of_here);
         (exists job; split_and!;
            [ rewrite <- Hw; apply where_id_NoDup; [apply (inv_ids _ _ _ HI) | exact Hin]
            | by simplify_eq | eauto | exact I ])). }
  destruct Hjob as (job & Hw & -> & Hid & Hmay).
  assert (Hin : job ∈ Db.where_id (params_jobId req) (translation_jobs w))
    by (rewrite Hw; apply list_elem_of_here).
  apply list_elem_of_filter in Hin as [Hjid Hin].
  assert (Hs : status job = completed).
  { unfold status_view, file_url in Hurl. simpl in Hurl.
    destruct (decide (status job = completed)); [assumption | by destruct Hurl as [? [=]]]. }
  destruct (inv_rows _ _ _ HI job Hin) as (H1 & H2 & _ & _ & H5).
  destruct (proj1 H1 Hs) as [name Hname]. destruct (proj1 H2 Hs) as [p Hp].
  destruct (H5 Hstrict p Hp) as [content Hc].
  split.
  - unfold status_view, file_url. simpl. rewrite decide_True by exact Hs. by rewrite Hjid.
  - exists name, content. split; [exact Hname|].
    unfold respond, handle.
    destruct v; [by destruct Hv| |]; route_unfold; unfold identified, may_download in *.
    + destruct (req_user req) as [user|]; [|by destruct Hid].
      unfold faultless in Hos. outcomes os'; route_run; rewrite Hw; route_run;
        rewrite (bool_decide_eq_true_2 _ Hs);
        (destruct Hmay as [Ho|Ha];
         rewrite ?(bool_decide_eq_true_2 _ Ho), ?(bool_decide_eq_true_2 _ Ha),
           ?andb_false_r);
        route_run; rewrite Hp, Hname; route_run; rewrite Hc;
        rewrite bool_decide_eq_true_2 by eauto; route_run;
        unfold default, from_option, Datatypes.id; rewrite ?Hc; reflexivity.
    + destruct Hid as [u Hu]. route_run.
      next_outcome Hos; route_run; rewrite Hu; route_run;
        (next_outcome Hos; route_run; rewrite Hw; route_run;
         rewrite (bool_decide_eq_true_2 _ Hs);
         route_run; rewrite Hp, Hname; route_run; rewrite Hc;
         rewrite bool_decide_eq_true_2 by eauto; route_run;
         skip_outcome Hos;
         (next_outcome Hos;
          unfold default, from_option, Datatypes.id; rewrite ?Hc; reflexivity)).
Qed.

Lemma offered_download_is_served_witness :
  let w := @exec Scenario.local JwtMock Scenario.translated
             (boot [Demo.system_user] Demo.storage 0) in
  let req := Scenario.status_request Demo.alice in
  let view := status_view false (Scenario.completed_row "alice") in
  JwtMock ≠ Subprocess ∧ faultless [] ∧
  @respond Scenario.local JwtMock [] (getJobStatus JwtMock req) w
    = Some (mkResponse 200 (JobBody view)) ∧
  is_Some (v_translatedFileUrl view) ∧
  v_translatedFileUrl view = Some ("/api/files/" +:+ params_jobId req) ∧
  ∃ name content,
    v_translatedFilename view = Some name ∧
    @respond Scenario.local JwtMock [] (downloadFile JwtMock req) w
      = Some (mkResponse 200 (FileBody name content)).
Proof.
  assert (Hv : JwtMock ≠ Subprocess) by discriminate.
  assert (Hresp : @respond Scenario.local JwtMock []
                    (getJobStatus JwtMock (Scenario.status_request Demo.alice))
                    (@exec Scenario.local JwtMock Scenario.translated
                       (boot [Demo.system_user] Demo.storage 0))
                  = Some (mkResponse 200
                            (JobBody (status_view false (Scenario.completed_row "alice")))))
    by (vm_compute; reflexivity).
  assert (Hurl : is_Some (v_translatedFileUrl
                            (status_view false (Scenario.completed_row "alice"))))
    by (eexists; reflexivity).
  split; [exact Hv|]. split; [reflexivity|]. split; [exact Hresp|]. split; [exact Hurl|].
  exact (@offered_download_is_served Scenario.local JwtMock [Demo.system_user] Demo.storage
           0%nat Scenario.translated (Scenario.status_request Demo.alice) [] []
           (status_view false (Scenario.completed_row "alice")) Hv eq_refl Hresp Hurl).
Defined.

(** ** The middleware in front of the controllers *)

Section Gates.

Context `{Platform} `{Guards}.

Lemma truthy_Some (x : option string) :
  Js.truthy x = true ↔ ∃ s, x = Some s ∧ s ≠ "".
Proof.
  destruct x as [[|c s]|]; simpl; split; try discriminate.
  - intros (s & [= <-] & Hs). by destruct Hs.
  - intros _. eexists. split; [reflexivity | discriminate].
  - auto.
  - intros (s & [=] & _).
Qed.

Lemma apiKeyAuth_passes headers :
  (holds_key headers ∧ apiKeyAuth headers = Next ()) ∨
  (¬ holds_key headers ∧ apiKeyAuth headers = Answered invalid_api_key).
Proof.
  unfold apiKeyAuth, holds_key.
  destruct (Js.truthy (x_api_key headers)) eqn:Ht; simpl.
  - apply truthy_Some in Ht as (key & Hk & Hne).
    case_bool_decide as He; simpl.
    + left. split; [|reflexivity]. exists key. split_and!; auto. congruence.
    + right. split; [|reflexivity]. intros (k & Hk' & _ & He'). congruence.
  - right. split; [|reflexivity]. intros (k & Hk & Hne & _).
    assert (Js.truthy (x_api_key headers) = true) by (apply truthy_Some; eauto).
    congruence.
Qed.

Lemma authenticate_bearer headers :
  match bearer headers with
  | Some decoded => authenticate headers = Next decoded
  | None => authenticate headers = Answered no_token ∨
            authenticate headers = Answered bad_token
  end.
Proof.
  unfold bearer, authenticate.
  destruct (authorization headers) as [a|]; [|left; reflexivity].
  change (default "" (Some a)) with a.
  destruct a as [|c a]; [left; reflexivity|].
  cbn [Js.truthy negb orb].
  destruct (String.prefix "Bearer " (String c a)); cbn [negb]; [|left; reflexivity].
  destruct (verifyToken _); [reflexivity | right; reflexivity].
Qed.

End Gates.

Lemma handleUploadError_code err : code (handleUploadError err) = 400.
Proof.
  unfold handleUploadError, or_default.
  destruct err; [case_bool_decide|destruct (Js.truthy _)]; reflexivity.
Qed.

(** X16.  Behind [apiKeyAuth], a request that does not carry the
    configured key, or carries an empty one, is answered 401 "Invalid API
    key" by every route, and nothing is read or written for it.  When the
    key is not configured, or is configured empty, that is every request.  A
    request that carries the key reaches the controller with no user
    attached. *)
Theorem api_key_gate `{Platform} `{Guards} `{Validators} v inc :
  let headers := in_headers inc in
  (¬ holds_key headers →
   ∀ route os w, route ∈ routes ApiKey v →
     handle v os (route inc) w = (Ret (Replied invalid_api_key), w)) ∧
  (Js.truthy env_TRANSLATION_API_KEY = false → ¬ holds_key headers) ∧
  (holds_key headers →
   get_job ApiKey v inc = controller (getJobStatus v (reading_request None inc)) ∧
   get_jobs ApiKey v inc = controller (getTranslationHistory v (reading_request None inc)) ∧
   get_file ApiKey v inc = controller (downloadFile v (reading_request None inc))).
Proof.
  cbn zeta. split_and!.
  - intros Hno route os w Hroute.
    destruct (apiKeyAuth_passes (in_headers inc)) as [[Hk _] | [_ Hrefused]];
      [contradiction|].
    unfold routes in Hroute.
    repeat (apply elem_of_cons in Hroute as [-> | Hroute]);
      [..| by apply elem_of_nil in Hroute];
      unfold post_process_translation, get_job, get_jobs, get_file, guarded, guard;
      rewrite Hrefused; reflexivity.
  - intros Hempty (key & _ & Hne & Hk).
    assert (Js.truthy env_TRANSLATION_API_KEY = true) by (apply truthy_Some; eauto).
    congruence.
  - intros Hk.
    destruct (apiKeyAuth_passes (in_headers inc)) as [[_ Hpass] | [Hno _]];
      [|contradiction].
    unfold get_job, get_jobs, get_file, guarded, guard. rewrite Hpass. auto.
Qed.

Section Controllers_behind_gates.

Context `{Platform} `{Guards}.

(** A route whose middleware lets the request through answers what its
    controller answers. *)
Lemma run_controller start (m : Async Response) : ∀ os w,
  (run start os (controller m) w).2 = (run start os m w).2 ∧
  match (run start os m w).1 with
  | Ret r => (run start os (controller m) w).1 = Ret (Replied r)
  | Throw e => (run start os (controller m) w).1 = Throw e
  | Uncaught e => (run start os (controller m) w).1 = Uncaught e
  | Await _ _ => True
  end.
Proof.
  unfold controller, mbind, mret, Async_bind, Async_ret.
  induction m as [| | |X op k IH]; intros os w; try (split; reflexivity).
  cbn [run async_bind]. destruct (effect start op (hd OOk os) w) as [r w1]. apply IH.
Qed.

Lemma run_settled start {A} (m : Async A) : ∀ os w,
  match (run start os m w).1 with Await _ _ => False | _ => True end.
Proof.
  induction m as [| | |X op k IH]; intros os w; try exact I.
  cbn [run]. destruct (effect start op (hd OOk os) w) as [r w1]. apply IH.
Qed.

Lemma reply_controller v os (m : Async Response) w :
  reply v os (controller m) w = Replied <$> respond v os m w.
Proof.
  unfold reply, respond, handle.
  destruct (run_controller (processTranslationAsync v) m os w) as [_ Hr].
  destruct (run _ os m w).1 eqn:E; try (rewrite Hr; reflexivity).
  exfalso. clear Hr. revert os w E.
  induction m as [| | |Y op' k' IH]; intros os w E; try discriminate.
  cbn [run] in E. destruct (effect _ op' (hd OOk os) w) as [r w1]. eapply IH, E.
Qed.

(** Running a route from [upload.single] on: the write takes the first
    outcome. *)
Lemma run_upload start {A} upload (k : option Error → Async A) os w :
  run start os (upload_single upload ≫= k) w =
    match upload with
    | Some (file, content) =>
        match hd OOk os with
        | OFail e => run start (tl os) (k (Some e)) w
        | _ => run start (tl os) (k None) (set_files (insert (path file) content) w)
        end
    | None => run start os (k None) w
    end.
Proof.
  destruct upload as [[file content]|]; [|reflexivity].
  unfold upload_single. cbv [perform mbind mret Async_bind Async_ret].
  cbn [run async_bind try_catch effect]. destruct (hd OOk os); reflexivity.
Qed.

End Controllers_behind_gates.

(** X17.  Behind [authenticate], a request without an [Authorization]
    header of the form "Bearer <token>" whose token verifies is answered
    401 by every route, and nothing is read or written for it.  A request
    with such a header reaches the controller with the decoded payload as its
    user; so behind this middleware the JWT controller never gives its own
    401 "User not authenticated". *)
Theorem bearer_gate `{Platform} `{Guards} `{Validators} v inc :
  let headers := in_headers inc in
  (bearer headers = None →
   ∀ route os w, route ∈ routes Bearer v →
     ∃ r, handle v os (route inc) w = (Ret (Replied r), w) ∧
          (r = no_token ∨ r = bad_token)) ∧
  (∀ user, bearer headers = Some user →
   get_job Bearer v inc = controller (getJobStatus v (reading_request (Some user) inc)) ∧
   get_jobs Bearer v inc
     = controller (getTranslationHistory v (reading_request (Some user) inc)) ∧
   get_file Bearer v inc = controller (downloadFile v (reading_request (Some user) inc))) ∧
  (∀ route os w, route ∈ routes Bearer JwtMock →
     reply JwtMock os (route inc) w ≠ Some (Replied not_authenticated)).
Proof.
  cbn zeta.
  pose proof (authenticate_bearer (in_headers inc)) as Hauth.
  split_and!.
  - intros Hnone route os w Hroute. rewrite Hnone in Hauth.
    unfold routes in Hroute.
    repeat (apply elem_of_cons in Hroute as [-> | Hroute]);
      [..| by apply elem_of_nil in Hroute];
      unfold post_process_translation, get_job, get_jobs, get_file, guarded, guard;
      destruct Hauth as [-> | ->]; eexists; (split; [reflexivity|]); auto.
  - intros user Hu. rewrite Hu in Hauth.
    unfold get_job, get_jobs, get_file, guarded, guard. rewrite Hauth. auto.
  - intros route os w Hroute.
    assert (Hctl : ∀ m : Async Response,
              answers (λ r, r ≠ not_authenticated) m →
              reply JwtMock os (controller m) w ≠ Some (Replied not_authenticated)).
    { intros m Hm. rewrite reply_controller. unfold respond, handle.
      destruct (run_answers (processTranslationAsync JwtMock) _ m os w Hm) as (r & -> & Hr).
      simpl. intros [= Heq]. contradiction. }
    unfold routes in Hroute.
    repeat (apply elem_of_cons in Hroute as [-> | Hroute]);
      [..| by apply elem_of_nil in Hroute];
      unfold post_process_translation, get_job, get_jobs, get_file, guarded, guard.
    all: destruct (bearer (in_headers inc)) as [user|];
      [rewrite Hauth | destruct Hauth as [-> | ->]; discriminate].
    + destruct (in_upload inc) as [upload|err].
      * assert (Hrest : ∀ os' w',
                  reply JwtMock os'
                    match validateTranslationJob (in_body inc) with
                    | [] =>
                        controller
                          (processTranslation JwtMock
                             (creating_request (Some user) (fst <$> upload) inc))
                    | errors => Ret (ValidationFailed errors)
                    end w' ≠ Some (Replied not_authenticated)).
        { intros os' w'. destruct (validateTranslationJob (in_body inc)); [|discriminate].
          rewrite reply_controller. unfold respond, handle.
          destruct (run_answers (processTranslationAsync JwtMock)
                      (λ r, r ≠ not_authenticated)
                      (processTranslation JwtMock
                         (creating_request (Some user) (fst <$> upload) inc)) os' w')
            as (r & -> & Hr).
          - unfold creating_request. route_unfold.
            destruct (fst <$> upload); answering; discriminate.
          - simpl. intros [= Heq]. contradiction. }
        unfold reply, handle. rewrite run_upload.
        destruct upload as [[file content]|]; [destruct (hd OOk os)|]; try apply Hrest.
        cbn [run fst]. discriminate.
      * unfold handleUploadError. destruct err; [case_bool_decide|]; discriminate.
    + apply Hctl. unfold reading_request. route_unfold. answering; discriminate.
    + apply Hctl. unfold reading_request. route_unfold. answering; discriminate.
    + apply Hctl. unfold reading_request. route_unfold. answering; discriminate.
Qed.

(** ** Who is shown a job *)

Section Shown.

Context `{Platform}.

Lemma status_shown req os w c view :
  respond JwtMock os (getJobStatus JwtMock req) w = Some (mkResponse c (JobBody view)) →
  ∃ user r, req_user req = Some user ∧ r ∈ translation_jobs w ∧
            id r = params_jobId req ∧ user_id r = userId user ∧
            view = status_view false r.
Proof.
  unfold respond, handle. route_unfold. unfold job_not_found, not_authenticated.
  destruct (req_user req) as [user|]; route_run; [|discriminate].
  destruct (hd OOk os); route_run; try discriminate;
    (destruct (filter _ (Db.where_id _ _)) as [|job others] eqn:Hf;
     route_run; try discriminate;
     intros [= <- <-];
     assert (Hin : job ∈ filter (λ r, user_id r = userId user)
                     (Db.where_id (params_jobId req) (translation_jobs w)))
       by (rewrite Hf; apply list_elem_of_here);
     apply list_elem_of_filter in Hin as [Hown Hin];
     apply list_elem_of_filter in Hin as [Hid Hin];
     exists user, job; auto).
Qed.

Lemma file_served req os w c name content :
  respond JwtMock os (downloadFile JwtMock req) w
    = Some (mkResponse c (FileBody name content)) →
  ∃ user r p, req_user req = Some user ∧ r ∈ translation_jobs w ∧
              id r = params_jobId req ∧
              (user_id r = userId user ∨ role user = "admin") ∧
              status r = completed ∧
              translated_file_path r = Some p ∧ files w !! p = Some content.
Proof.
  unfold respond, handle. route_unfold.
  unfold job_not_found, not_authenticated, download_failed.
  destruct (req_user req) as [user|]; route_run; [|discriminate].
  intros Hresp.
  assert (Hjob : ∃ job, job ∈ Db.where_id (params_jobId req) (translation_jobs w) ∧
            (run (processTranslationAsync JwtMock) (tail os)
               (try_catch
                  (if true && negb (bool_decide (user_id job = userId user))
                      && negb (bool_decide (role user = "admin"))
                   then Ret (mkResponse 403
                               (Message false "You do not have permission to access this file"))
                   else if negb (bool_decide (status job = completed))
                   then Ret (mkResponse 400
                               (Message false
                                  ("Translation is not yet completed. Current status: "
                                   +:+ status_text (status job))))
                   else
                     async_bind
                       (λ exists_ : bool,
                          if negb exists_
                          then Ret (mkResponse 404
                                      (Message false "Translated file not found on server"))
                          else
                            Await (Download (default "" (translated_file_path job))
                                            (default "" (translated_filename job)))
                              (λ r, match r with
                                    | inl err =>
                                        Ret (mkResponse 500
                                               (Message false "Failed to download file"))
                                    | inr content =>
                                        Ret (mkResponse 200
                                               (FileBody (default "" (translated_filename job))
                                                  content))
                                    end))
                       match translated_file_path job with
                       | Some p => Await (ExistsSync p)
                                     (λ r, match r with inl e => Throw e | inr x => Ret x end)
                       | None => Ret false
                       end)
                  (λ _, Ret (mkResponse 500 (Message false "Failed to download file"))))
               w).1 = Ret (mkResponse c (FileBody name content))).
  { destruct (hd OOk os); route_run; try discriminate;
      (destruct (Db.where_id _ _) as [|job others] eqn:Hw; route_run; try discriminate;
       exists job; split; [apply list_elem_of_here|];
       match type of Hresp with
       | match ?x with _ => _ end = _ => destruct x; try discriminate; congruence
       end). }
  clear Hresp. destruct Hjob as (job & Hin & Hrun).
  apply list_elem_of_filter in Hin as [Hid Hin].
  cbn [andb] in Hrun.
  assert (Hmay : user_id job = userId user ∨ role user = "admin").
  { destruct (decide (user_id job = userId user)) as [|Hno]; [by left|].
    destruct (decide (role user = "admin")) as [|Hna]; [by right|].
    rewrite (bool_decide_eq_false_2 _ Hno), (bool_decide_eq_false_2 _ Hna) in Hrun.
    discriminate. }
  replace (negb (bool_decide (user_id job = userId user))
           && negb (bool_decide (role user = "admin"))) with false in Hrun
    by (destruct Hmay as [Ho|Ha];
        rewrite ?(bool_decide_eq_true_2 _ Ho), ?(bool_decide_eq_true_2 _ Ha),
          ?andb_false_r; reflexivity).
  destruct (decide (status job = completed)) as [Hs|Hs];
    [rewrite (bool_decide_eq_true_2 _ Hs) in Hrun
    |rewrite (bool_decide_eq_false_2 _ Hs) in Hrun; discriminate].
  cbn [negb] in Hrun.
  destruct (translated_file_path job) as [p|] eqn:Hp; route_run; try discriminate.
  destruct (files w !! p) as [stored|] eqn:Hfile;
    [ rewrite (bool_decide_eq_true_2 (is_Some (Some stored))) in Hrun by eauto
    | rewrite (bool_decide_eq_false_2 (is_Some None)) in Hrun by (intros [? [=]]) ];
    route_run; try discriminate.
  unfold default, from_option, Datatypes.id in Hrun. rewrite Hfile in Hrun.
  destruct (hd OOk (tail (tail os))); route_run; try discriminate;
    injection Hrun as <- <- <-; exists user, job, p; split_and!; auto.
Qed.

End Shown.

(** X18.  Behind [authenticate], the JWT controller shows a job only to
    the user of a verified token: the status route answers with a job only
    when the job has the requested id and belongs to that user, the history
    lists only that user's jobs, and the download route sends a file only
    for a completed job with the requested id that belongs to that user, or to
    anybody when the user's role is [admin]; the bytes sent are those stored
    at the recorded output path. *)
Theorem jobs_are_shown_to_their_owner `{Platform} `{Guards} inc os w :
  let headers := in_headers inc in
  (∀ c view,
     reply JwtMock os (get_job Bearer JwtMock inc) w
       = Some (Replied (mkResponse c (JobBody view))) →
     ∃ user r, bearer headers = Some user ∧ r ∈ translation_jobs w ∧
               id r = in_jobId inc ∧ user_id r = userId user ∧
               view = status_view false r) ∧
  (∀ c jobs pagination,
     reply JwtMock os (get_jobs Bearer JwtMock inc) w
       = Some (Replied (mkResponse c (HistoryBody jobs pagination))) →
     ∃ user, bearer headers = Some user ∧
       ∀ item, item ∈ jobs →
         ∃ r, r ∈ translation_jobs w ∧ user_id r = userId user ∧ item = history_view r) ∧
  (∀ c name content,
     reply JwtMock os (get_file Bearer JwtMock inc) w
       = Some (Replied (mkResponse c (FileBody name content))) →
     ∃ user r p, bearer headers = Some user ∧ r ∈ translation_jobs w ∧
                 id r = in_jobId inc ∧
                 (user_id r = userId user ∨ role user = "admin") ∧
                 status r = completed ∧
                 translated_file_path r = Some p ∧ files w !! p = Some content).
Proof.
  cbn zeta.
  pose proof (authenticate_bearer (in_headers inc)) as Hauth.
  unfold get_job, get_jobs, get_file, guarded, guard.
  destruct (bearer (in_headers inc)) as [user|].
  - rewrite Hauth. split_and!.
    + intros c view Hr. rewrite reply_controller in Hr.
      destruct (respond _ _ _ _) as [resp|] eqn:Hresp; [|discriminate].
      injection Hr as ->.
      destruct (status_shown _ _ _ _ _ Hresp) as (u & r & [= <-] & Hin & Hid & Hown & ->).
      exists user, r. auto.
    + intros c jobs pagination Hr. rewrite reply_controller in Hr.
      destruct (respond _ _ _ _) as [resp|] eqn:Hresp; [|discriminate].
      injection Hr as ->.
      destruct (history_page _ _ _ _ _ _ _ Hresp) as [_ Hitems].
      exists user. split; [reflexivity|]. intros item Hitem.
      destruct (Hitems item Hitem) as ((r & Hin & Hlisted & ->) & _).
      destruct (Hlisted eq_refl) as (u & [= <-] & Hown).
      exists r. auto.
    + intros c name content Hr. rewrite reply_controller in Hr.
      destruct (respond _ _ _ _) as [resp|] eqn:Hresp; [|discriminate].
      injection Hr as ->.
      destruct (file_served _ _ _ _ _ _ Hresp)
        as (u & r & p & [= <-] & Hin & Hid & Hmay & Hs & Hp & Hfile).
      exists user, r, p. split_and!; auto.
  - split_and!; intros; destruct Hauth as [Ha | Ha]; rewrite Ha in *; discriminate.
Qed.

(** ** Validation in front of the creating route *)

Lemma validateTranslationJob_nil `{Validators} b :
  validateTranslationJob b = [] ↔
  sanitized (raw_sourceLanguage b) ≠ "" ∧
  validator_isLength 2 10 (sanitized (raw_sourceLanguage b)) = true ∧
  sanitized (raw_targetLanguage b) ≠ "" ∧
  validator_isLength 2 10 (sanitized (raw_targetLanguage b)) = true ∧
  sanitized (raw_documentType b) ∈ ["pdf"; "docx"; "xlsx"; "txt"].
Proof.
  unfold validateTranslationJob, notEmpty, isLength, isIn, documentTypes.
  set (s := sanitized (raw_sourceLanguage b)).
  set (t := sanitized (raw_targetLanguage b)).
  set (d := sanitized (raw_documentType b)).
  assert (Hdoc : d ∈ ["pdf"; "docx"; "xlsx"; "txt"] → d ≠ "").
  { intros Hin ->.
    repeat (apply elem_of_cons in Hin as [Hin|Hin]; [discriminate|]).
    by apply elem_of_nil in Hin. }
  split.
  - intros Hnil.
    repeat match type of Hnil with _ ++ _ = [] => apply app_eq_nil in Hnil as [? Hnil] end.
    repeat match goal with
           | Hc : (if ?c then _ else _) = [] |- _ => destruct c eqn:?; [|discriminate Hc]; clear Hc
           | Hc : (if ?c then _ else _) = [] |- _ => destruct c eqn:?; [discriminate Hc|]; clear Hc
           end.
    repeat match goal with
           | Hb : bool_decide _ = true |- _ => apply bool_decide_eq_true in Hb
           | Hb : bool_decide _ = false |- _ => apply bool_decide_eq_false in Hb
           end.
    split_and!; auto.
  - intros (Hs & Hsl & Ht & Htl & Hd).
    rewrite !bool_decide_eq_false_2 by auto.
    rewrite (bool_decide_eq_true_2 _ Hd), Hsl, Htl. reflexivity.
Qed.

Lemma guard_answers `{Guards} g headers r :
  guard g headers = Answered r → code r = 401.
Proof.
  unfold guard. destruct g.
  - destruct (apiKeyAuth_passes headers) as [[_ ->] | [_ ->]]; [discriminate|].
    by intros [= <-].
  - pose proof (authenticate_bearer headers) as Ha.
    destruct (bearer headers); [rewrite Ha; discriminate|].
    destruct Ha as [-> | ->]; by intros [= <-].
Qed.

(** The creating route once the upload is in storage. *)
Lemma validated_run `{Platform} `{Validators} v user file inc os w :
  let fields := in_body inc in
  let result :=
    run (processTranslationAsync v) os
      match validateTranslationJob fields with
      | [] => controller (processTranslation v (creating_request user file inc))
      | errors => Ret (ValidationFailed errors)
      end w in
  files result.2 = files w ∧
  (∀ j, result.1 = Ret (Replied (accepted v j)) →
   validateTranslationJob fields = [] ∧
   ∃ r upload, file = Some upload ∧
     translation_jobs result.2 = translation_jobs w ++ [r] ∧
     id r = j ∧ status r = pending ∧
     source_language r = sanitized (raw_sourceLanguage fields) ∧
     target_language r = sanitized (raw_targetLanguage fields) ∧
     document_type r = sanitized (raw_documentType fields) ∧
     original_filename r = originalname upload ∧
     original_file_path r = path upload) ∧
  (∀ errors, result.1 = Ret (ValidationFailed errors) →
   errors = validateTranslationJob fields ∧ errors ≠ [] ∧
   translation_jobs result.2 = translation_jobs w ∧ tasks result.2 = tasks w) ∧
  (∀ err, result.1 ≠ Ret (Replied (handleUploadError err)) ∨
          (translation_jobs result.2 = translation_jobs w ∧ tasks result.2 = tasks w)).
Proof.
  cbn zeta.
  destruct (validateTranslationJob (in_body inc)) as [|e errs] eqn:Hv.
  2: { split_and!; [reflexivity | | |].
       - intros j [=].
       - intros errors [= <-]. auto.
       - intros err. left. discriminate. }
  destruct (run_controller (processTranslationAsync v)
              (processTranslation v (creating_request user file inc)) os w) as [Hw Hr].
  pose proof (run_settled (processTranslationAsync v)
                (processTranslation v (creating_request user file inc)) os w) as Hset.
  destruct (processTranslation_run v (creating_request user file inc) os w)
    as (Hfiles & _ & _ & _ & Hcases).
  unfold handle in *. rewrite Hw. split_and!.
  - exact Hfiles.
  - intros j Hj. split; [reflexivity|].
    destruct Hcases as [(j' & f & owner & Hresp & Hfile & _ & Hjobs & _)
                       | (resp & Hresp & Hne & _)];
      rewrite Hresp in Hr; rewrite Hr in Hj.
    + injection Hj as <-. cbn [creating_request req_file] in Hfile. subst file.
      eexists _, f. split; [reflexivity|]. split; [exact Hjobs|].
      split_and!; reflexivity.
    + injection Hj as ->. by destruct Hne.
  - intros errors He.
    destruct (run _ os (processTranslation v _) w).1;
      try (rewrite Hr in He; discriminate). contradiction.
  - intros err.
    destruct Hcases as [(j' & f & owner & Hresp & _) | (resp & Hresp & _ & Hj & Ht)].
    + left. rewrite Hresp in Hr. rewrite Hr. intros [= Heq].
      pose proof (handleUploadError_code err) as Hc. rewrite <- Heq in Hc. discriminate Hc.
    + right. split; assumption.
Qed.

(** X19.  The creating route stores the upload, then validates the body,
    then calls its controller.  A job it creates has, as languages and
    document type, the fields of the body as [trim] leaves them, the
    languages not empty and accepted by [isLength] for 2 to 10 and the
    document type one of pdf, docx, xlsx and txt; its upload is in storage at
    the path the job records.  A body that fails a chain is answered with the
    list of errors and adds neither a job nor a dispatch, but the upload that
    came with it stays in storage.  An upload that multer refused is answered
    with the 400 of [handleUploadError], and nothing is read or written. *)
Theorem uploads_are_validated `{Platform} `{Guards} `{Validators} g v inc os w :
  let fields := in_body inc in
  let sourceLanguage := validator_trim (default "" (raw_sourceLanguage fields)) in
  let targetLanguage := validator_trim (default "" (raw_targetLanguage fields)) in
  let documentType := validator_trim (default "" (raw_documentType fields)) in
  let passes :=
    sourceLanguage ≠ "" ∧ validator_isLength 2 10 sourceLanguage = true ∧
    targetLanguage ≠ "" ∧ validator_isLength 2 10 targetLanguage = true ∧
    documentType ∈ ["pdf"; "docx"; "xlsx"; "txt"] in
  let result := handle v os (post_process_translation g v inc) w in
  (validateTranslationJob fields = [] ↔ passes) ∧
  (∀ j, result.1 = Ret (Replied (accepted v j)) →
   passes ∧
   ∃ r file content,
     in_upload inc = UploadOk (Some (file, content)) ∧
     translation_jobs result.2 = translation_jobs w ++ [r] ∧
     id r = j ∧ status r = pending ∧
     source_language r = sourceLanguage ∧
     target_language r = targetLanguage ∧
     document_type r = documentType ∧
     original_filename r = originalname file ∧
     original_file_path r = path file ∧
     files result.2 = <[path file := content]> (files w)) ∧
  (∀ errors, result.1 = Ret (ValidationFailed errors) →
   errors = validateTranslationJob fields ∧ errors ≠ [] ∧
   translation_jobs result.2 = translation_jobs w ∧ tasks result.2 = tasks w ∧
   files result.2 = with_upload (in_upload inc) (files w)) ∧
  (∀ user err, guard g (in_headers inc) = Next user → in_upload inc = UploadFailed err →
   result = (Ret (Replied (handleUploadError err)), w) ∧
   code (handleUploadError err) = 400).
Proof.
  cbn zeta. split; [apply validateTranslationJob_nil|].
  unfold handle, post_process_translation.
  destruct (guard g (in_headers inc)) as [r0|user] eqn:Hg.
  { apply guard_answers in Hg. split_and!.
    - intros j [= ->]. discriminate Hg.
    - intros errors [=].
    - intros user err [=]. }
  destruct (in_upload inc) as [upload|err].
  2: { pose proof (handleUploadError_code err) as Hcode. split_and!.
       - intros j [= Heq]. rewrite Heq in Hcode. discriminate Hcode.
       - intros errors [=].
       - intros user' err' _ [= <-]. auto. }
  rewrite run_upload.
  assert (Hfail : ∀ e w',
            run (processTranslationAsync v) (tl os)
              (Ret (Replied (handleUploadError (OtherError (message e))))) w'
            = (Ret (Replied (handleUploadError (OtherError (message e)))), w'))
    by reflexivity.
  destruct upload as [[file content]|]; [destruct (hd OOk os) eqn:Ho|].
  all: try (rewrite Hfail; pose proof (handleUploadError_code (OtherError (message e)))
              as Hcode; split_and!;
            [ intros j [= Heq]; rewrite Heq in Hcode; discriminate Hcode
            | intros errors [=]
            | intros user' err' _ [=] ]).
  all: match goal with
       | |- context [run _ ?os'
                       (match _ with
                        | [] => controller (processTranslation _ (creating_request _ ?f _))
                        | _ => _
                        end) ?w'] =>
           destruct (validated_run v user f inc os' w') as (Hfiles & Hacc & Hval & _)
       end.
  all: cbn zeta in Hfiles, Hacc, Hval; cbn [fmap option_fmap option_map fst] in *.
  all: split_and!; [ | | intros user' err' _ [=] ].
  all: try (intros j Hj; destruct (Hacc j Hj)
              as (Hnil & row & up & Hup & Hjobs & Hi & Hs & Hsl & Htl & Hdt & Hon & Hop);
            split; [apply validateTranslationJob_nil, Hnil|];
            first [ discriminate Hup
                  | injection Hup as Hup; subst up; exists row, file, content;
                    split_and!; first [reflexivity | assumption] ]).
  all: intros errors He; destruct (Hval errors He) as (? & ? & ? & ?);
    split_and!; try assumption; rewrite Hfiles; reflexivity.
Qed.

(** A body with a language code of one letter: the request is answered
    with the error of the length check, no job is created, and the file that
    came with it is in storage. *)
Lemma rejected_body_keeps_upload :
  let G := Door.guards None (Some "key") in
  let file := mkUploadedFile "a.txt" "/srv/uploads/original/9_a.txt" 2 in
  let inc :=
    mkIncoming (mkHeaders None (Some "key")) (UploadOk (Some (file, "hi")))
      (mkRawBody (Some "e") (Some "es") (Some "txt")) "" None None in
  let result :=
    @handle Scenario.local _ Subprocess []
      (@post_process_translation G Door.validators ApiKey Subprocess inc) Demo.world0 in
  result.1 = Ret (ValidationFailed
                    [mkFieldError "sourceLanguage" "e" "Invalid source language code"]) ∧
  translation_jobs result.2 = [] ∧
  files Demo.world0 !! "/srv/uploads/original/9_a.txt" = None ∧
  files result.2 !! "/srv/uploads/original/9_a.txt" = Some "hi".
Proof. split_and!; vm_compute; reflexivity. Qed.

(** ** Tokens *)

Lemma prefix_append (s t : string) : String.prefix s (s +:+ t) = true.
Proof.
  induction s as [|a s IH]; simpl.
  - by destruct t.
  - destruct (ascii_dec a a) as [_|Hne]; [exact IH | by destruct Hne].
Qed.

(** X20.  A token made by [generateToken] is accepted by [authenticate]
    when [jwt.verify] inverts [jwt.sign] for the secret in use, which is
    the hard-coded default when [JWT_SECRET] is not set or is empty: the
    request is handed on with the payload the token was made for, and a job
    uploaded with that token to the JWT controller belongs to the user of
    the payload.  [authorize] lets such a request through exactly when the
    role of the payload is one of the roles it was given. *)
Theorem issued_token_is_accepted `{Platform} `{Guards} `{Validators} payload key inc :
  jwt_verify (jwt_sign payload JWT_SECRET JWT_EXPIRES_IN) JWT_SECRET = inr payload →
  in_headers inc = mkHeaders (Some ("Bearer " +:+ generateToken payload)) key →
  (Js.truthy env_JWT_SECRET = false → JWT_SECRET = "your-super-secret-jwt-key") ∧
  authenticate (in_headers inc) = Next payload ∧
  (∀ roles, authorize roles (Some payload) = Next () ↔ role payload ∈ roles) ∧
  (∀ os w j,
     reply JwtMock os (post_process_translation Bearer JwtMock inc) w
       = Some (Replied (accepted JwtMock j)) →
     ∃ r, translation_jobs
            (handle JwtMock os (post_process_translation Bearer JwtMock inc) w).2
            = translation_jobs w ++ [r] ∧
          id r = j ∧ user_id r = userId payload).
Proof.
  intros Hjwt Hh.
  assert (Hauth : authenticate (in_headers inc) = Next payload).
  { assert (Hv : verifyToken (generateToken payload) = Some payload)
      by (unfold verifyToken, generateToken; by rewrite Hjwt).
    unfold authenticate. rewrite Hh. cbn [authorization].
    set (token := generateToken payload) in *. clearbody token.
    change (Js.truthy (Some ("Bearer " +:+ token))) with true.
    change (default "" (Some ("Bearer " +:+ token))) with ("Bearer " +:+ token).
    rewrite prefix_append.
    change (Js.drop 7 ("Bearer " +:+ token)) with token.
    cbn [negb orb]. by rewrite Hv. }
  split_and!.
  - intros He. unfold JWT_SECRET, or_default. by rewrite He.
  - exact Hauth.
  - intros roles. unfold authorize. case_bool_decide as Hr; simpl; split; intros Hx;
      first [reflexivity | assumption | discriminate Hx | contradiction].
  - intros os w j. unfold reply, handle, post_process_translation, guard.
    rewrite Hauth.
    destruct (in_upload inc) as [upload|err];
      [|unfold handleUploadError; destruct err; [case_bool_decide|]; discriminate].
    rewrite run_upload.
    assert (Hrest : ∀ os' w' w0,
              translation_jobs w' = translation_jobs w0 →
              match
                (run (processTranslationAsync JwtMock) os'
                   match validateTranslationJob (in_body inc) with
                   | [] =>
                       controller
                         (processTranslation JwtMock
                            (creating_request (Some payload) (fst <$> upload) inc))
                   | errors => Ret (ValidationFailed errors)
                   end w').1
              with
              | Ret r => Some r
              | _ => None
              end = Some (Replied (accepted JwtMock j)) →
              ∃ r, translation_jobs
                     (run (processTranslationAsync JwtMock) os'
                        match validateTranslationJob (in_body inc) with
                        | [] =>
                            controller
                              (processTranslation JwtMock
                                 (creating_request (Some payload) (fst <$> upload) inc))
                        | errors => Ret (ValidationFailed errors)
                        end w').2
                   = translation_jobs w0 ++ [r] ∧
                   id r = j ∧ user_id r = userId payload).
    { intros os' w' w0 Hsame.
      destruct (validateTranslationJob (in_body inc)); [|discriminate].
      destruct (run_controller (processTranslationAsync JwtMock)
                  (processTranslation JwtMock
                     (creating_request (Some payload) (fst <$> upload) inc)) os' w')
        as [-> Hr].
      destruct (processTranslation_run JwtMock
                  (creating_request (Some payload) (fst <$> upload) inc) os' w')
        as (_ & _ & _ & _ & [(j' & f & owner & Hresp & _ & _ & Hjobs & _ & Hown)
                            | (resp & Hresp & Hne & _)]);
        unfold handle in *; rewrite Hresp in Hr; rewrite Hr.
      + intros [= <-]. eexists. split; [rewrite <- Hsame; exact Hjobs|].
        split; [reflexivity|]. simpl in Hown. injection Hown as <-. reflexivity.
      + intros [= ->]. by destruct Hne. }
    destruct upload as [[file content]|]; [destruct (hd OOk os)|];
      try (apply Hrest; reflexivity).
    cbn [run fst]. discriminate.
Qed.

Lemma issued_token_is_accepted_witness :
  let G := Door.guards None None in
  let token := @generateToken G Demo.alice in
  let inc := Door.incoming (mkHeaders (Some ("Bearer " +:+ token)) None) in
  @jwt_verify G (@jwt_sign G Demo.alice (@JWT_SECRET G) (@JWT_EXPIRES_IN G)) (@JWT_SECRET G)
    = inr Demo.alice ∧
  in_headers inc = mkHeaders (Some ("Bearer " +:+ token)) None ∧
  (Js.truthy (@env_JWT_SECRET G) = false → @JWT_SECRET G = "your-super-secret-jwt-key") ∧
  @authenticate G (in_headers inc) = Next Demo.alice ∧
  (∀ roles, authorize roles (Some Demo.alice) = Next () ↔ role Demo.alice ∈ roles) ∧
  (∀ os w j,
     @reply Scenario.local JwtMock os
       (@post_process_translation G Door.validators Bearer JwtMock inc) w
       = Some (Replied (accepted JwtMock j)) →
     ∃ r, translation_jobs
            (@handle Scenario.local _ JwtMock os
               (@post_process_translation G Door.validators Bearer JwtMock inc) w).2
            = translation_jobs w ++ [r] ∧
          id r = j ∧ user_id r = userId Demo.alice).
Proof.
  split; [reflexivity|]. split; [reflexivity|].
  exact (@issued_token_is_accepted Scenario.local (Door.guards None None) Door.validators
           Demo.alice None
           (Door.incoming
              (mkHeaders (Some ("Bearer " +:+ @generateToken (Door.guards None None) Demo.alice))
                 None))
           eq_refl eq_refl).
Defined.

(** ** The discipline of a dispatch *)

Ltac orderly_explore :=
  repeat (cbn [orderly async_bind try_catch unguarded_callback] in *;
          first [ progress intros
                | match goal with
                  | |- _ ∧ _ => split
                  | |- True => exact I
                  | |- _ = _ => reflexivity
                  | r : (_ + _)%type |- _ => destruct r
                  | |- context [if ?b then _ else _] => destruct b eqn:?
                  | |- context [match ?x with _ => _ end] => destruct x eqn:?
                  end ]).

Lemma dispatch_orderly `{Platform} v a :
  orderly (d_jobId a) (d_originalFilename a) pending (processTranslationAsync v a).
Proof. destruct v; async_unfold; orderly_explore. Qed.

Section Discipline.

Context `{Platform}.

(** One operation of an orderly body, on the row of its job. *)
Lemma effect_orderly start j original {X} (op : Op X) k o w r :
  orderly j original (status r) (Await op k) →
  let rw := effect start op o w in
  let f := write_of op o (now w) in
  let name := "translated_" +:+ j +:+ extname original in
  orderly j original (status (f r)) (k rw.1) ∧
  original_filename (f r) = original_filename r ∧
  (f r = r ∨
   (status (f r) ≠ pending ∧
    (status (f r) = completed →
     translated_filename (f r) = Some name ∧
     translated_file_path (f r) = Some (join translatedDir name)))) ∧
  (executions rw.2 = executions w ∨ status r = processing).
Proof.
  intros Ho.
  destruct op as [R q| | | | | | | | | | |]; [destruct q|..]; simpl in Ho.
  all: destruct o; simpl.
  all: try (destruct (files w !! _) eqn:?; simpl).
  all: repeat match goal with H : _ ∧ _ |- _ => destruct H end; subst.
  all: split_and!; auto.
  all: try (left; match goal with |- context [if ?b then _ else _] => destruct b end;
            reflexivity).
  all: right; split; [discriminate|]; intros Hc; first [discriminate Hc | auto].
Qed.

Lemma resume_disciplined v w i o :
  Inv (strict_of v) (settled v) w →
  task_job <$> tasks w = id <$> translation_jobs w →
  disciplined w →
  disciplined (resume (processTranslationAsync v) i o w).
Proof.
  intros HI Hp [Ht Hr].
  destruct (exited w) eqn:He; [rewrite resume_other by auto; split; assumption|].
  destruct (tasks w !! i) as [[j body]|] eqn:Hi;
    [|rewrite resume_other by auto; split; assumption].
  destruct body as [| | |X op k];
    try (rewrite resume_other by (right; right; eexists _, _; split; [eauto|exact I]);
         split; assumption).
  rewrite (resume_await _ w i o j op k He Hi).
  assert (Hin : mkTask j (Await op k) ∈ tasks w) by (eapply list_elem_of_lookup_2; eauto).
  destruct (inv_task_ok _ _ _ HI _ Hin) as (r0 & wr & Hr0 & Hid0 & Hst & Hs).
  cbn [task_job task_body] in *.
  assert (Hrow : ∃ ri, translation_jobs w !! i = Some ri ∧ id ri = j).
  { assert (E : (id <$> translation_jobs w) !! i = Some j)
      by (rewrite <- Hp, list_lookup_fmap, Hi; reflexivity).
    rewrite list_lookup_fmap in E.
    destruct (translation_jobs w !! i) as [ri|]; [|discriminate].
    injection E as E. eauto. }
  destruct Hrow as (ri & Hri & Hidi).
  assert (Huniq : ∀ r, r ∈ translation_jobs w → id r = j → r = ri).
  { intros r Hin' Hid. eapply (NoDup_fmap_eq id); eauto using inv_ids.
    - eapply list_elem_of_lookup_2; eauto.
    - congruence. }
  assert (r0 = ri) as -> by auto.
  pose proof (effect_safe (processTranslationAsync v) _ _ j (status ri) wr op k o w Hs Hst)
    as Heff.
  pose proof (effect_orderly (processTranslationAsync v) (id ri) (original_filename ri)
                op k o w ri (Ht i _ _ Hi Hri)) as Hord.
  destruct (effect (processTranslationAsync v) op o w) as [rep w1].
  simpl in Heff, Hord. cbn [fst snd].
  destruct Heff as (Hjobs & Htasks & Hf & _ & Hexec & _).
  destruct Hord as (Hk & Horig & Hwrite & Hcalled).
  set (f := write_of op o (now w)) in *.
  assert (E : ∀ w2 : World,
            translation_jobs (if settled_badly (k rep) then set_exited true w2 else w2)
              = translation_jobs w2 ∧
            tasks (if settled_badly (k rep) then set_exited true w2 else w2) = tasks w2 ∧
            executions (if settled_badly (k rep) then set_exited true w2 else w2)
              = executions w2)
    by (intros w2; destruct (settled_badly (k rep)); split_and!; reflexivity).
  unfold disciplined.
  destruct (E (set_tasks (<[i:=mkTask j (k rep)]>) w1)) as (-> & -> & ->). simpl.
  rewrite Hjobs, Htasks. clear E.
  split.
  - intros n t r' Hn Hr'.
    unfold Db.update_where_id in Hr'. rewrite list_lookup_fmap in Hr'.
    destruct (translation_jobs w !! n) as [r|] eqn:Hrn; [|discriminate].
    injection Hr' as <-.
    destruct (decide (n = i)) as [->|Hne].
    + rewrite list_lookup_insert_eq in Hn
        by (eapply lookup_lt_Some; eauto).
      injection Hn as <-. rewrite Hri in Hrn. injection Hrn as <-.
      rewrite decide_True by assumption. rewrite Hf, Horig. exact Hk.
    + rewrite list_lookup_insert_ne in Hn by auto.
      rewrite decide_False; [eapply Ht; eauto|].
      intros Hid. apply Hne.
      eapply (NoDup_lookup (id <$> translation_jobs w)); [eapply inv_ids, HI|..].
      * rewrite list_lookup_fmap, Hrn. reflexivity.
      * rewrite list_lookup_fmap, Hri. simpl. congruence.
  - intros r' Hin'. unfold Db.update_where_id in Hin'.
    apply list_elem_of_fmap in Hin' as (r & -> & Hin').
    destruct (Hr r Hin') as [Hcall Hdone].
    destruct (decide (id r = j)) as [Hid|Hid].
    + assert (r = ri) as -> by auto.
      destruct Hwrite as [-> | [Hnp Hname]].
      * split; [|exact Hdone].
        intros Hx. destruct Hcalled as [Hsame|Hproc].
        -- apply Hcall. rewrite <- Hsame. exact Hx.
        -- rewrite Hproc. discriminate.
      * split; [intros _; exact Hnp|].
        unfold output_path_of, output_name_of. rewrite Hf, Horig. exact Hname.
    + split; [|exact Hdone].
      intros Hx. apply Hcall.
      destruct Hexec as [<-|[Hadd _]]; [exact Hx|].
      rewrite Hadd in Hx. apply elem_of_cons in Hx as [Hx|Hx]; [contradiction|exact Hx].
Qed.

Lemma step_disciplined v ev w :
  Inv (strict_of v) (settled v) w →
  task_job <$> tasks w = id <$> translation_jobs w →
  disciplined w →
  disciplined (step v ev w).
Proof.
  intros HI Hp HD. destruct ev as [|req os|i o]; simpl.
  - exact HD.
  - destruct (exited w); [exact HD|].
    destruct (processTranslation_run v req os w)
      as (_ & Hex & _ & _ &
          [(j & file & owner & _ & _ & Hfresh & Hjobs & Htasks & _) | (r & _ & _ & Hjobs & Htasks)]).
    + destruct HD as [Ht Hr].
      assert (Hlen : length (tasks w) = length (translation_jobs w))
        by (rewrite <- (length_fmap task_job), Hp, length_fmap; reflexivity).
      split.
      * intros n t r. rewrite Hjobs, Htasks. intros Hn Hrn.
        destruct (decide (n < length (tasks w))%nat) as [Hlt|Hge].
        -- rewrite lookup_app_l in Hn by exact Hlt.
           rewrite lookup_app_l in Hrn by (rewrite <- Hlen; exact Hlt).
           eapply Ht; eauto.
        -- rewrite lookup_app_r in Hn by lia.
           rewrite lookup_app_r in Hrn by lia.
           rewrite Hlen in Hn.
           destruct (n - length (translation_jobs w))%nat as [|m]; [|destruct m; discriminate].
           injection Hn as <-. injection Hrn as <-.
           apply (dispatch_orderly v (dispatch_of j req file)).
      * intros r. rewrite Hjobs, Hex. intros Hin.
        apply elem_of_app in Hin as [Hin|Hin]; [apply Hr, Hin|].
        apply list_elem_of_singleton in Hin as ->. split; [|discriminate].
        intros Hx. exfalso. apply Hfresh. rewrite <- Hp.
        apply (inv_exec_task _ _ _ HI), Hx.
    + destruct HD as [Ht Hr]. split.
      * intros n t r'. rewrite Hjobs, Htasks. apply Ht.
      * intros r'. rewrite Hjobs, Hex. apply Hr.
  - apply resume_disciplined; assumption.
Qed.

Lemma exec_disciplined v evs : ∀ w,
  Inv (strict_of v) (settled v) w →
  task_job <$> tasks w = id <$> translation_jobs w →
  disciplined w →
  disciplined (exec v evs w).
Proof.
  induction evs as [|ev evs IH]; intros w HI Hp HD; [exact HD|].
  apply (IH (step v ev w));
    [apply step_spec, HI | apply step_paired; assumption | apply step_disciplined; assumption].
Qed.

Lemma reachable_disciplined v us fs t evs : disciplined (exec v evs (boot us fs t)).
Proof.
  apply exec_disciplined; [apply boot_inv | reflexivity |].
  split.
  - intros i tk r Hi. discriminate Hi.
  - intros r Hr. by apply elem_of_nil in Hr.
Qed.

End Discipline.

(** X21.  The executor is called for a job only once its row has been set
    to processing: in every state a server reaches, a job that is still
    pending has had no executor call. *)
Theorem executor_waits_for_processing `{Platform} v us fs t evs r :
  let w := exec v evs (boot us fs t) in
  r ∈ translation_jobs w → status r = pending → id r ∉ executions w.
Proof.
  intros w Hr Hp Hx.
  destruct (reachable_disciplined v us fs t evs) as [_ Hrows].
  destruct (Hrows r Hr) as [Hcall _]. exact (Hcall Hx Hp).
Qed.

Lemma executor_waits_for_processing_witness :
  let w := @exec Scenario.local JwtMock Scenario.posted Demo.world0 in
  Scenario.pending_row "alice" ∈ translation_jobs w ∧
  status (Scenario.pending_row "alice") = pending ∧
  id (Scenario.pending_row "alice") ∉ executions w.
Proof.
  assert (Hr : Scenario.pending_row "alice"
               ∈ translation_jobs (@exec Scenario.local JwtMock Scenario.posted Demo.world0))
    by (vm_compute; apply list_elem_of_here).
  split_and!; [exact Hr | reflexivity |].
  exact (@executor_waits_for_processing Scenario.local JwtMock [Demo.system_user]
           Demo.storage 0%nat Scenario.posted (Scenario.pending_row "alice") Hr eq_refl).
Defined.

(** X22.  In every state a server reaches, the output reference of a
    completed job is made of its own id and of the extension of the name of
    its upload: the file name is translated_ followed by the id and the
    extension, and the path is that name in the directory of translated
    files. *)
Theorem output_is_named_after_the_job `{Platform} v us fs t evs r :
  let w := exec v evs (boot us fs t) in
  r ∈ translation_jobs w → status r = completed →
  translated_filename r
    = Some ("translated_" +:+ id r +:+ extname (original_filename r)) ∧
  translated_file_path r
    = Some (join translatedDir ("translated_" +:+ id r +:+ extname (original_filename r))).
Proof.
  intros w Hr Hc.
  destruct (reachable_disciplined v us fs t evs) as [_ Hrows].
  destruct (Hrows r Hr) as [_ Hdone]. exact (Hdone Hc).
Qed.

Lemma output_is_named_after_the_job_witness :
  let w := @exec Scenario.local JwtMock Scenario.translated Demo.world0 in
  Scenario.completed_row "alice" ∈ translation_jobs w ∧
  status (Scenario.completed_row "alice") = completed ∧
  translated_filename (Scenario.completed_row "alice") = Some "translated_j1.txt".
Proof.
  assert (Hr : Scenario.completed_row "alice"
               ∈ translation_jobs (@exec Scenario.local JwtMock Scenario.translated Demo.world0))
    by (vm_compute; apply list_elem_of_here).
  split_and!; [exact Hr | reflexivity |].
  exact (proj1 (@output_is_named_after_the_job Scenario.local JwtMock [Demo.system_user]
                  Demo.storage 0%nat Scenario.translated (Scenario.completed_row "alice")
                  Hr eq_refl)).
Defined.

(** ** Stored uploads *)

Lemma lower_letter c : Text.letter (Text.lower c) = true → Text.letter c = true.
Proof. destruct c as [[] [] [] [] [] [] [] []]; vm_compute; auto. Qed.

Lemma toLowerCase_letters e :
  Text.all Text.letter (Text.toLowerCase e) = true → Text.all Text.letter e = true.
Proof.
  induction e as [|c e IH]; [reflexivity|]. cbn [Text.toLowerCase Text.all].
  rewrite !andb_true_iff. intros [Hc He]. split; [apply lower_letter, Hc | apply IH, He].
Qed.

Lemma replace_unsafe_word s : Text.all Text.word_char (Text.replace_unsafe s) = true.
Proof.
  induction s as [|c s IH]; [reflexivity|]. cbn [Text.replace_unsafe Text.all].
  rewrite IH, andb_true_r. destruct (Text.word_char c) eqn:E; [exact E | reflexivity].
Qed.

Lemma replace_unsafe_id s :
  Text.all Text.word_char s = true → Text.replace_unsafe s = s.
Proof.
  induction s as [|c s IH]; [reflexivity|]. cbn [Text.replace_unsafe Text.all].
  rewrite andb_true_iff. intros [-> Hs]. rewrite IH by exact Hs. reflexivity.
Qed.

(** X23.  With the default list of file types, an upload the file filter
    accepts is stored under a plain name: the identifier, an underscore, a
    stem in which every character is a letter, a digit, a hyphen or an
    underscore, and the extension of the original name unchanged, which is
    one character followed by pdf, docx, xlsx or txt in any case. *)
Theorem accepted_uploads_have_plain_names `{Platform} basename_without uniqueId name :
  fileFilter None name = inr true →
  ∃ stem dot e,
    stored_filename basename_without uniqueId name
      = uniqueId +:+ "_" +:+ stem +:+ String dot e ∧
    extname name = String dot e ∧
    Text.all Text.word_char stem = true ∧
    Text.all Text.letter e = true ∧
    Text.toLowerCase e ∈ ["pdf"; "docx"; "xlsx"; "txt"].
Proof.
  unfold fileFilter, stored_filename. cbn zeta.
  change (allowedTypes None) with ["pdf"; "docx"; "xlsx"; "txt"].
  case_bool_decide as Hin; [intros _|discriminate].
  destruct (extname name) as [|dot e] eqn:Hext.
  - exfalso. cbn [Text.toLowerCase Js.drop] in Hin.
    repeat (apply elem_of_cons in Hin as [Hin|Hin]; [discriminate Hin|]).
    by apply elem_of_nil in Hin.
  - cbn [Text.toLowerCase Js.drop] in Hin.
    exists (Text.replace_unsafe (basename_without name (String dot e))), dot, e.
    split_and!; [reflexivity | reflexivity | apply replace_unsafe_word | | exact Hin].
    apply toLowerCase_letters.
    repeat (apply elem_of_cons in Hin as [->|Hin]; [reflexivity|]).
    by apply elem_of_nil in Hin.
Qed.

Lemma accepted_uploads_have_plain_names_witness :
  ∃ stem dot e,
    @stored_filename Scenario.local
        (λ p ext, String.substring 0 (String.length p - String.length ext) p)
        "6f1c" "Q3 report (final).PDF"
      = "6f1c" +:+ "_" +:+ stem +:+ String dot e ∧
    @extname Scenario.local "Q3 report (final).PDF" = String dot e ∧
    Text.all Text.word_char stem = true ∧
    Text.all Text.letter e = true ∧
    Text.toLowerCase e ∈ ["pdf"; "docx"; "xlsx"; "txt"].
Proof.
  apply (@accepted_uploads_have_plain_names Scenario.local
           (λ p ext, String.substring 0 (String.length p - String.length ext) p)
           "6f1c" "Q3 report (final).PDF").
  vm_compute. reflexivity.
Defined.

(** ** Requests to the outside *)

Ltac fetching :=
  repeat (cbn [fetches async_bind try_catch unguarded_callback] in *;
          first [ progress intros
                | match goal with
                  | |- _ ∧ _ => split
                  | |- True => exact I
                  | r : (_ + _)%type |- _ => destruct r
                  | |- context [if ?b then _ else _] => destruct b eqn:?
                  | |- context [match ?x with _ => _ end] => destruct x eqn:?
                  end ]).

Lemma truthy_nonempty x : Js.truthy x = true → ∃ s, x = Some s ∧ s ≠ "".
Proof.
  destruct x as [[|c s]|]; try discriminate.
  intros _. eexists; split; [reflexivity|discriminate].
Qed.

(** X24.  The API key leaves the server only towards the configured API:
    only the remote-API controller sends requests, only when both the URL and
    the key of the external API are set, and a request that carries the form
    with the key goes to that URL; the download of the result carries no
    form.  The handlers themselves send no request. *)
Theorem key_goes_only_to_the_api `{Platform} v a req :
  fetches (to_the_api v) (processTranslationAsync v a) ∧
  fetches (λ _ _, False) (processTranslation v req) ∧
  fetches (λ _ _, False) (getJobStatus v req) ∧
  fetches (λ _ _, False) (getTranslationHistory v req) ∧
  fetches (λ _ _, False) (downloadFile v req).
Proof.
  split_and!.
  - destruct v; async_unfold; fetching.
    all: split; [reflexivity|].
    all: repeat match goal with
           | E : negb _ || negb _ = false |- _ =>
               apply orb_false_iff in E as [? ?]
           | E : negb _ = false |- _ => apply negb_false_iff in E
           | E : Js.truthy _ = true |- _ =>
               apply truthy_nonempty in E as (? & ? & ?)
           end.
    all: eexists _, _; split_and!; try eassumption.
    all: intros f Hf; first [discriminate Hf | injection Hf as <-].
    all: repeat match goal with E : _ = Some _ |- _ => rewrite E end.
    all: split; reflexivity.
  - destruct v, req as [[u|] [f|] sl tl dt jid lim off]; route_unfold; fetching.
  - destruct v, req as [[u|] [f|] sl tl dt jid lim off]; route_unfold; fetching.
  - destruct v, req as [[u|] [f|] sl tl dt jid lim off]; route_unfold; fetching.
  - destruct v, req as [[u|] [f|] sl tl dt jid lim off]; route_unfold; fetching.
Qed.

(** ** A job that was accepted *)


